(** * Layered key-value sessions (b1/session/session.hpp)

    A shallow embedding of [eosio::session::session] and its iterator.
    Session implementations ([session_impl]) live in a heap addressed by
    pointers, because the source links them through [parent] (a shared
    pointer), [child] (a weak pointer) and a shared backing store; all
    aliasing of the source is kept.  A new object gets a fresh address.

    Dereferencing a null pointer or the [end()] position of a [std::map] is
    undefined behaviour in the source and is the result [Fault] here.  Loops
    over pointer chains take a [fuel] argument; running out of it is the
    separate result [OutOfFuel].

    Keys and values are byte strings.  The source iterates over its
    [std::unordered_set]s in an unspecified order; here they are visited in
    key order. *)

From Stdlib Require Import String.
From stdpp Require Import base option list gmap strings.

Open Scope string_scope.
Open Scope list_scope.
Open Scope nat_scope.

(** ** Byte buffers and key/values

    [shared_bytes] is an immutable byte sequence ordered lexicographically;
    [shared_bytes::invalid] is the sentinel.  A valid buffer is a [string] (a
    list of 8-bit characters), the sentinel is [None]. *)

Record key_value := make_kv { kv_key : string; kv_value : string }.

#[global] Instance key_value_eq_dec : EqDecision key_value.
Proof. solve_decision. Defined.

(** [std::less<shared_bytes>] and [std::greater<shared_bytes>]. *)
Definition bytes_less (a b : string) : bool := String.ltb a b.
Definition bytes_greater (a b : string) : bool := String.ltb b a.

(** ** Results of fallible code *)

Inductive result (A : Type) : Type :=
  | Ok (a : A)
  | Fault
  | OutOfFuel.
Arguments Ok {A} a.
Arguments Fault {A}.
Arguments OutOfFuel {A}.

#[global] Instance result_ret : MRet result := λ A a, Ok a.
#[global] Instance result_bind : MBind result := λ A B f m,
  match m with
  | Ok a => f a
  | Fault => Fault
  | OutOfFuel => OutOfFuel
  end.

#[global] Instance result_fmap : FMap result := λ A B f m,
  match m with
  | Ok a => Ok (f a)
  | Fault => Fault
  | OutOfFuel => OutOfFuel
  end.

(** Dereference of a pointer that may be null. *)
Definition deref {A} (o : option A) : result A :=
  match o with
  | Some a => Ok a
  | None => Fault
  end.

(** ** Ordered containers

    Modelled from the spec: the overlay cache ([Cache_data_store]) and the
    backing store ([Persistent_data_store]) are outside this header; section 6
    of the specification gives both the same interface, an ordered key to
    value map with [read], [write], [erase], [contains], batch forms and
    ordered iteration.  Both are a [gmap string string]; an iterator of such a
    container is the list of the keys from its position to the end, so
    [end()] is the empty list. *)

Fixpoint insert_key (k : string) (l : list string) : list string :=
  match l with
  | [] => [k]
  | x :: l' => if String.ltb k x then k :: l else x :: insert_key k l'
  end.

Definition sort_keys (l : list string) : list string := foldr insert_key [] l.

Definition sorted_keys {V} (m : gmap string V) : list string :=
  sort_keys (map fst (map_to_list m)).

Definition set_keys (s : gset string) : list string := sort_keys (elements s).

Definition ds_begin {V} (m : gmap string V) : list string := sorted_keys m.
Definition ds_end {V} (m : gmap string V) : list string := [].

Fixpoint drop_while (f : string → bool) (l : list string) : list string :=
  match l with
  | [] => []
  | x :: l' => if f x then drop_while f l' else l
  end.

Definition ds_lower_bound {V} (m : gmap string V) (k : string) : list string :=
  drop_while (λ x, String.ltb x k) (sorted_keys m).
Definition ds_upper_bound {V} (m : gmap string V) (k : string) : list string :=
  drop_while (λ x, negb (String.ltb k x)) (sorted_keys m).
Definition ds_find {V} (m : gmap string V) (k : string) : list string :=
  match m !! k with
  | Some _ => ds_lower_bound m k
  | None => []
  end.

(** [--it] for a position [it] of the container [m]: the position one
    element earlier ([it] is a suffix of the sorted keys). *)
Definition ds_prev {V} (m : gmap string V) (it : list string) : list string :=
  let ks := sorted_keys m in
  drop (length ks - length it - 1) ks.

(** Modelled from the spec: [read], [write], [erase] and [contains] of the
    two container types, and their batch forms, which visit their argument
    in order. *)
Definition ds_read (m : gmap string string) (k : string) : option key_value :=
  make_kv k <$> m !! k.
Definition ds_write (m : gmap string string) (kv : key_value) : gmap string string :=
  <[kv_key kv := kv_value kv]> m.
Definition ds_write_batch (m : gmap string string) (kvs : list key_value) : gmap string string :=
  foldl ds_write m kvs.
Definition ds_erase (m : gmap string string) (k : string) : gmap string string :=
  delete k m.
Definition ds_erase_batch (m : gmap string string) (ks : list string) : gmap string string :=
  foldl ds_erase m ks.
Definition ds_contains (m : gmap string string) (k : string) : bool :=
  bool_decide (is_Some (m !! k)).

(** Modelled from the spec: the batch [read] of a container, the key/values
    found and the keys not found. *)
Definition ds_read_batch (m : gmap string string) (ks : list string)
  : list key_value * gset string :=
  (omap (ds_read m) ks, list_to_set (filter (λ k, m !! k = None) ks)).

(** Modelled from the spec: [Cache_data_store::write_to(ds, keys)] hands the
    entries of [m] for the keys [ks] to the destination's batch [write]. *)
Definition ds_entries (m : gmap string string) (ks : list string) : list key_value :=
  omap (ds_read m) ks.

(** ** Session implementations and the heap *)

Record iterator_state := IteratorState {
  next_in_cache : bool;
  previous_in_cache : bool;
  deleted : bool
}.

Definition iterator_state_default : iterator_state := IteratorState false false false.

Record session_impl := SessionImpl {
  parent : option nat;               (* std::shared_ptr<session_impl> *)
  child : option nat;                (* std::weak_ptr<session_impl> *)
  backing_data_store : option nat;   (* std::shared_ptr<Persistent_data_store> *)
  cache : gmap string string;
  iterator_cache : gmap string iterator_state;
  updated_keys : gset string;
  deleted_keys : gset string
}.

Definition set_parent (x : option nat) (n : session_impl) : session_impl :=
  SessionImpl x (child n) (backing_data_store n) (cache n) (iterator_cache n)
    (updated_keys n) (deleted_keys n).
Definition set_child (x : option nat) (n : session_impl) : session_impl :=
  SessionImpl (parent n) x (backing_data_store n) (cache n) (iterator_cache n)
    (updated_keys n) (deleted_keys n).
Definition set_backing (x : option nat) (n : session_impl) : session_impl :=
  SessionImpl (parent n) (child n) x (cache n) (iterator_cache n)
    (updated_keys n) (deleted_keys n).
Definition set_cache (x : gmap string string) (n : session_impl) : session_impl :=
  SessionImpl (parent n) (child n) (backing_data_store n) x (iterator_cache n)
    (updated_keys n) (deleted_keys n).
Definition set_iterator_cache (x : gmap string iterator_state) (n : session_impl) : session_impl :=
  SessionImpl (parent n) (child n) (backing_data_store n) (cache n) x
    (updated_keys n) (deleted_keys n).
Definition set_updated (x : gset string) (n : session_impl) : session_impl :=
  SessionImpl (parent n) (child n) (backing_data_store n) (cache n) (iterator_cache n)
    x (deleted_keys n).
Definition set_deleted (x : gset string) (n : session_impl) : session_impl :=
  SessionImpl (parent n) (child n) (backing_data_store n) (cache n) (iterator_cache n)
    (updated_keys n) x.

(** The heap: the live [session_impl] objects and the backing stores, each
    shared through pointers.  A session handle is its [m_impl] pointer, an
    [option nat]; [None] is the null pointer of a moved-from handle. *)
Record heap := Heap {
  impls : gmap nat session_impl;
  stores : gmap nat (gmap string string)
}.

Definition get (h : heap) (p : nat) : result session_impl := deref (impls h !! p).

Definition put (p : nat) (n : session_impl) (h : heap) : heap :=
  Heap (<[p := n]> (impls h)) (stores h).

Definition modify (p : nat) (f : session_impl → session_impl) (h : heap) : result heap :=
  n ← get h p; Ok (put p (f n) h).

(** [w.lock()] of a weak pointer [w]: null when [w] is null or its object is
    gone from the heap. *)
Definition lock (h : heap) (w : option nat) : option nat :=
  match w with
  | Some c => if impls h !! c is Some _ then Some c else None
  | None => None
  end.

(** [*m_impl->backing_data_store]. *)
Definition backing (h : heap) (n : session_impl) : result (gmap string string) :=
  b ← deref (backing_data_store n); deref (stores h !! b).

(** ** The static [session::invalid]

    [session::invalid] is built by the private constructor [session()], which
    allocates a [session_impl] over a default-constructed backing store.  Its
    objects are at address 0. *)
Definition invalid_impl : nat := 0.
Definition invalid : option nat := Some invalid_impl.

Definition session_impl_default (b : nat) : session_impl :=
  SessionImpl None None (Some b) ∅ ∅ ∅ ∅.

Definition initial_heap : heap :=
  Heap {[ invalid_impl := session_impl_default 0 ]} {[ 0 := ∅ ]}.

(** ** Construction *)

(** [session(Persistent_data_store ds, Cache_data_store cache)]. *)
Definition new_session (h : heap) (ds cds : gmap string string) : option nat * heap :=
  let b := fresh (dom (stores h)) in
  let p := fresh (dom (impls h)) in
  (Some p, Heap (<[p := SessionImpl None None (Some b) cds ∅ ∅ ∅]> (impls h))
                (<[b := ds]> (stores h))).

(** [session_impl(session_impl& parent_)] followed by the link that
    [make_session(session&)] sets. *)
Definition make_session (h : heap) (the_session : option nat) : result (option nat * heap) :=
  p ← deref the_session;
  pn ← get h p;
  let q := fresh (dom (impls h)) in
  let new_impl := SessionImpl (Some p) None (backing_data_store pn) ∅ ∅ ∅ ∅ in
  h1 ← match lock h (child pn) with
       | Some c => modify c (λ n, set_parent None (set_backing None n)) h
       | None => Ok h
       end;
  let h2 := put q new_impl h1 in
  h3 ← modify p (set_child (Some q)) h2;
  Ok (Some q, h3).

(** ** [session_impl::clear], [undo]  *)

Definition clear_impl (n : session_impl) : session_impl :=
  SessionImpl (parent n) (child n) (backing_data_store n) ∅ ∅ ∅ ∅.

Definition impl_undo (h : heap) (p : nat) : result heap :=
  n ← get h p;
  h1 ← match parent n with
       | Some q => modify q (set_child (child n)) h
       | None => Ok h
       end;
  n1 ← get h1 p;
  h2 ← match lock h1 (child n1) with
       | Some c => modify c (set_parent (parent n1)) h1
       | None => Ok h1
       end;
  modify p (λ n2, clear_impl (set_backing None (set_child None (set_parent None n2)))) h2.

Definition undo (h : heap) (s : option nat) : result heap :=
  match s with
  | None => Ok h
  | Some p => impl_undo h p
  end.

Definition clear (h : heap) (s : option nat) : result heap :=
  match s with
  | None => Ok h
  | Some p => modify p clear_impl h
  end.

(** ** The iterator cache and [make_iterator_] *)

Record iterator_cache_params := IteratorCacheParams {
  prime_only : bool;
  recalculate : bool;
  mark_deleted : bool;
  overwrite : bool
}.

(** [iterator_cache.try_emplace(key, iterator_state{})]. *)
Definition try_emplace (k : string) (ic : gmap string iterator_state)
  : gmap string iterator_state :=
  match ic !! k with
  | Some _ => ic
  | None => <[k := iterator_state_default]> ic
  end.

(** How [make_iterator_]'s [move] functor advances a container iterator:
    [++it] or [it = end]. *)
Inductive move_kind := move_next | move_to_end.

(** A session iterator: [m_active_iterator] is a position of the iterator
    cache, the key it points at or [None] for [end()]; [m_active_session] is
    the [m_impl] of the session it belongs to. *)
Record session_iterator := SessionIterator {
  m_active_iterator : option string;
  m_active_session : option nat
}.

(** [while (parent->parent) parent = parent->parent;] *)
Fixpoint root_of (fuel : nat) (h : heap) (p : nat) : result nat :=
  match fuel with
  | 0 => OutOfFuel
  | S f =>
      n ← get h p;
      match parent n with
      | Some q => root_of f h q
      | None => Ok p
      end
  end.

(** The loop of the [deleted] lambda: [c] is the locked [child], [res] the
    running [result]. *)
Fixpoint deleted_walk (fuel : nat) (h : heap) (m_impl : nat) (c : option nat)
    (key : string) (res : bool) : result bool :=
  match c with
  | None => Ok res
  | Some q =>
      match fuel with
      | 0 => OutOfFuel
      | S f =>
          n ← get h q;
          let res' :=
            if decide (key ∈ deleted_keys n) then true
            else if decide (key ∈ updated_keys n) then false
            else res in
          if decide (q = m_impl) then Ok res'
          else deleted_walk f h m_impl (lock h (child n)) key res'
      end
  end.

(** The [deleted] lambda of [make_iterator_]. *)
Definition deleted_below (fuel : nat) (h : heap) (m_impl : nat) (session : nat)
    (key : string) : result bool :=
  n ← get h session;
  deleted_walk fuel h m_impl (lock h (child n)) key false.

(** The [find_first_not] lambda, with [deleted] as its predicate: the first
    key from [it] on that is not deleted below [session], and the position
    reached ([it] is passed by reference). *)
Fixpoint find_first_not (fuel : nat) (h : heap) (m_impl : nat) (session : nat)
    (mv : move_kind) (it : list string) : result (option string * list string) :=
  match it with
  | [] => Ok (None, [])
  | pending_key :: rest =>
      d ← deleted_below fuel h m_impl session pending_key;
      if (d : bool) then
        match mv with
        | move_next => find_first_not fuel h m_impl session mv rest
        | move_to_end => Ok (None, [])
        end
      else Ok (Some pending_key, it)
  end.

(** The loop over the session levels, from the head down to [m_impl]. *)
Fixpoint scan_levels (fuel0 fuel : nat) (h : heap) (m_impl : nat) (root : nat)
    (predicate : gmap string string → list string)
    (comparator : string → string → bool) (mv : move_kind)
    (current : option nat) (current_key : option string) : result (option string) :=
  match current with
  | None => Ok current_key
  | Some c =>
      match fuel with
      | 0 => OutOfFuel
      | S f =>
          n ← get h c;
          '(pending_key, pending) ← find_first_not fuel0 h m_impl root mv (predicate (cache n));
          match pending_key with
          | None =>
              scan_levels fuel0 f h m_impl root predicate comparator mv
                (lock h (child n)) current_key
          | Some pk =>
              let current_key' :=
                match current_key with
                | None => Some pk
                | Some ck => if comparator pk ck then Some pk else Some ck
                end in
              if decide (c = m_impl) then Ok current_key'
              else scan_levels fuel0 f h m_impl root predicate comparator mv
                     (lock h (child n)) current_key'
          end
      end
  end.

(** The search of [make_iterator_] (from "Move to the head" to the end of
    the loop over the levels): the key the new iterator starts at. *)
Definition find_start (fuel : nat) (h : heap) (m_impl : nat)
    (predicate : gmap string string → list string)
    (comparator : string → string → bool) (mv : move_kind) : result (option string) :=
  n ← get h m_impl;
  root ← root_of fuel h m_impl;
  ds ← backing h n;
  '(current_key, _) ← find_first_not fuel h m_impl root mv (predicate ds);
  scan_levels fuel fuel h m_impl root predicate comparator mv (Some root) current_key.

(** The end of [make_iterator_]: the position of [current_key] in the
    iterator cache, or [end()] when its entry is marked deleted. *)
Definition position_at (h : heap) (m_impl : nat) (current_key : string)
  : result session_iterator :=
  n ← get h m_impl;
  st ← deref (iterator_cache n !! current_key);
  Ok (SessionIterator (if deleted st then None else Some current_key) (Some m_impl)).

(** [make_iterator_] called with [prime_cache_only = true], as [bounds]
    calls it: [update_iterator_cache] then returns right after its
    [try_emplace] (see [make_iterator_prime_only] below). *)
Definition make_iterator_prime (fuel : nat) (h : heap) (m_impl : nat)
    (predicate : gmap string string → list string)
    (comparator : string → string → bool) (mv : move_kind)
  : result (session_iterator * heap) :=
  current_key ← find_start fuel h m_impl predicate comparator mv;
  match current_key with
  | None => Ok (SessionIterator None (Some m_impl), h)
  | Some k =>
      h' ← modify m_impl (λ n, set_iterator_cache (try_emplace k (iterator_cache n)) n) h;
      it ← position_at h' m_impl k;
      Ok (it, h')
  end.

(** [session_iterator::operator==]. *)
Definition iterator_eq (h : heap) (a b : session_iterator) : result bool :=
  s ← deref (m_active_session a);
  _ ← get h s;
  match m_active_iterator a, m_active_iterator b with
  | None, None => Ok true
  | _, None => Ok false
  | None, Some _ => Fault   (* [this->m_active_iterator->first] at [end()] *)
  | Some x, Some y => Ok (bool_decide (x = y))
  end.

Definition iterator_neq (h : heap) (a b : session_iterator) : result bool :=
  negb <$> iterator_eq h a b.

(** The [lower] lambda of [bounds]. *)
Definition bounds_lower (key : string) (ds : gmap string string) : list string :=
  let it := ds_lower_bound ds key in
  if bool_decide (it ≠ ds_begin ds) && bool_decide (it ≠ ds_end ds)
  then ds_prev ds it
  else ds_end ds.

(** [session_impl::bounds]. *)
Definition bounds (fuel : nat) (h : heap) (p : nat) (key : string)
  : result ((option string * option string) * heap) :=
  '(lower_bound, h1) ← make_iterator_prime fuel h p (bounds_lower key) bytes_less move_next;
  '(upper_bound, h2) ← make_iterator_prime fuel h1 p (λ ds, ds_upper_bound ds key)
                         bytes_less move_next;
  '(end_, h3) ← make_iterator_prime fuel h2 p ds_end bytes_greater move_to_end;
  lne ← iterator_neq h3 lower_bound end_;
  lower_bound_key ← (if lne : bool then Some <$> deref (m_active_iterator lower_bound)
                     else Ok None);
  une ← iterator_neq h3 upper_bound end_;
  upper_bound_key ← (if une : bool then Some <$> deref (m_active_iterator upper_bound)
                     else Ok None);
  Ok ((lower_bound_key, upper_bound_key), h3).

Definition set_next_in_cache (b : bool) (st : iterator_state) : iterator_state :=
  IteratorState b (previous_in_cache st) (deleted st).
Definition set_previous_in_cache (b : bool) (st : iterator_state) : iterator_state :=
  IteratorState (next_in_cache st) b (deleted st).
Definition set_deleted_flag (b : bool) (st : iterator_state) : iterator_state :=
  IteratorState (next_in_cache st) (previous_in_cache st) b.

(** [it->second.<field> = ...] for the entry of [key] in [p]'s iterator
    cache. *)
Definition modify_entry (p : nat) (key : string) (f : iterator_state → iterator_state)
    (h : heap) : result heap :=
  n ← get h p;
  st ← deref (iterator_cache n !! key);
  Ok (put p (set_iterator_cache (<[key := f st]> (iterator_cache n)) n) h).

(** [session_impl::update_iterator_cache]. *)
Definition update_iterator_cache (fuel : nat) (h : heap) (p : nat) (key : string)
    (params : iterator_cache_params) : result heap :=
  h ← modify p (λ n, set_iterator_cache (try_emplace key (iterator_cache n)) n) h;
  if prime_only params then Ok h
  else
    h ← (if overwrite params then modify_entry p key (set_deleted_flag (mark_deleted params)) h
         else Ok h);
    n ← get h p;
    st ← deref (iterator_cache n !! key);
    if negb (recalculate params) && next_in_cache st && previous_in_cache st then Ok h
    else
      '((lower_bound, upper_bound), h) ← bounds fuel h p key;
      h ← match lower_bound with
          | Some lb =>
              h ← modify p (λ n, set_iterator_cache (try_emplace lb (iterator_cache n)) n) h;
              h ← modify_entry p lb (set_next_in_cache true) h;
              modify_entry p key (set_previous_in_cache true) h
          | None => Ok h
          end;
      match upper_bound with
      | Some ub =>
          h ← modify p (λ n, set_iterator_cache (try_emplace ub (iterator_cache n)) n) h;
          h ← modify_entry p ub (set_previous_in_cache true) h;
          modify_entry p key (set_next_in_cache true) h
      | None => Ok h
      end.

(** [session::make_iterator_]. *)
Definition make_iterator_ (fuel : nat) (h : heap) (s : option nat)
    (predicate : gmap string string → list string)
    (comparator : string → string → bool) (mv : move_kind)
    (prime_cache_only : bool) : result (session_iterator * heap) :=
  match s with
  | None => Ok (SessionIterator None None, h)
  | Some m_impl =>
      current_key ← find_start fuel h m_impl predicate comparator mv;
      match current_key with
      | None => Ok (SessionIterator None (Some m_impl), h)
      | Some k =>
          h' ← update_iterator_cache fuel h m_impl k
                 (IteratorCacheParams prime_cache_only true false false);
          it ← position_at h' m_impl k;
          Ok (it, h')
      end
  end.

(** ** Reads and writes of a session *)

Definition read_params : iterator_cache_params := IteratorCacheParams false true false false.
Definition write_params : iterator_cache_params := IteratorCacheParams false true false true.
Definition erase_params : iterator_cache_params := IteratorCacheParams false true true true.

(** [m_impl->cache.write(kv)] then [m_impl->update_iterator_cache(kv.key(), ...)],
    as [read] does after a hit outside the session's own cache. *)
Definition cache_in (fuel : nat) (h : heap) (m_impl : nat) (kv : key_value) : result heap :=
  h ← modify m_impl (λ n, set_cache (ds_write (cache n) kv) n) h;
  update_iterator_cache fuel h m_impl (kv_key kv) read_params.

(** The code of [read] after its loop. *)
Definition read_backing (fuel : nat) (h : heap) (m_impl : nat) (key : string)
  : result (option key_value * heap) :=
  n ← get h m_impl;
  match backing_data_store n with
  | Some b =>
      ds ← deref (stores h !! b);
      match ds_read ds key with
      | Some kv => h ← cache_in fuel h m_impl kv; Ok (Some kv, h)
      | None => Ok (None, h)
      end
  | None => Ok (None, h)
  end.

(** The loop of [read]; [cur] is the local variable [parent]. *)
Fixpoint read_loop (fuel0 fuel : nat) (h : heap) (m_impl : nat) (key : string)
    (cur : option nat) : result (option key_value * heap) :=
  match cur with
  | None => read_backing fuel0 h m_impl key
  | Some q =>
      match fuel with
      | 0 => OutOfFuel
      | S f =>
          n ← get h q;
          if decide (key ∈ deleted_keys n) then Ok (None, h)
          else
            match ds_read (cache n) key with
            | Some kv =>
                if decide (q ≠ m_impl)
                then h ← cache_in fuel0 h m_impl kv; Ok (Some kv, h)
                else Ok (Some kv, h)
            | None => read_loop fuel0 f h m_impl key (parent n)
            end
      end
  end.

(** [session::read(const shared_bytes&)]; [None] is [key_value::invalid]. *)
Definition read (fuel : nat) (h : heap) (s : option nat) (key : string)
  : result (option key_value * heap) :=
  match s with
  | None => Ok (None, h)
  | Some m_impl => read_loop fuel fuel h m_impl key (Some m_impl)
  end.

(** [session::write(key_value)]. *)
Definition write (fuel : nat) (h : heap) (s : option nat) (kv : key_value) : result heap :=
  match s with
  | None => Ok h
  | Some m_impl =>
      let key := kv_key kv in
      h ← modify m_impl (λ n, set_updated ({[key]} ∪ updated_keys n) n) h;
      h ← modify m_impl (λ n, set_deleted (deleted_keys n ∖ {[key]}) n) h;
      h ← modify m_impl (λ n, set_cache (ds_write (cache n) kv) n) h;
      update_iterator_cache fuel h m_impl key write_params
  end.

(** The loop of [contains]. *)
Fixpoint contains_loop (fuel0 fuel : nat) (h : heap) (m_impl : nat) (key : string)
    (cur : option nat) : result (bool * heap) :=
  match cur with
  | None =>
      n ← get h m_impl;
      ds ← backing h n;
      Ok (ds_contains ds key, h)
  | Some q =>
      match fuel with
      | 0 => OutOfFuel
      | S f =>
          n ← get h q;
          if decide (key ∈ deleted_keys n) then Ok (false, h)
          else if ds_contains (cache n) key
          then h ← update_iterator_cache fuel0 h m_impl key read_params; Ok (true, h)
          else contains_loop fuel0 f h m_impl key (parent n)
      end
  end.

(** [session::contains]. *)
Definition contains (fuel : nat) (h : heap) (s : option nat) (key : string)
  : result (bool * heap) :=
  match s with
  | None => Ok (false, h)
  | Some m_impl => contains_loop fuel fuel h m_impl key (Some m_impl)
  end.

(** [session::erase(const shared_bytes&)]. *)
Definition erase (fuel : nat) (h : heap) (s : option nat) (key : string) : result heap :=
  match s with
  | None => Ok h
  | Some m_impl =>
      h ← modify m_impl (λ n, set_deleted ({[key]} ∪ deleted_keys n) n) h;
      h ← modify m_impl (λ n, set_updated (updated_keys n ∖ {[key]}) n) h;
      h ← modify m_impl (λ n, set_cache (ds_erase (cache n) key) n) h;
      update_iterator_cache fuel h m_impl key erase_params
  end.

(** The inner loop of the batch [read], from the values [false] of [found]
    and [deleted]: the key/value found, if any, and the local variable
    [deleted] when the loop ends. *)
Fixpoint read_batch_walk (fuel0 fuel : nat) (h : heap) (m_impl : nat) (key : string)
    (cur : option nat) : result (option key_value * bool * heap) :=
  match cur with
  | None => Ok (None, false, h)
  | Some q =>
      match fuel with
      | 0 => OutOfFuel
      | S f =>
          n ← get h q;
          if decide (key ∈ deleted_keys n) then Ok (None, true, h)
          else
            match ds_read (cache n) key with
            | Some kv =>
                if decide (q ≠ m_impl)
                then h ← cache_in fuel0 h m_impl kv; Ok (Some kv, false, h)
                else Ok (Some kv, false, h)
            | None => read_batch_walk fuel0 f h m_impl key (parent n)
            end
      end
  end.

(** The outer loop of the batch [read] over the keys; it does not look at
    [deleted], only at [found]. *)
Fixpoint read_batch_keys (fuel : nat) (h : heap) (m_impl : nat) (keys : list string)
    (kvs : list key_value) (not_found : gset string)
  : result (list key_value * gset string * heap) :=
  match keys with
  | [] => Ok (kvs, not_found, h)
  | key :: keys' =>
      '(found, deleted, h) ← read_batch_walk fuel fuel h m_impl key (Some m_impl);
      match found : option key_value with
      | Some kv => read_batch_keys fuel h m_impl keys' (kvs ++ [kv]) not_found
      | None => read_batch_keys fuel h m_impl keys' kvs ({[key]} ∪ not_found)
      end
  end.

(** [session::read(const Iterable&)]: the key/values found and the keys not
    found. *)
Definition read_batch (fuel : nat) (h : heap) (s : option nat) (keys : list string)
  : result (list key_value * gset string * heap) :=
  match s with
  | None => Ok ([], ∅, h)
  | Some m_impl =>
      '(kvs, not_found, h) ← read_batch_keys fuel h m_impl keys [] ∅;
      n ← get h m_impl;
      match backing_data_store n with
      | Some b =>
          ds ← deref (stores h !! b);
          let '(found, missing) := ds_read_batch ds (set_keys not_found) in
          h ← (if bool_decide (found ≠ [])
               then modify m_impl (λ n, set_cache (ds_write_batch (cache n) found) n) h
               else Ok h);
          Ok (kvs ++ found, missing, h)
      | None => Ok (kvs, not_found, h)
      end
  end.

(** [session::write(const Iterable&)]. *)
Fixpoint write_each (fuel : nat) (h : heap) (s : option nat) (key_values : list key_value)
  : result heap :=
  match key_values with
  | [] => Ok h
  | kv :: rest => h ← write fuel h s kv; write_each fuel h s rest
  end.

Definition write_batch (fuel : nat) (h : heap) (s : option nat) (key_values : list key_value)
  : result heap :=
  match s with
  | None => Ok h
  | Some _ => write_each fuel h s key_values
  end.

(** [session::erase(const Iterable&)]. *)
Fixpoint erase_each (fuel : nat) (h : heap) (s : option nat) (keys : list string)
  : result heap :=
  match keys with
  | [] => Ok h
  | key :: rest => h ← erase fuel h s key; erase_each fuel h s rest
  end.

Definition erase_batch (fuel : nat) (h : heap) (s : option nat) (keys : list string)
  : result heap :=
  match s with
  | None => Ok h
  | Some _ => erase_each fuel h s keys
  end.

(** The inner loop of [write_to]: the key/value appended to [results] for
    [key], if any. *)
Fixpoint write_to_walk (fuel : nat) (h : heap) (key : string) (cur : option nat)
  : result (option key_value) :=
  match cur with
  | None => Ok None
  | Some q =>
      match fuel with
      | 0 => OutOfFuel
      | S f =>
          n ← get h q;
          if decide (key ∈ deleted_keys n) then Ok None
          else
            match ds_read (cache n) key with
            | None => write_to_walk f h key (parent n)
            | Some kv => Ok (Some (make_kv (kv_key kv) (kv_value kv)))
            end
      end
  end.

Fixpoint write_to_results (fuel : nat) (h : heap) (m_impl : nat) (keys : list string)
  : result (list key_value) :=
  match keys with
  | [] => Ok []
  | key :: keys' =>
      r ← write_to_walk fuel h key (Some m_impl);
      rest ← write_to_results fuel h m_impl keys';
      Ok (match r : option key_value with Some kv => kv :: rest | None => rest end)
  end.

(** [session::write_to], for a destination [ds] that is a data store: the
    destination after the call. *)
Definition write_to (fuel : nat) (h : heap) (s : option nat) (ds : gmap string string)
    (keys : list string) : result (gmap string string) :=
  match s with
  | None => Ok ds
  | Some m_impl =>
      results ← write_to_results fuel h m_impl keys;
      Ok (ds_write_batch ds results)
  end.

(** ** Commit *)

(** [session_impl::commit].  The keys of the unordered sets are visited in
    key order. *)
Definition impl_commit (fuel : nat) (h : heap) (p : nat) : result heap :=
  n ← get h p;
  if bool_decide (parent n = None) && bool_decide (backing_data_store n = None) then Ok h
  else if bool_decide (updated_keys n = ∅) && bool_decide (deleted_keys n = ∅) then Ok h
  else
    match parent n with
    | Some q =>
        h ← erase_batch fuel h (Some q) (set_keys (deleted_keys n));
        n ← get h p;
        h ← write_batch fuel h (Some q) (ds_entries (cache n) (set_keys (updated_keys n)));
        modify p clear_impl h
    | None =>
        b ← deref (backing_data_store n);
        ds ← deref (stores h !! b);
        let ds := ds_erase_batch ds (set_keys (deleted_keys n)) in
        let ds := ds_write_batch ds (ds_entries (cache n) (set_keys (updated_keys n))) in
        modify p clear_impl (Heap (impls h) (<[b := ds]> (stores h)))
    end.

Definition commit (fuel : nat) (h : heap) (s : option nat) : result heap :=
  match s with
  | None => Ok h
  | Some p => impl_commit fuel h p
  end.

(** ** Attach and detach *)

(** [session_impl::prime_cache]. *)
Fixpoint prime_cache (fuel : nat) (h : heap) (p : nat) : result heap :=
  match fuel with
  | 0 => OutOfFuel
  | S f =>
      h ← modify p (set_iterator_cache ∅) h;
      h ← modify p (λ n, set_cache (filter (λ kv, kv.1 ∈ updated_keys n) (cache n)) n) h;
      n ← get h p;
      match lock h (child n) with
      | Some c => prime_cache f h c
      | None => Ok h
      end
  end.

(** [session::detach]. *)
Definition detach (h : heap) (s : option nat) : result (option nat * heap) :=
  match s with
  | None => Ok (invalid, h)
  | Some m_impl =>
      n ← get h m_impl;
      let current_child := lock h (child n) in
      h ← match current_child with
          | Some c => modify c (λ n, set_backing None (set_parent None n)) h
          | None => Ok h
          end;
      h ← modify m_impl (set_child None) h;
      Ok (current_child, h)
  end.

(** [session::attach]. *)
Definition attach (fuel : nat) (h : heap) (s : option nat) (child_ : option nat)
  : result (option nat * heap) :=
  match s with
  | None => Ok (invalid, h)
  | Some m_impl =>
      '(current_child, h) ← detach h s;
      c ← deref child_;
      h ← modify c (set_parent (Some m_impl)) h;
      n ← get h m_impl;
      h ← modify c (set_backing (backing_data_store n)) h;
      h ← modify m_impl (set_child (Some c)) h;
      h ← prime_cache fuel h c;
      Ok (current_child, h)
  end.

(** ** Iterators of a session *)

Definition session_begin (fuel : nat) (h : heap) (s : option nat) :=
  make_iterator_ fuel h s ds_begin bytes_less move_next false.
Definition session_end (fuel : nat) (h : heap) (s : option nat) :=
  make_iterator_ fuel h s ds_end bytes_greater move_to_end false.
Definition session_find (fuel : nat) (h : heap) (s : option nat) (key : string) :=
  make_iterator_ fuel h s (λ ds, ds_find ds key) (λ _ _, true) move_to_end false.
Definition session_lower_bound (fuel : nat) (h : heap) (s : option nat) (key : string) :=
  make_iterator_ fuel h s (λ ds, ds_lower_bound ds key) bytes_less move_next false.
Definition session_upper_bound (fuel : nat) (h : heap) (s : option nat) (key : string) :=
  make_iterator_ fuel h s (λ ds, ds_upper_bound ds key) bytes_less move_next false.

(** [++it] and [--it] on a position of the iterator cache; stepping past
    [end()] or before [begin()] is undefined. *)
Definition ic_incr (ic : gmap string iterator_state) (it : option string)
  : result (option string) :=
  k ← deref it; Ok (head (ds_upper_bound ic k)).

Definition ic_decr (ic : gmap string iterator_state) (it : option string)
  : result (option string) :=
  let before :=
    match it with
    | Some k => filter (λ x, String.ltb x k = true) (sorted_keys ic)
    | None => sorted_keys ic
    end in
  Some <$> deref (last before).

(** [it->second] for a position of [s]'s iterator cache. *)
Definition entry_at (h : heap) (s : nat) (it : option string) : result iterator_state :=
  n ← get h s;
  k ← deref it;
  deref (iterator_cache n !! k).

(** [session_iterator::move_]. *)
Fixpoint move_ (fuel0 fuel : nat) (h : heap) (it : session_iterator)
    (test : heap → nat → option string → result bool)
    (move : gmap string iterator_state → option string → result (option string))
  : result (session_iterator * heap) :=
  match fuel with
  | 0 => OutOfFuel
  | S f =>
      s ← deref (m_active_session it);
      t ← test h s (m_active_iterator it);
      r ← (if (t : bool) then Ok (true, h)
           else
             k ← deref (m_active_iterator it);
             h ← update_iterator_cache fuel0 h s k read_params;
             t ← test h s (m_active_iterator it);
             Ok (t, h));
      let '(t, h) := r : bool * heap in
      if t then
        n ← get h s;
        pos ← move (iterator_cache n) (m_active_iterator it);
        st ← entry_at h s pos;
        if negb (deleted st) || bool_decide (pos = None)
        then Ok (SessionIterator pos (m_active_session it), h)
        else move_ fuel0 f h (SessionIterator pos (m_active_session it)) test move
      else Ok (SessionIterator None (m_active_session it), h)
  end.

(** [session_iterator::move_next_]. *)
Definition move_next_ (fuel : nat) (h : heap) (it : session_iterator)
  : result (session_iterator * heap) :=
  let test h s pos := next_in_cache <$> entry_at h s pos in
  '(it, h) ← move_ fuel fuel h it test ic_incr;
  s ← deref (m_active_session it);
  n ← get h s;
  if bool_decide (m_active_iterator it = None)
  then Ok (SessionIterator (head (sorted_keys (iterator_cache n))) (m_active_session it), h)
  else Ok (it, h).

(** [session_iterator::move_previous_]. *)
Definition move_previous_ (fuel : nat) (h : heap) (it : session_iterator)
  : result (session_iterator * heap) :=
  let test h s pos :=
    match pos with
    | Some _ => previous_in_cache <$> entry_at h s pos
    | None => Ok true
    end in
  s ← deref (m_active_session it);
  n ← get h s;
  let begin_ := head (sorted_keys (iterator_cache n)) in
  it ← (if bool_decide (m_active_iterator it = begin_)
        then
          if bool_decide (None ≠ begin_)
          then pos ← ic_decr (iterator_cache n) None;
               Ok (SessionIterator pos (m_active_session it))
          else Ok (SessionIterator None (m_active_session it))
        else Ok it);
  move_ fuel fuel h it test ic_decr.

(** [operator*] of a session iterator. *)
Definition iterator_deref (fuel : nat) (h : heap) (it : session_iterator)
  : result (option key_value * heap) :=
  s ← deref (m_active_session it);
  _ ← get h s;
  match m_active_iterator it with
  | None => Ok (None, h)
  | Some k => read fuel h (Some s) k
  end.

(** ** Chains of sessions and the merged view *)

(** [ancestry h p l]: [l] lists [p] and its ancestors, with their
    implementations, from [p] up to the head of the chain. *)
Inductive ancestry (h : heap) : nat → list (nat * session_impl) → Prop :=
  | ancestry_head p n :
      impls h !! p = Some n → parent n = None → ancestry h p [(p, n)]
  | ancestry_step p n q l :
      impls h !! p = Some n → parent n = Some q → ancestry h q l →
      ancestry h p ((p, n) :: l).

(** [child_chain h c l]: following the (locked) [child] pointers from [c]
    visits exactly the sessions [l] and then ends. *)
Inductive child_chain (h : heap) : option nat → list nat → Prop :=
  | child_chain_nil : child_chain h None []
  | child_chain_cons q n l :
      impls h !! q = Some n → child_chain h (lock h (child n)) l →
      child_chain h (Some q) (q :: l).

Definition chain_head (l : list (nat * session_impl)) : option nat := last (l.*1).

(** The sessions on which [make_iterator_] is defined within [fuel] steps:
    a finite chain above [p], a finite chain of children below its head, and
    a backing store behind [p]. *)
Definition iterable (fuel : nat) (h : heap) (p : nat) : Prop :=
  ∃ l r cl n b ds,
    ancestry h p l ∧ chain_head l = Some r ∧ child_chain h (Some r) cl ∧
    length l ≤ fuel ∧ length cl ≤ fuel ∧
    impls h !! p = Some n ∧ backing_data_store n = Some b ∧ stores h !! b = Some ds.

(** A layer without parent and without backing store, as [detach], [undo]
    or a second nesting on its parent leave it. *)
Definition free_standing (h : heap) (p : nat) : Prop :=
  ∃ n, impls h !! p = Some n ∧ parent n = None ∧ backing_data_store n = None.

(** The backing store behind an implementation, if any. *)
Definition base_store (h : heap) (n : session_impl) : option (gmap string string) :=
  backing_data_store n ≫= (stores h !!.).

(** The merged view of section 4.3 of the specification, for the layers [l]
    (nearest first) over the store [base]: a tombstone hides the key, else
    the layer's own value wins, else the view of the layer above it. *)
Fixpoint merged_view (l : list (nat * session_impl)) (base : option (gmap string string))
    (k : string) : option string :=
  match l with
  | [] => base ≫= (.!! k)
  | (_, c) :: above =>
      if decide (k ∈ deleted_keys c) then None
      else match cache c !! k with
           | Some v => Some v
           | None => merged_view above base k
           end
  end.

(** [h'] is [h] with a new iterator cache, at least as large, in [p]. *)
Definition ic_update (p : nat) (h h' : heap) : Prop :=
  ∃ n ic, impls h !! p = Some n ∧ dom (iterator_cache n) ⊆ dom ic ∧
          h' = put p (set_iterator_cache ic n) h.

(** The links of an implementation. *)
Definition links (n : session_impl) : option nat * option nat * option nat :=
  (parent n, child n, backing_data_store n).

(** Two heaps with the same sessions, links and stores allocated. *)
Definition same_shape (h h' : heap) : Prop :=
  (∀ q, links <$> impls h' !! q = links <$> impls h !! q) ∧
  (∀ b, is_Some (stores h' !! b) ↔ is_Some (stores h !! b)).

(** [key] has an entry in the iterator cache of [p]. *)
Definition has_entry (p : nat) (key : string) (h : heap) : Prop :=
  ∃ n, impls h !! p = Some n ∧ is_Some (iterator_cache n !! key).

(** [h'] is [h] after the read-through caching of [k ↦ v] in [p], whose
    implementation was [n]: the value was written into the overlay and then
    [update_iterator_cache] ran for the key, which left the key with an
    entry in the (possibly larger) iterator cache and changed nothing else. *)
Definition cached_in (fuel : nat) (p : nat) (n : session_impl) (k v : string)
    (h h' : heap) : Prop :=
  update_iterator_cache fuel (put p (set_cache (<[k := v]> (cache n)) n) h) p k
    (IteratorCacheParams false true false false) = Ok h' ∧
  ∃ ic, h' = put p (set_iterator_cache ic (set_cache (<[k := v]> (cache n)) n)) h ∧
        dom (iterator_cache n) ⊆ dom ic ∧ is_Some (ic !! k).

(** ** Example heaps *)

(** A root session at 1 over the store at 1, with a session nested on it at
    2.  The root wrote ["a"]; ["b"] is in the store only; the nested
    session erased ["c"], which the root wrote as well. *)
Definition ex_root : session_impl :=
  SessionImpl None (Some 2) (Some 1) {[ "a" := "1"; "c" := "3" ]} ∅ {[ "a"; "c" ]} ∅.
Definition ex_tip : session_impl :=
  SessionImpl (Some 1) None (Some 1) ∅ ∅ ∅ {[ "c" ]}.
Definition ex_heap : heap :=
  Heap {[ 1 := ex_root; 2 := ex_tip ]} {[ 1 := {[ "b" := "2" ]} ]}.

(** ** The effect of [write] and [erase] on a layer, iterator cache apart *)

Definition written (kv : key_value) (n : session_impl) : session_impl :=
  set_cache (ds_write (cache n) kv)
    (set_deleted (deleted_keys n ∖ {[kv_key kv]})
       (set_updated ({[kv_key kv]} ∪ updated_keys n) n)).

Definition erased (key : string) (n : session_impl) : session_impl :=
  set_cache (ds_erase (cache n) key)
    (set_updated (updated_keys n ∖ {[key]})
       (set_deleted ({[key]} ∪ deleted_keys n) n)).

(** The keys a layer sends to its destination as writes on commit: the
    updated keys its overlay holds. *)
Definition authored (n : session_impl) : gset string :=
  updated_keys n ∩ dom (cache n).

(** A layer whose local state is empty. *)
Definition emptied (n : session_impl) : Prop :=
  deleted_keys n = ∅ ∧ updated_keys n = ∅ ∧ cache n = ∅ ∧ iterator_cache n = ∅.

(** ** Scenarios

    Heaps reached from [initial_heap] through the public operations. *)

(** A root session over the store [ds], with an empty overlay. *)
Definition root_over (ds : gmap string string) : option nat * heap :=
  new_session initial_heap ds ∅.

(** A root over [{"a" ↦ "1"}] on which ["a"] was erased, and the batch read
    of ["a"] from it: the key/values found, the keys not found, and the
    session's overlay entry for ["a"] afterwards. *)
Definition erased_then_batch_read
  : result (list key_value * gset string * option string) :=
  let '(s0, h) := root_over {[ "a" := "1" ]} in
  h ← erase 5 h s0 "a";
  '(kvs, not_found, h) ← read_batch 5 h s0 ["a"];
  p ← deref s0;
  n ← get h p;
  Ok (kvs, not_found, cache n !! "a").

(** A root over [{"a" ↦ "1"}] and its single-key read of ["a"] after the
    same erase. *)
Definition erased_then_read : result (option key_value) :=
  let '(s0, h) := root_over {[ "a" := "1" ]} in
  h ← erase 5 h s0 "a";
  fst <$> read 5 h s0 "a".

(** [bounds("b")] on a root over [{"a" ↦ "1"}]. *)
Definition bounds_above_store : result (option string * option string) :=
  let '(s0, h) := root_over {[ "a" := "1" ]} in
  p ← deref s0;
  fst <$> bounds 5 h p "b".

(** [bounds("b")] on a root over [{"a" ↦ "1"; "c" ↦ "3"}]. *)
Definition bounds_inside_store : result (option string * option string) :=
  let '(s0, h) := root_over {[ "a" := "1"; "c" := "3" ]} in
  p ← deref s0;
  fst <$> bounds 5 h p "b".

(** [bounds("m")] on a root over [{"a" ↦ "1"; "z" ↦ "9"}] that was built
    with the overlay [{"c" ↦ "3"; "y" ↦ "8"}]. *)
Definition bounds_across_levels : result (option string * option string) :=
  let '(s0, h) := new_session initial_heap {[ "a" := "1"; "z" := "9" ]}
                    {[ "c" := "3"; "y" := "8" ]} in
  p ← deref s0;
  fst <$> bounds 5 h p "m".

(** A root over an empty store that wrote ["a"]: incrementing [end()]. *)
Definition increment_end : result session_iterator :=
  let '(s0, h) := root_over ∅ in
  h ← write 5 h s0 (make_kv "a" "1");
  '(it, h) ← session_end 5 h s0;
  fst <$> move_next_ 5 h it.

(** The same session: [begin()], and [begin()] incremented. *)
Definition increment_last : result (session_iterator * session_iterator) :=
  let '(s0, h) := root_over ∅ in
  h ← write 5 h s0 (make_kv "a" "1");
  '(first, h) ← session_begin 5 h s0;
  '(it, h) ← move_next_ 5 h first;
  Ok (first, it).

(** A session nested on a root and undone, then asked for a key that no
    layer holds or hides. *)
Definition contains_after_undo : result bool :=
  let '(s0, h) := root_over {[ "a" := "1" ]} in
  '(s1, h) ← make_session h s0;
  h ← undo h s1;
  fst <$> contains 5 h s1 "b".

(** The same with [read]. *)
Definition read_after_undo : result (option key_value) :=
  let '(s0, h) := root_over {[ "a" := "1" ]} in
  '(s1, h) ← make_session h s0;
  h ← undo h s1;
  fst <$> read 5 h s1 "b".

(** A root that had a first session nested on it, which wrote ["a"], and
    then a second one, which unlinks the first and takes its backing store
    away; a session nested on the first one then reads ["a"]. *)
Definition read_below_storeless : result (option key_value) :=
  let '(s0, h) := root_over ∅ in
  '(s1, h) ← make_session h s0;
  h ← write 5 h s1 (make_kv "a" "1");
  '(_, h) ← make_session h s0;
  '(s3, h) ← make_session h s1;
  fst <$> read 5 h s3 "a".

(** A root over [{"b" ↦ "2"}] that read ["b"], then committed: the heap
    before and after the commit. *)
Definition read_then_commit : result (heap * heap) :=
  let '(s0, h) := root_over {[ "b" := "2" ]} in
  '(_, h1) ← read 5 h s0 "b";
  h2 ← commit 5 h1 s0;
  Ok (h1, h2).

(** [write_to] an empty store from a root over [{"a" ↦ "1"}] for the key
    ["a"], and the read of ["a"] from the same session. *)
Definition write_to_backing_only : result (gmap string string * option key_value) :=
  let '(s0, h) := root_over {[ "a" := "1" ]} in
  ds ← write_to 5 h s0 ∅ ["a"];
  '(kv, _) ← read 5 h s0 "a";
  Ok (ds, kv).


(** ** Sequences of public operations *)

Inductive operation :=
  | op_write (s : option nat) (kv : key_value)
  | op_erase (s : option nat) (key : string)
  | op_write_batch (s : option nat) (key_values : list key_value)
  | op_erase_batch (s : option nat) (keys : list string)
  | op_read (s : option nat) (key : string)
  | op_read_batch (s : option nat) (keys : list string)
  | op_contains (s : option nat) (key : string)
  | op_begin (s : option nat)
  | op_end (s : option nat)
  | op_find (s : option nat) (key : string)
  | op_lower_bound (s : option nat) (key : string)
  | op_upper_bound (s : option nat) (key : string)
  | op_commit (s : option nat)
  | op_clear (s : option nat)
  | op_undo (s : option nat)
  | op_new_session (ds cds : gmap string string)
  | op_make_session (s : option nat)
  | op_attach (s child_ : option nat)
  | op_detach (s : option nat).

(** The heap after an operation; what the operation returns is dropped. *)
Definition run (fuel : nat) (h : heap) (o : operation) : result heap :=
  match o with
  | op_write s kv => write fuel h s kv
  | op_erase s key => erase fuel h s key
  | op_write_batch s kvs => write_batch fuel h s kvs
  | op_erase_batch s keys => erase_batch fuel h s keys
  | op_read s key => snd <$> read fuel h s key
  | op_read_batch s keys => snd <$> read_batch fuel h s keys
  | op_contains s key => snd <$> contains fuel h s key
  | op_begin s => snd <$> session_begin fuel h s
  | op_end s => snd <$> session_end fuel h s
  | op_find s key => snd <$> session_find fuel h s key
  | op_lower_bound s key => snd <$> session_lower_bound fuel h s key
  | op_upper_bound s key => snd <$> session_upper_bound fuel h s key
  | op_commit s => commit fuel h s
  | op_clear s => clear h s
  | op_undo s => undo h s
  | op_new_session ds cds => Ok (new_session h ds cds).2
  | op_make_session s => snd <$> make_session h s
  | op_attach s c => snd <$> attach fuel h s c
  | op_detach s => snd <$> detach h s
  end.

Fixpoint run_all (fuel : nat) (h : heap) (os : list operation) : result heap :=
  match os with
  | [] => Ok h
  | o :: os' => h ← run fuel h o; run_all fuel h os'
  end.

(** Invariant 2 of the data model: in every layer the updated and the
    deleted keys are disjoint. *)
Definition disjoint_keys (h : heap) : Prop :=
  ∀ p n, impls h !! p = Some n → updated_keys n ## deleted_keys n.


(** What the merged view through a layer depends on. *)
Definition layer_state (n : session_impl)
  : option nat * option nat * gmap string string * gset string * gset string :=
  (parent n, backing_data_store n, cache n, updated_keys n, deleted_keys n).


(** The heaps [read] can return: the overlay and the iterator cache of the
    session may have changed, nothing else. *)
Definition reads_into (p : nat) (h h' : heap) : Prop :=
  h' = h ∨ ∃ n c ic, impls h !! p = Some n ∧
                     h' = put p (set_iterator_cache ic (set_cache c n)) h.


(** ** Further notions for the verification *)

(** What the destination of a commit holds for a key afterwards, given what
    it held before. *)
Definition committed_over (n : session_impl) (before : option string) (k : string)
  : option string :=
  if decide (k ∈ authored n) then cache n !! k
  else if decide (k ∈ deleted_keys n) then None else before.

(** A property of the local state of every live layer. *)
Definition every_layer (inv : session_impl → Prop) (h : heap) : Prop :=
  ∀ p n, impls h !! p = Some n → inv n.

(** Every updated key of the layer has an entry in its overlay. *)
Definition covered (n : session_impl) : Prop := updated_keys n ⊆ dom (cache n).

(** No tombstoned key of the layer has an entry in its overlay. *)
Definition hidden (n : session_impl) : Prop := deleted_keys n ## dom (cache n).

Definition is_read_batch (o : operation) : bool :=
  match o with
  | op_read_batch _ _ => true
  | _ => false
  end.

(** [h'] is [h] after the session [p] cached values it read: its overlay
    has the old keys at least, its iterator cache may differ, and its other
    fields and all other objects are the same. *)
Definition grows_into (p : nat) (h h' : heap) : Prop :=
  h' = h ∨ ∃ n c ic, impls h !! p = Some n ∧ dom (cache n) ⊆ dom c ∧
                     h' = put p (set_iterator_cache ic (set_cache c n)) h.

(** ** Import and export between sessions and stores *)

(** Modelled from the spec: the [write_to] of a data store hands its
    entries for the keys to the batch [write] of the destination (see
    [ds_entries]).  [session::read_from(ds, keys)] calls [ds.write_to] with
    the session as the destination; this is the call for a source [ds] that
    is a data store. *)
Definition read_from (fuel : nat) (h : heap) (s : option nat) (ds : gmap string string)
    (keys : list string) : result heap :=
  match s with
  | None => Ok h
  | Some _ => write_batch fuel h s (ds_entries ds keys)
  end.

(** [session::write_to], for a destination that is a session: the heap
    after the batch [write] of the destination. *)
Definition write_to_session (fuel : nat) (h : heap) (s : option nat) (ds : option nat)
    (keys : list string) : result heap :=
  match s with
  | None => Ok h
  | Some m_impl =>
      results ← write_to_results fuel h m_impl keys;
      write_batch fuel h ds results
  end.

(** [session::read_from], for a source that is a session. *)
Definition read_from_session (fuel : nat) (h : heap) (s : option nat) (ds : option nat)
    (keys : list string) : result heap :=
  match s with
  | None => Ok h
  | Some _ => write_to_session fuel h ds s keys
  end.

(** ** Attaching *)

(** What one step of [session_impl::prime_cache] leaves of a layer: no
    iterator cache, and of its overlay the entries of its updated keys. *)
Definition primed (n : session_impl) : session_impl :=
  set_cache (filter (λ kv, kv.1 ∈ updated_keys n) (cache n)) (set_iterator_cache ∅ n).

(** A root at 1 over the store at 1, without a child, and at 2 a session
    without parent and backing store that wrote ["d"], erased ["c"] and
    holds a read-through entry for ["a"]. *)
Definition ex_detached : heap :=
  Heap {[ 1 := SessionImpl None None (Some 1) {[ "a" := "1"; "c" := "3" ]} ∅ {[ "a"; "c" ]} ∅;
          2 := SessionImpl None None None {[ "a" := "0"; "d" := "4" ]} ∅ {[ "d" ]} {[ "c" ]} ]}
       {[ 1 := {[ "b" := "2" ]} ]}.


(** ** The marks of the iterator cache *)

(** [st'] carries on what [st] records: a neighbour that is known stays
    known, and the deleted mark is the same. *)
Definition state_kept (st st' : iterator_state) : Prop :=
  (next_in_cache st = true → next_in_cache st' = true) ∧
  (previous_in_cache st = true → previous_in_cache st' = true) ∧
  deleted st' = deleted st.

(** [h'] is [h] with a new iterator cache in [p] that carries on every
    entry of the old one. *)
Definition ic_kept (p : nat) (h h' : heap) : Prop :=
  ∃ n ic, impls h !! p = Some n ∧ h' = put p (set_iterator_cache ic n) h ∧
          ∀ k st, iterator_cache n !! k = Some st →
                  ∃ st', ic !! k = Some st' ∧ state_kept st st'.

(** The entry of [k] in the iterator cache of [p] has the deleted mark
    [b]. *)
Definition marked (p : nat) (k : string) (b : bool) (h : heap) : Prop :=
  ∃ n st, impls h !! p = Some n ∧ iterator_cache n !! k = Some st ∧ deleted st = b.

(** The operations through the session [p] that ask and do not write: its
    reads, [contains], and its iterator constructions. *)
Definition is_query (p : nat) (o : operation) : bool :=
  match o with
  | op_read s _ | op_read_batch s _ | op_contains s _
  | op_begin s | op_end s | op_find s _ | op_lower_bound s _ | op_upper_bound s _ =>
      bool_decide (s = Some p)
  | _ => false
  end.

(** ** The order of the keys *)

(** A list of keys in strictly increasing order. *)
Fixpoint increasing (l : list string) : Prop :=
  match l with
  | [] => True
  | x :: l' => Forall (λ y, String.ltb x y = true) l' ∧ increasing l'
  end.

(** ** The tip of a chain *)

(** An iterable session at the lower end of the chain of children below the
    head of its chain: it has no live child. *)
Definition tip (fuel : nat) (h : heap) (p : nat) : Prop :=
  ∃ l r cl n b ds,
    ancestry h p l ∧ chain_head l = Some r ∧ child_chain h (Some r) cl ∧ p ∈ cl ∧
    length l ≤ fuel ∧ length cl ≤ fuel ∧
    impls h !! p = Some n ∧ lock h (child n) = None ∧
    backing_data_store n = Some b ∧ stores h !! b = Some ds.

(** ** The chain is linear *)

(** Every parent link is answered by the child link of the parent: a session
    with the parent [q] is the child of [q], so no two live sessions have
    the same parent. *)
Definition linear (h : heap) : Prop :=
  ∀ x n q, impls h !! x = Some n → parent n = Some q →
           ∃ m, impls h !! q = Some m ∧ child m = Some x.

(** The operations that change links. *)
Definition relinks (o : operation) : bool :=
  match o with
  | op_undo _ | op_new_session _ _ | op_make_session _ | op_attach _ _ | op_detach _ => true
  | _ => false
  end.

(** ** Around a detached layer *)

(** A root with a nested session that wrote ["a"] and was then detached
    from the root, which takes its parent and its backing store away; and a
    session nested on the detached one. *)
Definition nested_on_detached : result (option nat * heap) :=
  let '(s0, h) := root_over ∅ in
  '(s1, h) ← make_session h s0;
  h ← write 5 h s1 (make_kv "a" "1");
  '(_, h) ← detach h s0;
  make_session h s1.

(** A chain of three sessions whose lowest one wrote ["a"]; the middle one
    is then detached from the root: the lowest session, the heap, and what
    the commit of the lowest session gives. *)
Definition commit_below_detached : result (option nat * heap * result heap) :=
  let '(s0, h) := root_over ∅ in
  '(s1, h) ← make_session h s0;
  '(s2, h) ← make_session h s1;
  h ← write 5 h s2 (make_kv "a" "1");
  '(_, h) ← detach h s0;
  Ok (s2, h, commit 5 h s2).

(** * Verification *)

(** ** The result monad *)

Lemma bind_Ok {A B} (m : result A) (f : A → result B) (b : B) :
  m ≫= f = Ok b ↔ ∃ a, m = Ok a ∧ f a = Ok b.
Proof.
  destruct m; simpl; split; try (intros [a [? ?]]); try discriminate; eauto.
  intros [a' [Ha ?]]. by injection Ha as ->.
Qed.

Lemma fmap_Ok {A B} (f : A → B) (m : result A) (b : B) :
  f <$> m = Ok b ↔ ∃ a, m = Ok a ∧ b = f a.
Proof.
  destruct m; simpl; split.
  - intros [= <-]. eauto.
  - intros [a' [[= <-] ->]]. done.
  - discriminate.
  - intros [a' [? ?]]. discriminate.
  - discriminate.
  - intros [a' [? ?]]. discriminate.
Qed.

Lemma deref_Ok {A} (o : option A) (a : A) : deref o = Ok a ↔ o = Some a.
Proof. destruct o; simpl; split; congruence. Qed.

(** Splits a hypothesis [m ≫= f = Ok b] into its two steps. *)
Tactic Notation "inv_bind" hyp(H) "as" simple_intropattern(a) ident(Ha) :=
  apply bind_Ok in H as [a [Ha H]].

(** ** Heap updates *)

Lemma get_Ok h p n : get h p = Ok n ↔ impls h !! p = Some n.
Proof. apply deref_Ok. Qed.

Lemma get_put_eq h p n : get (put p n h) p = Ok n.
Proof. unfold get, put; simpl. by rewrite lookup_insert_eq. Qed.

Lemma lookup_put_eq h p n : impls (put p n h) !! p = Some n.
Proof. apply lookup_insert_eq. Qed.

Lemma lookup_put_ne h p q n : p ≠ q → impls (put p n h) !! q = impls h !! q.
Proof. intros. by apply lookup_insert_ne. Qed.

Lemma put_put h p n m : put p n (put p m h) = put p n h.
Proof. unfold put; simpl. by rewrite insert_insert_eq. Qed.

Lemma put_id h p n : impls h !! p = Some n → put p n h = h.
Proof. intros H. destruct h as [i s]; unfold put; simpl in *. by rewrite insert_id. Qed.

Lemma stores_put h p n : stores (put p n h) = stores h.
Proof. done. Qed.

Lemma modify_Ok h p f h' :
  modify p f h = Ok h' ↔ ∃ n, impls h !! p = Some n ∧ h' = put p (f n) h.
Proof.
  unfold modify. rewrite bind_Ok. setoid_rewrite get_Ok.
  split; intros [n [? H]]; exists n; split; auto; congruence.
Qed.

Lemma modify_lookup h p f n : impls h !! p = Some n → modify p f h = Ok (put p (f n) h).
Proof. intros H. unfold modify, get. by rewrite H. Qed.

(** ** Shapes and iterator-cache updates *)

Lemma same_shape_refl h : same_shape h h.
Proof. by split. Qed.

Lemma same_shape_trans h1 h2 h3 : same_shape h1 h2 → same_shape h2 h3 → same_shape h1 h3.
Proof.
  intros [A1 B1] [A2 B2]. split; intros x.
  - by rewrite A2, A1.
  - by rewrite B2, B1.
Qed.

Lemma same_shape_put h p n f :
  impls h !! p = Some n → links (f n) = links n → same_shape h (put p (f n) h).
Proof.
  intros Hn Hl. split; [|done]. intros q. destruct (decide (p = q)) as [->|Hne].
  - rewrite lookup_put_eq, Hn. simpl. by rewrite Hl.
  - by rewrite lookup_put_ne.
Qed.

Lemma same_shape_lookup h h' q n :
  same_shape h h' → impls h !! q = Some n →
  ∃ n', impls h' !! q = Some n' ∧ links n' = links n.
Proof.
  intros [A _] Hn. specialize (A q). rewrite Hn in A.
  destruct (impls h' !! q) as [n'|]; simpl in A; [|done].
  exists n'. split; [done|congruence].
Qed.

Lemma same_shape_sym h h' : same_shape h h' → same_shape h' h.
Proof. intros [A B]. split; intros x; by rewrite ?A, ?B. Qed.

Lemma same_shape_lock h h' w : same_shape h h' → lock h' w = lock h w.
Proof.
  intros [A _]. destruct w as [c|]; [|done]. simpl. specialize (A c).
  destruct (impls h' !! c), (impls h !! c); simpl in A; done.
Qed.

Lemma ic_update_shape p h h' : ic_update p h h' → same_shape h h'.
Proof.
  intros (n & ic & Hn & _ & ->). by apply (same_shape_put h p n (set_iterator_cache ic)).
Qed.

Lemma ic_update_refl p h n : impls h !! p = Some n → ic_update p h h.
Proof.
  intros Hn. exists n, (iterator_cache n). split_and!; [done|done|].
  symmetry. apply put_id. by destruct n.
Qed.

Lemma ic_update_trans p h1 h2 h3 : ic_update p h1 h2 → ic_update p h2 h3 → ic_update p h1 h3.
Proof.
  intros (n & ic & Hn & Hd & ->) (n' & ic' & Hn' & Hd' & ->).
  rewrite lookup_put_eq in Hn'. injection Hn' as <-.
  exists n, ic'. split_and!; [done|set_solver|]. by rewrite put_put.
Qed.

Create HintDb session_frame discriminated.
#[global] Hint Resolve ic_update_trans : session_frame.

Lemma ic_update_modify p h h' (g : gmap string iterator_state → gmap string iterator_state) :
  (∀ ic, dom ic ⊆ dom (g ic)) →
  modify p (λ n, set_iterator_cache (g (iterator_cache n)) n) h = Ok h' →
  ic_update p h h'.
Proof.
  intros Hg (n & Hn & ->)%modify_Ok. exists n, (g (iterator_cache n)). by split_and!.
Qed.

Lemma try_emplace_dom k (ic : gmap string iterator_state) : dom ic ⊆ dom (try_emplace k ic).
Proof. unfold try_emplace. destruct (ic !! k); [done|]. set_solver. Qed.

Lemma try_emplace_is_Some k (ic : gmap string iterator_state) : is_Some (try_emplace k ic !! k).
Proof.
  unfold try_emplace. destruct (ic !! k) eqn:E; [by rewrite E|]. by rewrite lookup_insert_eq.
Qed.

Lemma ic_update_modify_entry p k f h h' : modify_entry p k f h = Ok h' → ic_update p h h'.
Proof.
  unfold modify_entry. intros H. inv_bind H as n Hn. inv_bind H as st Hst.
  injection H as <-. apply get_Ok in Hn.
  exists n, (<[k := f st]> (iterator_cache n)). split_and!; [done| |done].
  set_solver.
Qed.

Lemma ic_update_lookup p h h' n :
  ic_update p h h' → impls h !! p = Some n →
  ∃ ic, impls h' !! p = Some (set_iterator_cache ic n) ∧ dom (iterator_cache n) ⊆ dom ic.
Proof.
  intros (n' & ic & Hn & Hd & ->) Hn2. rewrite Hn in Hn2. injection Hn2 as ->.
  exists ic. by rewrite lookup_put_eq.
Qed.

Lemma ic_update_other p h h' q : ic_update p h h' → p ≠ q → impls h' !! q = impls h !! q.
Proof. intros (n' & ic & Hn & Hd & ->) Hne. by rewrite lookup_put_ne. Qed.

Lemma ic_update_stores p h h' : ic_update p h h' → stores h' = stores h.
Proof. by intros (n' & ic & Hn & Hd & ->). Qed.

(** ** [update_iterator_cache] changes the iterator cache only *)

Lemma position_at_session h p k it : position_at h p k = Ok it → m_active_session it = Some p.
Proof.
  unfold position_at. intros H. inv_bind H as n Hn. inv_bind H as st Hst. by injection H as <-.
Qed.

Lemma find_start_lookup fuel h p pred cmp mv r :
  find_start fuel h p pred cmp mv = Ok r → is_Some (impls h !! p).
Proof. unfold find_start. intros H. inv_bind H as n Hn. apply get_Ok in Hn. eauto. Qed.

Lemma make_iterator_prime_frame fuel h p pred cmp mv it h' :
  make_iterator_prime fuel h p pred cmp mv = Ok (it, h') →
  ic_update p h h' ∧ m_active_session it = Some p.
Proof.
  unfold make_iterator_prime. intros H. inv_bind H as [k|] Hk.
  - inv_bind H as h1 Hm. inv_bind H as it' Hit. injection H as <- <-. split.
    + eapply (ic_update_modify p h h1 (try_emplace k)); [|done]. apply try_emplace_dom.
    + by eapply position_at_session.
  - injection H as <- <-. split; [|done].
    apply find_start_lookup in Hk as [n Hn]. by eapply ic_update_refl.
Qed.

Lemma bounds_frame fuel h p key r h' : bounds fuel h p key = Ok (r, h') → ic_update p h h'.
Proof.
  unfold bounds. intros H.
  inv_bind H as [lb h1] H1. apply make_iterator_prime_frame in H1 as [U1 _].
  inv_bind H as [ub h2] H2. apply make_iterator_prime_frame in H2 as [U2 _].
  inv_bind H as [e h3] H3. apply make_iterator_prime_frame in H3 as [U3 _].
  inv_bind H as x1 X1. inv_bind H as x2 X2. inv_bind H as x3 X3. inv_bind H as x4 X4.
  injection H as _ <-. eauto with session_frame.
Qed.

Lemma ic_update_self p h h' : ic_update p h h' → ic_update p h' h'.
Proof. intros (n & ic & Hn & _ & ->). eapply ic_update_refl. apply lookup_put_eq. Qed.

(** Marking a neighbour of [key] in [p]'s iterator cache, as
    [update_iterator_cache] does for each bound. *)
Lemma mark_neighbour_frame p key f g (bound : option string) h h' :
  match bound with
  | Some b =>
      h1 ← modify p (λ n, set_iterator_cache (try_emplace b (iterator_cache n)) n) h;
      h2 ← modify_entry p b f h1;
      modify_entry p key g h2
  | None => Ok h
  end = Ok h' →
  ic_update p h h → ic_update p h h'.
Proof.
  destruct bound as [b|]; intros H U0.
  - inv_bind H as h1 H1. inv_bind H as h2 H2.
    apply (ic_update_modify p h h1 (try_emplace b)) in H1; [|apply try_emplace_dom].
    apply ic_update_modify_entry in H2, H. eauto with session_frame.
  - by injection H as <-.
Qed.

Lemma update_iterator_cache_frame_emplaced fuel h p key params h' :
  update_iterator_cache fuel h p key params = Ok h' →
  ∃ n, impls h !! p = Some n ∧
       ic_update p (put p (set_iterator_cache (try_emplace key (iterator_cache n)) n) h) h'.
Proof.
  unfold update_iterator_cache. intros H.
  inv_bind H as h0 H0. apply modify_Ok in H0 as (n & Hn & ->).
  exists n. split; [done|].
  set (h0 := put p _ h) in *.
  assert (ic_update p h0 h0) as U0 by (eapply ic_update_refl; apply lookup_put_eq).
  destruct (prime_only params); [by injection H as <-|].
  inv_bind H as h1 H1.
  assert (ic_update p h0 h1) as U1.
  { destruct (overwrite params); [by eapply ic_update_modify_entry|by injection H1 as <-]. }
  inv_bind H as n1 Hn1. inv_bind H as st Hst.
  destruct (negb (recalculate params) && next_in_cache st && previous_in_cache st).
  { by injection H as <-. }
  inv_bind H as [[lb ub] h2] Hb. apply bounds_frame in Hb.
  inv_bind H as h3 H3.
  apply mark_neighbour_frame in H3; [|by eapply ic_update_self].
  apply mark_neighbour_frame in H; [|by eapply ic_update_self].
  eauto with session_frame.
Qed.

Lemma update_iterator_cache_frame fuel h p key params h' :
  update_iterator_cache fuel h p key params = Ok h' → ic_update p h h'.
Proof.
  intros (n & Hn & U)%update_iterator_cache_frame_emplaced.
  eapply ic_update_trans; [|done].
  exists n, (try_emplace key (iterator_cache n)). split_and!; [done| |done].
  apply try_emplace_dom.
Qed.

(** After [update_iterator_cache] the key has an entry. *)
Lemma update_iterator_cache_entry fuel h p key params h' n :
  update_iterator_cache fuel h p key params = Ok h' → impls h' !! p = Some n →
  is_Some (iterator_cache n !! key).
Proof.
  intros (n0 & Hn0 & U)%update_iterator_cache_frame_emplaced Hn.
  eapply ic_update_lookup in U as (ic & Hl & Hd); [|apply lookup_put_eq].
  rewrite Hl in Hn. injection Hn as <-. simpl in *.
  apply elem_of_dom, Hd, elem_of_dom, try_emplace_is_Some.
Qed.

(** ** Chains are preserved by updates that keep the links *)

Lemma ancestry_lookup h p l :
  ancestry h p l → ∃ n l', l = (p, n) :: l' ∧ impls h !! p = Some n.
Proof. destruct 1; eauto. Qed.

Lemma ancestry_shape h h' p l :
  same_shape h h' → ancestry h p l → ∃ l', ancestry h' p l' ∧ l'.*1 = l.*1.
Proof.
  intros S A. induction A as [p n Hn Hp|p n q l Hn Hp A IH].
  - destruct (same_shape_lookup _ _ _ _ S Hn) as (n' & Hn' & Hl).
    exists [(p, n')]. split; [|done]. constructor; [done|].
    unfold links in Hl. congruence.
  - destruct IH as (l' & A' & El).
    destruct (same_shape_lookup _ _ _ _ S Hn) as (n' & Hn' & Hl).
    exists ((p, n') :: l'). split; [|by rewrite !fmap_cons, El].
    eapply ancestry_step; [done| |done]. unfold links in Hl. congruence.
Qed.

Lemma child_chain_shape h h' c l : same_shape h h' → child_chain h c l → child_chain h' c l.
Proof.
  intros S C. induction C as [|q n l Hn C IH]; [constructor|].
  destruct (same_shape_lookup _ _ _ _ S Hn) as (n' & Hn' & Hl).
  econstructor; [done|]. rewrite (same_shape_lock h h') by done.
  unfold links in Hl. replace (child n') with (child n) by congruence. done.
Qed.

Lemma iterable_shape fuel h h' p : same_shape h h' → iterable fuel h p → iterable fuel h' p.
Proof.
  intros S (l & r & cl & n & b & ds & A & Hr & C & L1 & L2 & Hn & Hb & Hs).
  destruct (ancestry_shape _ _ _ _ S A) as (l' & A' & El).
  destruct (same_shape_lookup _ _ _ _ S Hn) as (n' & Hn' & Hl).
  destruct S as [S1 S2]. destruct (proj2 (S2 b)) as [ds' Hds']; [eauto|].
  exists l', r, cl, n', b, ds'. split_and!; try done.
  - unfold chain_head in *. by rewrite El.
  - by eapply child_chain_shape.
  - rewrite <-(length_fmap fst), El, length_fmap. done.
  - unfold links in Hl. congruence.
Qed.

Lemma iterable_ic_update fuel h h' p q : ic_update q h h' → iterable fuel h p → iterable fuel h' p.
Proof. intros U. apply iterable_shape. by eapply ic_update_shape. Qed.

(** ** The search of [make_iterator_] returns *)

Lemma root_of_total fuel h p l :
  ancestry h p l → length l ≤ fuel → ∃ r, chain_head l = Some r ∧ root_of fuel h p = Ok r.
Proof.
  intros A. revert fuel. induction A as [p n Hn Hp|p n q l Hn Hp A IH]; intros fuel L.
  - destruct fuel as [|f]; [simpl in L; lia|]. exists p. split; [done|].
    simpl. unfold get. rewrite Hn. simpl. by rewrite Hp.
  - destruct fuel as [|f]; [simpl in L; lia|]. simpl in L.
    destruct (IH f) as (r & Hr & Er); [lia|]. exists r. split.
    + unfold chain_head in *. simpl. destruct (ancestry_lookup _ _ _ A) as (m & l' & -> & _).
      done.
    + simpl. unfold get. rewrite Hn. simpl. by rewrite Hp.
Qed.

Lemma deleted_walk_total fuel h m c l key res :
  child_chain h c l → length l ≤ fuel → ∃ b, deleted_walk fuel h m c key res = Ok b.
Proof.
  intros C. revert fuel res. induction C as [|q n l Hn C IH]; intros fuel res L.
  - destruct fuel; simpl; eauto.
  - destruct fuel as [|f]; [simpl in L; lia|]. simpl in *. unfold get. rewrite Hn. simpl.
    destruct (decide (q = m)); [eauto|]. apply IH. lia.
Qed.

Lemma deleted_below_total fuel h m r cl key :
  child_chain h (Some r) cl → length cl ≤ fuel → ∃ b, deleted_below fuel h m r key = Ok b.
Proof.
  intros C L. inversion C as [|q n l Hn C']; subst. unfold deleted_below, get.
  rewrite Hn. simpl. eapply deleted_walk_total; [done|]. simpl in L. lia.
Qed.

Lemma find_first_not_total fuel h m r cl mv it :
  child_chain h (Some r) cl → length cl ≤ fuel →
  ∃ res, find_first_not fuel h m r mv it = Ok res.
Proof.
  intros C L. induction it as [|k it IH]; simpl; [eauto|].
  destruct (deleted_below_total fuel h m r cl k C L) as [d ->]. simpl.
  destruct d; [|eauto]. destruct mv; eauto.
Qed.

Lemma scan_levels_total fuel0 fuel h m r cl pred cmp mv c l ck :
  child_chain h (Some r) cl → length cl ≤ fuel0 →
  child_chain h c l → length l ≤ fuel →
  ∃ res, scan_levels fuel0 fuel h m r pred cmp mv c ck = Ok res.
Proof.
  intros Cr Lr C. revert fuel ck. induction C as [|q n l Hn C IH]; intros fuel ck L.
  - destruct fuel; simpl; eauto.
  - destruct fuel as [|f]; [simpl in L; lia|]. simpl in *. unfold get. rewrite Hn. simpl.
    destruct (find_first_not_total fuel0 h m r cl mv (pred (cache n)) Cr Lr) as [[pk it] ->].
    simpl. destruct pk as [pk|].
    + destruct (decide (q = m)); [eauto|]. apply IH. lia.
    + apply IH. lia.
Qed.

Lemma find_start_total fuel h p pred cmp mv :
  iterable fuel h p → ∃ ck, find_start fuel h p pred cmp mv = Ok ck.
Proof.
  intros (l & r & cl & n & b & ds & A & Hr & C & L1 & L2 & Hn & Hb & Hs).
  unfold find_start, get, backing. rewrite Hn. simpl.
  destruct (root_of_total fuel h p l A L1) as (r' & Hr' & ->). simpl.
  rewrite Hr in Hr'. injection Hr' as <-.
  rewrite Hb. simpl. rewrite Hs. simpl.
  destruct (find_first_not_total fuel h p r cl mv (pred ds) C L2) as [[ck it] ->]. simpl.
  by eapply scan_levels_total.
Qed.

(** With a predicate that always answers [end()] nothing is found. *)
Lemma scan_levels_end fuel0 fuel h m r pred cmp mv c ck res :
  (∀ ds, pred ds = []) →
  scan_levels fuel0 fuel h m r pred cmp mv c ck = Ok res → res = ck.
Proof.
  intros Hp. revert c ck. induction fuel as [|f IH]; intros c ck H.
  - destruct c; simpl in H; congruence.
  - destruct c as [q|]; simpl in H; [|congruence].
    inv_bind H as n Hn. rewrite Hp in H. simpl in H. by apply IH in H.
Qed.

Lemma find_start_end fuel h p cmp mv ck :
  find_start fuel h p ds_end cmp mv = Ok ck → ck = None.
Proof.
  unfold find_start. intros H. inv_bind H as n Hn. inv_bind H as r Hr. inv_bind H as ds Hds.
  simpl in H. by apply scan_levels_end in H.
Qed.

(** ** [update_iterator_cache] returns on an iterable session *)

Lemma iterable_lookup fuel h p : iterable fuel h p → is_Some (impls h !! p).
Proof. intros (l & r & cl & n & b & ds & A & Hr & C & L1 & L2 & Hn & Hb & Hs). eauto. Qed.

Lemma has_entry_ic_update p k h h' : ic_update p h h' → has_entry p k h → has_entry p k h'.
Proof.
  intros U (n & Hn & Hk). eapply ic_update_lookup in U as (ic & Hl & Hd); [|done].
  eexists. split; [done|]. simpl. apply elem_of_dom, Hd, elem_of_dom, Hk.
Qed.

Lemma emplace_total p k h :
  is_Some (impls h !! p) →
  ∃ h', modify p (λ n, set_iterator_cache (try_emplace k (iterator_cache n)) n) h = Ok h' ∧
        ic_update p h h' ∧ has_entry p k h'.
Proof.
  intros [n Hn]. eexists. split; [by apply modify_lookup|]. split.
  - exists n, (try_emplace k (iterator_cache n)). split_and!; [done|apply try_emplace_dom|done].
  - eexists. split; [apply lookup_put_eq|]. apply try_emplace_is_Some.
Qed.

Lemma modify_entry_total p k f h :
  has_entry p k h → ∃ h', modify_entry p k f h = Ok h' ∧ ic_update p h h'.
Proof.
  intros (n & Hn & [st Hst]). unfold modify_entry, get. rewrite Hn. simpl. rewrite Hst. simpl.
  eexists. split; [done|]. exists n, (<[k:=f st]> (iterator_cache n)).
  split_and!; [done|set_solver|done].
Qed.

Lemma entry_total p k h :
  has_entry p k h → ∃ n st, get h p = Ok n ∧ deref (iterator_cache n !! k) = Ok st.
Proof. intros (n & Hn & [st Hst]). exists n, st. unfold get. by rewrite Hn, Hst. Qed.

Lemma make_iterator_prime_total fuel h p pred cmp mv :
  iterable fuel h p → ∃ it h', make_iterator_prime fuel h p pred cmp mv = Ok (it, h').
Proof.
  intros I. unfold make_iterator_prime.
  destruct (find_start_total fuel h p pred cmp mv I) as [[k|] ->]; simpl; [|eauto].
  destruct (emplace_total p k h (iterable_lookup _ _ _ I)) as (h' & -> & U & E). simpl.
  unfold position_at. destruct (entry_total _ _ _ E) as (n & st & Hg & Hd).
  rewrite Hg. simpl. rewrite Hd. simpl. eauto.
Qed.

Lemma make_iterator_prime_end fuel h p cmp mv it h' :
  make_iterator_prime fuel h p ds_end cmp mv = Ok (it, h') → m_active_iterator it = None.
Proof.
  unfold make_iterator_prime. intros H. inv_bind H as ck Hck.
  apply find_start_end in Hck as ->. by injection H as <- <-.
Qed.

Lemma bounds_total fuel h p key :
  iterable fuel h p → ∃ r h', bounds fuel h p key = Ok (r, h').
Proof.
  intros I. unfold bounds.
  destruct (make_iterator_prime_total fuel h p (bounds_lower key) bytes_less move_next I)
    as (lb & h1 & E1). rewrite E1. simpl.
  apply make_iterator_prime_frame in E1 as [U1 S1].
  pose proof (iterable_ic_update _ _ _ _ _ U1 I) as I1.
  destruct (make_iterator_prime_total fuel h1 p (λ ds, ds_upper_bound ds key) bytes_less
              move_next I1) as (ub & h2 & E2). rewrite E2. simpl.
  apply make_iterator_prime_frame in E2 as [U2 S2].
  pose proof (iterable_ic_update _ _ _ _ _ U2 I1) as I2.
  destruct (make_iterator_prime_total fuel h2 p ds_end bytes_greater move_to_end I2)
    as (e & h3 & E3). rewrite E3. simpl.
  pose proof (make_iterator_prime_end _ _ _ _ _ _ _ E3) as Ee.
  apply make_iterator_prime_frame in E3 as [U3 S3].
  pose proof (iterable_ic_update _ _ _ _ _ U3 I2) as I3.
  destruct (iterable_lookup _ _ _ I3) as [n3 Hn3].
  unfold iterator_neq, iterator_eq, get. rewrite S1, S2, Ee. simpl. rewrite Hn3. simpl.
  destruct (m_active_iterator lb), (m_active_iterator ub); simpl; eauto.
Qed.

Lemma mark_neighbour_total p key f g (bound : option string) h :
  has_entry p key h →
  ∃ h', match bound with
        | Some b =>
            h1 ← modify p (λ n, set_iterator_cache (try_emplace b (iterator_cache n)) n) h;
            h2 ← modify_entry p b f h1;
            modify_entry p key g h2
        | None => Ok h
        end = Ok h' ∧ ic_update p h h'.
Proof.
  intros E. assert (is_Some (impls h !! p)) as Hp by (destruct E as (n & -> & _); eauto).
  destruct bound as [b|].
  - destruct (emplace_total p b h Hp) as (h1 & -> & U1 & E1). simpl.
    destruct (modify_entry_total p b f h1 E1) as (h2 & -> & U2). simpl.
    destruct (modify_entry_total p key g h2) as (h3 & -> & U3).
    { eauto using has_entry_ic_update. }
    eauto with session_frame.
  - destruct Hp as [n Hn]. eauto using ic_update_refl.
Qed.

Lemma update_iterator_cache_total fuel h p key params :
  iterable fuel h p → ∃ h', update_iterator_cache fuel h p key params = Ok h'.
Proof.
  intros I. unfold update_iterator_cache.
  destruct (emplace_total p key h (iterable_lookup _ _ _ I)) as (h0 & -> & U0 & E0). simpl.
  destruct (prime_only params); [eauto|].
  assert (∃ h1, (if overwrite params
                 then modify_entry p key (set_deleted_flag (mark_deleted params)) h0
                 else Ok h0) = Ok h1 ∧ ic_update p h0 h1) as (h1 & -> & U1).
  { destruct (overwrite params); [by apply modify_entry_total|].
    eexists. split; [done|]. by eapply ic_update_self. }
  simpl.
  pose proof (has_entry_ic_update _ _ _ _ U1 E0) as E1.
  destruct (entry_total _ _ _ E1) as (n1 & st & Hg & Hd).
  rewrite Hg. simpl. rewrite Hd. simpl.
  destruct (negb (recalculate params) && next_in_cache st && previous_in_cache st); [eauto|].
  assert (iterable fuel h1 p) as I1 by eauto using iterable_ic_update.
  destruct (bounds_total fuel h1 p key I1) as ([lb ub] & h2 & Eb). rewrite Eb. simpl.
  apply bounds_frame in Eb.
  pose proof (has_entry_ic_update _ _ _ _ Eb E1) as E2.
  destruct (mark_neighbour_total p key (set_next_in_cache true) (set_previous_in_cache true)
              lb h2 E2) as (h3 & -> & U3). simpl.
  pose proof (has_entry_ic_update _ _ _ _ U3 E2) as E3.
  destruct (mark_neighbour_total p key (set_previous_in_cache true) (set_next_in_cache true)
              ub h3 E3) as (h4 & -> & U4).
  eauto.
Qed.

(** The form used below: the call returns, and the heap it returns is the
    old one with a larger iterator cache in [p] that has an entry for the
    key. *)
Lemma update_iterator_cache_spec fuel h p key params n :
  iterable fuel h p → impls h !! p = Some n →
  ∃ ic, update_iterator_cache fuel h p key params = Ok (put p (set_iterator_cache ic n) h) ∧
        dom (iterator_cache n) ⊆ dom ic ∧ is_Some (ic !! key).
Proof.
  intros I Hn. destruct (update_iterator_cache_total fuel h p key params I) as [h' E].
  pose proof (update_iterator_cache_frame _ _ _ _ _ _ E) as (n' & ic & Hn' & Hd & ->).
  rewrite Hn in Hn'. injection Hn' as <-.
  exists ic. split_and!; [done|done|].
  apply (update_iterator_cache_entry _ _ _ _ _ _ (set_iterator_cache ic n) E).
  apply lookup_put_eq.
Qed.

(** [make_iterator_] with [prime_cache_only = true] is [make_iterator_prime]. *)
Lemma make_iterator_prime_only fuel h p pred cmp mv :
  make_iterator_ fuel h (Some p) pred cmp mv true = make_iterator_prime fuel h p pred cmp mv.
Proof.
  unfold make_iterator_, make_iterator_prime, update_iterator_cache.
  destruct (find_start fuel h p pred cmp mv) as [[k|]| |]; simpl; try done.
  by destruct (modify p _ h).
Qed.

(** ** Ancestors *)

Lemma ancestry_unique h p l1 l2 : ancestry h p l1 → ancestry h p l2 → l1 = l2.
Proof.
  intros A. revert l2. induction A as [p n Hn Hp|p n q l Hn Hp A IH]; intros l2 B.
  - inversion B as [? n' Hn' Hp'|? n' q' l' Hn' Hp' B']; subst; simplify_eq; done.
  - inversion B as [? n' Hn' Hp'|? n' q' l' Hn' Hp' B']; subst; simplify_eq.
    f_equal. by apply IH.
Qed.

Lemma ancestry_in h q l x :
  ancestry h q l → x ∈ l.*1 → ∃ l2, ancestry h x l2 ∧ length l2 ≤ length l.
Proof.
  intros A. induction A as [p n Hn Hp|p n q l Hn Hp A IH]; intros Hx.
  - apply list_elem_of_singleton in Hx as ->. exists [(p, n)]. split; [by constructor|done].
  - rewrite fmap_cons in Hx. apply elem_of_cons in Hx as [->|Hx].
    + exists ((p, n) :: l). split; [by econstructor|done].
    + destruct (IH Hx) as (l2 & A2 & L). exists l2. split; [done|]. simpl. lia.
Qed.

Lemma ancestry_not_self h p n l : ancestry h p ((p, n) :: l) → p ∉ l.*1.
Proof.
  intros A Hin. inversion A as [|? ? q ? Hn Hp A']; subst; [by apply not_elem_of_nil in Hin|].
  destruct (ancestry_in _ _ _ _ A' Hin) as (l2 & A2 & L).
  pose proof (ancestry_unique _ _ _ _ A A2) as <-. simpl in L. lia.
Qed.

(** ** [read] *)

Lemma iterable_put fuel h p q n f :
  impls h !! q = Some n → links (f n) = links n → iterable fuel h p →
  iterable fuel (put q (f n) h) p.
Proof. intros Hn Hl. apply iterable_shape. by apply same_shape_put. Qed.

Lemma cache_in_spec fuel h p n k v :
  iterable fuel h p → impls h !! p = Some n →
  ∃ h', cache_in fuel h p (make_kv k v) = Ok h' ∧ cached_in fuel p n k v h h'.
Proof.
  intros I Hn. unfold cache_in. rewrite (modify_lookup _ _ _ _ Hn). simpl.
  set (n1 := set_cache _ n). set (h1 := put p n1 h).
  assert (iterable fuel h1 p) as I1 by (by apply (iterable_put fuel h p p n (set_cache _))).
  destruct (update_iterator_cache_spec fuel h1 p k read_params n1 I1) as (ic & E & Hd & Hk).
  { apply lookup_put_eq. }
  rewrite E. eexists. split; [done|]. split; [exact E|].
  exists ic. split_and!; [|done|done]. unfold h1. by rewrite put_put.
Qed.

Lemma ds_read_Some (c : gmap string string) k kv :
  ds_read c k = Some kv ↔ ∃ v, c !! k = Some v ∧ kv = make_kv k v.
Proof.
  unfold ds_read. destruct (c !! k) as [v|]; simpl; split.
  - intros [= <-]. eauto.
  - intros (v' & [= <-] & ->). done.
  - done.
  - intros (v' & ? & _). done.
Qed.

Lemma ds_read_None (c : gmap string string) k : ds_read c k = None ↔ c !! k = None.
Proof. unfold ds_read. destruct (c !! k); simpl; split; congruence. Qed.

Lemma read_backing_spec fuel h p n k :
  impls h !! p = Some n → iterable fuel h p ∨ backing_data_store n = None →
  let view := base_store h n ≫= (.!! k) in
  ∃ h', read_backing fuel h p k = Ok (make_kv k <$> view, h') ∧
        match view with
        | Some v => cached_in fuel p n k v h h'
        | None => h' = h
        end.
Proof.
  intros Hn Hb. unfold read_backing, get, base_store. rewrite Hn. simpl.
  destruct (backing_data_store n) as [b|] eqn:Eb; simpl; [|eauto].
  destruct Hb as [I|?]; [|done].
  pose proof I as (l & r & cl & n' & b' & ds & A & Hr & C & L1 & L2 & Hn' & Hb' & Hs).
  assert (n' = n) as -> by congruence. assert (b' = b) as -> by congruence.
  rewrite Hs. simpl. unfold ds_read. destruct (ds !! k) as [v|] eqn:Ek; simpl; [|eauto].
  destruct (cache_in_spec fuel h p n k v I Hn) as (h' & -> & Hc). simpl. eauto.
Qed.

(** The loop of [read] above the session itself: every hit is cached. *)
Lemma read_loop_above fuel0 fuel h p n k q l :
  impls h !! p = Some n → iterable fuel0 h p →
  ancestry h q l → p ∉ l.*1 → length l ≤ fuel →
  let view := merged_view l (base_store h n) k in
  ∃ h', read_loop fuel0 fuel h p k (Some q) = Ok (make_kv k <$> view, h') ∧
        match view with
        | Some v => cached_in fuel0 p n k v h h'
        | None => h' = h
        end.
Proof.
  intros Hn I A. revert fuel.
  induction A as [q m Hm Hp|q m q' l Hm Hp A IH]; intros fuel Hnot L;
    (destruct fuel as [|f]; [simpl in L; lia|]);
    simpl; unfold get; rewrite Hm; simpl;
    (destruct (decide (k ∈ deleted_keys m)); [eauto|]);
    assert (q ≠ p) as Hq by (intros ->; apply Hnot; rewrite fmap_cons; left);
    unfold ds_read at 1; destruct (cache m !! k) as [v|] eqn:Ek; simpl.
  - destruct (decide (q ≠ p)); [|done].
    destruct (cache_in_spec fuel0 h p n k v I Hn) as (h' & -> & Hc). simpl. eauto.
  - rewrite Hp. destruct f; simpl; apply read_backing_spec; auto.
  - destruct (decide (q ≠ p)); [|done].
    destruct (cache_in_spec fuel0 h p n k v I Hn) as (h' & -> & Hc). simpl. eauto.
  - rewrite Hp. apply IH.
    + intros Hin. apply Hnot. rewrite fmap_cons. by right.
    + simpl in L. lia.
Qed.

Lemma ex_heap_ancestry : ancestry ex_heap 2 [(2, ex_tip); (1, ex_root)].
Proof.
  eapply ancestry_step; [reflexivity|reflexivity|]. apply ancestry_head; reflexivity.
Qed.

Lemma ex_heap_children : child_chain ex_heap (Some 1) [1; 2].
Proof.
  eapply child_chain_cons; [reflexivity|].
  eapply child_chain_cons; [reflexivity|]. apply child_chain_nil.
Qed.

Lemma ex_heap_iterable : iterable 5 ex_heap 2.
Proof.
  exists [(2, ex_tip); (1, ex_root)], 1, [1; 2], ex_tip, 1, {[ "b" := "2" ]}.
  split_and!; try reflexivity.
  - apply ex_heap_ancestry.
  - apply ex_heap_children.
  - simpl. lia.
  - simpl. lia.
Qed.

(** ** [read] returns the merged view *)

Lemma read_spec fuel h p n l k :
  impls h !! p = Some n → ancestry h p l → length l ≤ fuel →
  iterable fuel h p ∨ free_standing h p →
  ∃ h', read fuel h (Some p) k = Ok (make_kv k <$> merged_view l (base_store h n) k, h') ∧
        (is_Some (cache n !! k) ∨ merged_view l (base_store h n) k = None → h' = h) ∧
        (∀ v, cache n !! k = None → merged_view l (base_store h n) k = Some v →
              cached_in fuel p n k v h h').
Proof.
  intros Hn A L Hs.
  assert (iterable fuel h p ∨ backing_data_store n = None) as Hb.
  { destruct Hs as [?|(n' & Hn' & _ & ?)]; [by left|right; congruence]. }
  pose proof (ancestry_not_self h p) as Hself.
  inversion A as [? n' Hn' Hp|? n' q l' Hn' Hp A']; subst;
    (assert (n' = n) as -> by congruence);
    (destruct fuel as [|f]; [simpl in L; lia|]);
    simpl; unfold get; rewrite Hn; simpl;
    (destruct (decide (k ∈ deleted_keys n)); [exists h; split_and!; [done|done|done]|]);
    unfold ds_read at 1; destruct (cache n !! k) as [v|] eqn:Ek; simpl.
  - destruct (decide (p ≠ p)); [done|]. exists h. split_and!; [done|done|done].
  - rewrite Hp.
    destruct (read_backing_spec (S f) h p n k Hn Hb) as (h' & E & Hv).
    exists h'. split; [by destruct f|]. simpl in Hv.
    destruct (base_store h n ≫= (.!! k)) as [v|]; split.
    + intros [[? ?]|?]; done.
    + by intros v' _ [= <-].
    + done.
    + done.
  - destruct (decide (p ≠ p)); [done|]. exists h. split_and!; [done|done|done].
  - rewrite Hp.
    assert (iterable (S f) h p) as I.
    { destruct Hs as [?|(n' & Hn2 & Hp2 & _)]; [done|congruence]. }
    destruct (read_loop_above (S f) f h p n k q l' Hn I A') as (h' & E & Hv).
    { by eapply Hself. }
    { simpl in L. lia. }
    exists h'. split; [done|]. simpl in Hv.
    destruct (merged_view l' (base_store h n) k) as [v|]; split.
    + intros [[? ?]|?]; done.
    + by intros v' _ [= <-].
    + done.
    + done.
Qed.

(** ** Containers *)

Lemma elem_of_insert_key k x l : x ∈ insert_key k l ↔ x = k ∨ x ∈ l.
Proof.
  induction l as [|y l IH]; simpl.
  - rewrite list_elem_of_singleton. set_solver.
  - destruct (String.ltb k y); set_solver.
Qed.

Lemma elem_of_sort_keys x l : x ∈ sort_keys l ↔ x ∈ l.
Proof.
  induction l as [|y l IH]; simpl; [done|].
  rewrite elem_of_insert_key, IH. set_solver.
Qed.

Lemma elem_of_set_keys x (s : gset string) : x ∈ set_keys s ↔ x ∈ s.
Proof. unfold set_keys. by rewrite elem_of_sort_keys, elem_of_elements. Qed.

Lemma lookup_erase_batch (m : gmap string string) ks k :
  ds_erase_batch m ks !! k = if decide (k ∈ ks) then None else m !! k.
Proof.
  unfold ds_erase_batch. revert m. induction ks as [|x ks IH]; intros m; cbn [foldl].
  - by rewrite decide_False by apply not_elem_of_nil.
  - rewrite IH. unfold ds_erase. destruct (decide (k ∈ ks)).
    + by rewrite decide_True by (by right).
    + destruct (decide (x = k)) as [->|Hne].
      * rewrite lookup_delete_eq. by rewrite decide_True by left.
      * rewrite lookup_delete_ne by done. rewrite decide_False; [done|].
        intros [->|?]%elem_of_cons; done.
Qed.

Lemma elem_of_ds_entries (c : gmap string string) ks kv :
  kv ∈ ds_entries c ks ↔ kv_key kv ∈ ks ∧ c !! kv_key kv = Some (kv_value kv).
Proof.
  unfold ds_entries. rewrite list_elem_of_omap. split.
  - intros (k & Hk & (v & Hv & ->)%ds_read_Some). done.
  - intros [Hk Hv]. exists (kv_key kv). split; [done|]. apply ds_read_Some.
    exists (kv_value kv). split; [done|]. by destruct kv.
Qed.

Lemma lookup_write_batch (m : gmap string string) (f : string → option string) kvs k :
  (∀ kv, kv ∈ kvs → f (kv_key kv) = Some (kv_value kv)) →
  ds_write_batch m kvs !! k = if decide (k ∈ kv_key <$> kvs) then f k else m !! k.
Proof.
  unfold ds_write_batch. revert m. induction kvs as [|x kvs IH]; intros m Hc; cbn [foldl].
  - by rewrite decide_False by apply not_elem_of_nil.
  - rewrite IH by (intros; apply Hc; by right). unfold ds_write. rewrite fmap_cons.
    destruct (decide (k ∈ kv_key <$> kvs)).
    + by rewrite decide_True by (by right).
    + destruct (decide (kv_key x = k)) as [<-|Hne].
      * rewrite lookup_insert_eq. rewrite decide_True by left. symmetry. apply Hc. left.
      * rewrite lookup_insert_ne by done. rewrite decide_False; [done|].
        intros [->|?]%elem_of_cons; done.
Qed.

Lemma elem_of_entry_keys (c : gmap string string) (s : gset string) k :
  k ∈ kv_key <$> ds_entries c (set_keys s) ↔ k ∈ s ∩ dom c.
Proof.
  rewrite list_elem_of_fmap, elem_of_intersection, elem_of_dom. split.
  - intros (kv & -> & [Hk Hv]%elem_of_ds_entries). rewrite elem_of_set_keys in Hk. eauto.
  - intros [Hk [v Hv]]. exists (make_kv k v). split; [done|].
    apply elem_of_ds_entries. simpl. by rewrite elem_of_set_keys.
Qed.

(** What a destination store holds after a layer's tombstones [dels] were
    erased from it and then the layer's authored entries written. *)
Lemma lookup_written_through (ds c : gmap string string) (upd dels : gset string) k :
  ds_write_batch (ds_erase_batch ds (set_keys dels)) (ds_entries c (set_keys upd)) !! k =
    if decide (k ∈ upd ∩ dom c) then c !! k
    else if decide (k ∈ dels) then None else ds !! k.
Proof.
  rewrite (lookup_write_batch _ (λ x, c !! x)) by (by intros kv [_ ?]%elem_of_ds_entries).
  rewrite lookup_erase_batch.
  destruct (decide (k ∈ upd ∩ dom c)) as [Hk|Hk].
  - rewrite decide_True; [done|]. by apply elem_of_entry_keys.
  - rewrite decide_False by (by rewrite elem_of_entry_keys).
    destruct (decide (k ∈ dels)).
    + rewrite decide_True; [done|]. by apply elem_of_set_keys.
    + rewrite decide_False; [done|]. by rewrite elem_of_set_keys.
Qed.

(** ** [write] and [erase] *)

Lemma write_spec fuel h p n kv :
  iterable fuel h p → impls h !! p = Some n →
  ∃ ic, write fuel h (Some p) kv = Ok (put p (set_iterator_cache ic (written kv n)) h) ∧
        dom (iterator_cache n) ⊆ dom ic ∧ is_Some (ic !! kv_key kv).
Proof.
  intros I Hn. unfold write.
  rewrite (modify_lookup _ _ _ _ Hn). simpl.
  rewrite (modify_lookup _ _ _ _ (lookup_put_eq _ _ _)). simpl. rewrite put_put.
  rewrite (modify_lookup _ _ _ _ (lookup_put_eq _ _ _)). simpl. rewrite put_put.
  fold (written kv n).
  assert (iterable fuel (put p (written kv n) h) p) as I1.
  { by apply (iterable_put fuel h p p n (written kv)). }
  destruct (update_iterator_cache_spec fuel _ p (kv_key kv) write_params (written kv n) I1)
    as (ic & E & Hd & Hk); [apply lookup_put_eq|].
  rewrite E, put_put. eauto.
Qed.

Lemma erase_spec fuel h p n key :
  iterable fuel h p → impls h !! p = Some n →
  ∃ ic, erase fuel h (Some p) key = Ok (put p (set_iterator_cache ic (erased key n)) h) ∧
        dom (iterator_cache n) ⊆ dom ic ∧ is_Some (ic !! key).
Proof.
  intros I Hn. unfold erase.
  rewrite (modify_lookup _ _ _ _ Hn). simpl.
  rewrite (modify_lookup _ _ _ _ (lookup_put_eq _ _ _)). simpl. rewrite put_put.
  rewrite (modify_lookup _ _ _ _ (lookup_put_eq _ _ _)). simpl. rewrite put_put.
  fold (erased key n).
  assert (iterable fuel (put p (erased key n) h) p) as I1.
  { by apply (iterable_put fuel h p p n (erased key)). }
  destruct (update_iterator_cache_spec fuel _ p key erase_params (erased key n) I1)
    as (ic & E & Hd & Hk); [apply lookup_put_eq|].
  rewrite E, put_put. eauto.
Qed.

(** Without the hypothesis that the session is iterable: whenever [write]
    or [erase] returns, this is the heap it returns. *)
Lemma write_frame fuel h p kv h' :
  write fuel h (Some p) kv = Ok h' →
  ∃ n ic, impls h !! p = Some n ∧ h' = put p (set_iterator_cache ic (written kv n)) h.
Proof.
  unfold write. intros H.
  inv_bind H as h1 H1. apply modify_Ok in H1 as (n & Hn & ->).
  inv_bind H as h2 H2. rewrite (modify_lookup _ _ _ _ (lookup_put_eq _ _ _)) in H2.
  injection H2 as <-.
  inv_bind H as h3 H3. rewrite (modify_lookup _ _ _ _ (lookup_put_eq _ _ _)) in H3.
  injection H3 as <-. rewrite !put_put in H. simpl in H. fold (written kv n) in H.
  apply update_iterator_cache_frame in H as (n' & ic & Hn' & _ & ->).
  rewrite lookup_put_eq in Hn'. injection Hn' as <-.
  exists n, ic. by rewrite put_put.
Qed.

Lemma erase_frame fuel h p key h' :
  erase fuel h (Some p) key = Ok h' →
  ∃ n ic, impls h !! p = Some n ∧ h' = put p (set_iterator_cache ic (erased key n)) h.
Proof.
  unfold erase. intros H.
  inv_bind H as h1 H1. apply modify_Ok in H1 as (n & Hn & ->).
  inv_bind H as h2 H2. rewrite (modify_lookup _ _ _ _ (lookup_put_eq _ _ _)) in H2.
  injection H2 as <-.
  inv_bind H as h3 H3. rewrite (modify_lookup _ _ _ _ (lookup_put_eq _ _ _)) in H3.
  injection H3 as <-. rewrite !put_put in H. simpl in H. fold (erased key n) in H.
  apply update_iterator_cache_frame in H as (n' & ic & Hn' & _ & ->).
  rewrite lookup_put_eq in Hn'. injection Hn' as <-.
  exists n, ic. by rewrite put_put.
Qed.

(** *** Batches *)

Lemma foldl_written_ic ic n kvs :
  foldl (flip written) (set_iterator_cache ic n) kvs =
  set_iterator_cache ic (foldl (flip written) n kvs).
Proof. revert n. induction kvs as [|kv kvs IH]; intros n; simpl; [done|]. by rewrite <-IH. Qed.

Lemma foldl_erased_ic ic n ks :
  foldl (flip erased) (set_iterator_cache ic n) ks =
  set_iterator_cache ic (foldl (flip erased) n ks).
Proof. revert n. induction ks as [|k ks IH]; intros n; simpl; [done|]. by rewrite <-IH. Qed.

Lemma set_iterator_cache_twice ic ic' n :
  set_iterator_cache ic (set_iterator_cache ic' n) = set_iterator_cache ic n.
Proof. done. Qed.

Lemma write_each_spec fuel h p n kvs :
  iterable fuel h p → impls h !! p = Some n →
  ∃ ic, write_each fuel h (Some p) kvs =
          Ok (put p (set_iterator_cache ic (foldl (flip written) n kvs)) h) ∧
        dom (iterator_cache n) ⊆ dom ic.
Proof.
  revert h n. induction kvs as [|kv kvs IH]; intros h n I Hn.
  - exists (iterator_cache n). split; [|done]. simpl. f_equal. symmetry.
    apply put_id. by destruct n.
  - cbn [write_each foldl]. destruct (write_spec fuel h p n kv I Hn) as (ic1 & -> & Hd1 & _).
    cbn [mbind result_bind].
    set (n1 := set_iterator_cache ic1 (written kv n)).
    destruct (IH (put p n1 h) n1) as (ic & -> & Hd).
    + by apply (iterable_put fuel h p p n (λ n, set_iterator_cache ic1 (written kv n))).
    + apply lookup_put_eq.
    + exists ic. split; [|set_solver]. rewrite put_put. unfold n1.
      by rewrite foldl_written_ic, set_iterator_cache_twice.
Qed.

Lemma erase_each_spec fuel h p n ks :
  iterable fuel h p → impls h !! p = Some n →
  ∃ ic, erase_each fuel h (Some p) ks =
          Ok (put p (set_iterator_cache ic (foldl (flip erased) n ks)) h) ∧
        dom (iterator_cache n) ⊆ dom ic.
Proof.
  revert h n. induction ks as [|k ks IH]; intros h n I Hn.
  - exists (iterator_cache n). split; [|done]. simpl. f_equal. symmetry.
    apply put_id. by destruct n.
  - cbn [erase_each foldl]. destruct (erase_spec fuel h p n k I Hn) as (ic1 & -> & Hd1 & _).
    cbn [mbind result_bind].
    set (n1 := set_iterator_cache ic1 (erased k n)).
    destruct (IH (put p n1 h) n1) as (ic & -> & Hd).
    + by apply (iterable_put fuel h p p n (λ n, set_iterator_cache ic1 (erased k n))).
    + apply lookup_put_eq.
    + exists ic. split; [|set_solver]. rewrite put_put. unfold n1.
      by rewrite foldl_erased_ic, set_iterator_cache_twice.
Qed.

(** The fields of a layer after a batch. *)
Lemma foldl_written_fields n kvs :
  links (foldl (flip written) n kvs) = links n ∧
  cache (foldl (flip written) n kvs) = ds_write_batch (cache n) kvs ∧
  updated_keys (foldl (flip written) n kvs) = list_to_set (kv_key <$> kvs) ∪ updated_keys n ∧
  deleted_keys (foldl (flip written) n kvs) = deleted_keys n ∖ list_to_set (kv_key <$> kvs).
Proof.
  revert n. induction kvs as [|kv kvs IH]; intros n.
  - simpl. split_and!; [done|done|set_solver|set_solver].
  - cbn [foldl]. destruct (IH (flip written n kv)) as (-> & -> & -> & ->).
    rewrite fmap_cons. simpl. split_and!; [done|done|set_solver|set_solver].
Qed.

Lemma foldl_erased_fields n ks :
  links (foldl (flip erased) n ks) = links n ∧
  cache (foldl (flip erased) n ks) = ds_erase_batch (cache n) ks ∧
  updated_keys (foldl (flip erased) n ks) = updated_keys n ∖ list_to_set ks ∧
  deleted_keys (foldl (flip erased) n ks) = list_to_set ks ∪ deleted_keys n.
Proof.
  revert n. induction ks as [|k ks IH]; intros n.
  - simpl. split_and!; [done|done|set_solver|set_solver].
  - cbn [foldl]. destruct (IH (flip erased n k)) as (-> & -> & -> & ->).
    simpl. split_and!; [done|done|set_solver|set_solver].
Qed.

(** ** [commit] *)

Lemma list_to_set_set_keys (s : gset string) : list_to_set (set_keys s) = s.
Proof. apply set_eq. intros x. by rewrite elem_of_list_to_set, elem_of_set_keys. Qed.

Lemma list_to_set_entry_keys (c : gmap string string) (s : gset string) :
  list_to_set (kv_key <$> ds_entries c (set_keys s)) = s ∩ dom c.
Proof. apply set_eq. intros x. by rewrite elem_of_list_to_set, elem_of_entry_keys. Qed.

Lemma emptied_clear_impl n : emptied (clear_impl n).
Proof. done. Qed.

Lemma commit_guard fuel h p n :
  impls h !! p = Some n → updated_keys n ≠ ∅ ∨ deleted_keys n ≠ ∅ →
  is_Some (parent n) ∨ is_Some (backing_data_store n) →
  impl_commit fuel h p =
    match parent n with
    | Some q =>
        h ← erase_batch fuel h (Some q) (set_keys (deleted_keys n));
        n ← get h p;
        h ← write_batch fuel h (Some q) (ds_entries (cache n) (set_keys (updated_keys n)));
        modify p clear_impl h
    | None =>
        b ← deref (backing_data_store n);
        ds ← deref (stores h !! b);
        modify p clear_impl
          (Heap (impls h)
             (<[b := ds_write_batch (ds_erase_batch ds (set_keys (deleted_keys n)))
                       (ds_entries (cache n) (set_keys (updated_keys n)))]> (stores h)))
    end.
Proof.
  intros Hn Hne Hd. unfold impl_commit, get. rewrite Hn. simpl.
  assert (bool_decide (parent n = None) && bool_decide (backing_data_store n = None) = false)
    as ->.
  { destruct Hd as [[q Hq]|[b Hb]].
    - rewrite Hq. done.
    - rewrite Hb. by rewrite andb_false_r. }
  assert (bool_decide (updated_keys n = ∅) && bool_decide (deleted_keys n = ∅) = false)
    as ->.
  { destruct Hne as [?|?].
    - by rewrite (bool_decide_eq_false_2 (updated_keys n = ∅)).
    - rewrite (bool_decide_eq_false_2 (deleted_keys n = ∅)) by done. by rewrite andb_false_r. }
  done.
Qed.

(** C2, amended: a layer with an authored update or a tombstone commits by
    erasing its tombstones from the destination and then writing its
    authored overlay entries to it, and is empty afterwards; a layer without
    updates and tombstones is left as it is by the guard of [commit].  The
    destination is the backing store for a layer without parent, else the
    parent session; a parent is written through its [erase] and [write], so
    it is taken to be a session these are defined on, one that has its
    backing store ([iterable]). *)
Theorem commit_writes_through fuel h p n :
  impls h !! p = Some n →
  (updated_keys n = ∅ → deleted_keys n = ∅ → commit fuel h (Some p) = Ok h) ∧
  (updated_keys n ≠ ∅ ∨ deleted_keys n ≠ ∅ →
   emptied (clear_impl n) ∧
   (∀ b ds, parent n = None → backing_data_store n = Some b → stores h !! b = Some ds →
      ∃ ds',
        commit fuel h (Some p) =
          Ok (Heap (<[p := clear_impl n]> (impls h)) (<[b := ds']> (stores h))) ∧
        ds' = ds_write_batch (ds_erase_batch ds (set_keys (deleted_keys n)))
                (ds_entries (cache n) (set_keys (updated_keys n))) ∧
        ∀ k, ds' !! k = if decide (k ∈ authored n) then cache n !! k
                        else if decide (k ∈ deleted_keys n) then None else ds !! k) ∧
   (∀ q m, parent n = Some q → q ≠ p → impls h !! q = Some m → iterable fuel h q →
      ∃ m',
        commit fuel h (Some p) = Ok (put p (clear_impl n) (put q m' h)) ∧
        links m' = links m ∧
        deleted_keys m' = (deleted_keys m ∪ deleted_keys n) ∖ authored n ∧
        updated_keys m' = (updated_keys m ∖ deleted_keys n) ∪ authored n ∧
        ∀ k, cache m' !! k = if decide (k ∈ authored n) then cache n !! k
                             else if decide (k ∈ deleted_keys n) then None
                             else cache m !! k)).
Proof.
  intros Hn. split.
  - intros HU HD. simpl. unfold impl_commit, get. rewrite Hn. simpl.
    rewrite (bool_decide_eq_true_2 _ HU), (bool_decide_eq_true_2 _ HD). simpl.
    by destruct (bool_decide (parent n = None) && bool_decide (backing_data_store n = None)).
  - intros Hne. split; [apply emptied_clear_impl|]. split.
    + intros b ds Hp Hb Hs. eexists. split; [|split; [reflexivity|]].
      * simpl. rewrite (commit_guard fuel h p n Hn Hne) by (right; rewrite Hb; eauto).
        rewrite Hp, Hb. simpl. rewrite Hs. simpl. unfold modify, get. simpl. rewrite Hn.
        done.
      * intros k. apply lookup_written_through.
    + intros q m Hp Hq Hm I. simpl.
      rewrite (commit_guard fuel h p n Hn Hne) by (left; rewrite Hp; eauto).
      rewrite Hp. cbn [erase_batch].
      destruct (erase_each_spec fuel h q m (set_keys (deleted_keys n)) I Hm) as (ic1 & -> & _).
      cbn [mbind result_bind]. set (m1 := set_iterator_cache ic1 _).
      unfold get at 1. rewrite lookup_put_ne, Hn by done. cbn [mbind result_bind deref].
      cbn [write_batch].
      destruct (write_each_spec fuel (put q m1 h) q m1
                  (ds_entries (cache n) (set_keys (updated_keys n)))) as (ic2 & -> & _).
      { apply (iterable_put fuel h q q m (λ _, m1)); [done| |done].
        apply (foldl_erased_fields m (set_keys (deleted_keys n))). }
      { apply lookup_put_eq. }
      cbn [mbind result_bind]. rewrite put_put.
      set (m2 := set_iterator_cache ic2 _).
      exists m2. split.
      { rewrite (modify_lookup _ _ _ n); [done|]. by rewrite lookup_put_ne. }
      unfold m2, m1. rewrite foldl_written_ic, set_iterator_cache_twice.
      destruct (foldl_written_fields (foldl (flip erased) m (set_keys (deleted_keys n)))
                  (ds_entries (cache n) (set_keys (updated_keys n)))) as (L1 & C1 & U1 & D1).
      destruct (foldl_erased_fields m (set_keys (deleted_keys n))) as (L2 & C2 & U2 & D2).
      unfold authored. split_and!.
      * unfold links in *. simpl. congruence.
      * simpl. rewrite D1, D2, list_to_set_set_keys, list_to_set_entry_keys. set_solver.
      * simpl. rewrite U1, U2, list_to_set_set_keys, list_to_set_entry_keys. set_solver.
      * intros k. simpl. rewrite C1, C2. apply lookup_written_through.
Qed.

(** ** [write_to] *)

Lemma write_to_walk_spec fuel h key q l :
  ancestry h q l → length l ≤ fuel →
  write_to_walk fuel h key (Some q) = Ok (make_kv key <$> merged_view l None key).
Proof.
  intros A. revert fuel.
  induction A as [q m Hm Hp|q m q' l Hm Hp A IH]; intros fuel L;
    (destruct fuel as [|f]; [simpl in L; lia|]);
    simpl; unfold get; rewrite Hm; simpl;
    (destruct (decide (key ∈ deleted_keys m)); [done|]);
    unfold ds_read; destruct (cache m !! key) as [v|] eqn:Ek; simpl; try done.
  - rewrite Hp. by destruct f.
  - rewrite Hp. apply IH. simpl in L. lia.
Qed.

Lemma write_to_results_spec fuel h p l keys :
  ancestry h p l → length l ≤ fuel →
  write_to_results fuel h p keys =
    Ok (omap (λ key, make_kv key <$> merged_view l None key) keys).
Proof.
  intros A L. induction keys as [|key keys IH]; simpl; [done|].
  rewrite (write_to_walk_spec fuel h key p l A L), IH. simpl.
  by destruct (merged_view l None key).
Qed.

(** C4, amended: [write_to(D, keys)] writes into [D], for each key of
    [keys], the value the key has in the merged view of the session's layers
    alone, from the session up to the head of its chain and without the
    backing store; it skips the keys this view has no value for, which are
    the keys hidden by a tombstone and the keys that no overlay holds. *)
Theorem write_to_copies_layer_view fuel h p l ds keys :
  ancestry h p l → length l ≤ fuel →
  ∃ ds', write_to fuel h (Some p) ds keys = Ok ds' ∧
         ∀ k, ds' !! k = if decide (k ∈ keys)
                         then match merged_view l None k with
                              | Some v => Some v
                              | None => ds !! k
                              end
                         else ds !! k.
Proof.
  intros A L. eexists. split.
  - simpl. rewrite (write_to_results_spec fuel h p l keys A L). simpl. reflexivity.
  - intros k.
    rewrite (lookup_write_batch _ (λ key, merged_view l None key)).
    + destruct (decide (k ∈ keys)) as [Hk|Hk].
      * destruct (merged_view l None k) as [v|] eqn:Ev.
        -- rewrite decide_True; [done|]. apply list_elem_of_fmap. exists (make_kv k v).
           split; [done|]. apply list_elem_of_omap. exists k. by rewrite Ev.
        -- rewrite decide_False; [done|].
           intros (kv & -> & (key & _ & Hkv)%list_elem_of_omap)%list_elem_of_fmap.
           destruct (merged_view l None key) eqn:E; simpl in Hkv; [|done].
           injection Hkv as <-. simpl in Ev. congruence.
      * rewrite decide_False; [done|].
        intros (kv & -> & (key & Hin & Hkv)%list_elem_of_omap)%list_elem_of_fmap.
        destruct (merged_view l None key) eqn:E; simpl in Hkv; [|done].
        injection Hkv as <-. done.
    + intros kv (key & _ & Hkv)%list_elem_of_omap.
      destruct (merged_view l None key) eqn:E; simpl in Hkv; [|done].
      by injection Hkv as <-.
Qed.

Lemma write_to_copies_layer_view_witness :
  ∃ ds', write_to 5 ex_heap (Some 2) {[ "c" := "0" ]} ["a"; "b"; "c"] = Ok ds' ∧
         ds' !! "a" = Some "1" ∧ ds' !! "b" = None ∧ ds' !! "c" = Some "0".
Proof.
  destruct (write_to_copies_layer_view 5 ex_heap 2 [(2, ex_tip); (1, ex_root)]
              {[ "c" := "0" ]} ["a"; "b"; "c"]) as (ds' & E & Hl).
  - apply ex_heap_ancestry.
  - simpl. lia.
  - exists ds'. split; [exact E|]. rewrite !Hl. split_and!; reflexivity.
Defined.

(** ** What [read] and [contains] return and change *)

Lemma cache_in_frame fuel h p kv h' :
  cache_in fuel h p kv = Ok h' →
  ∃ n ic, impls h !! p = Some n ∧
          h' = put p (set_iterator_cache ic (set_cache (ds_write (cache n) kv) n)) h.
Proof.
  unfold cache_in. intros H. inv_bind H as h1 H1. apply modify_Ok in H1 as (n & Hn & ->).
  apply update_iterator_cache_frame in H as (n' & ic & Hn' & _ & ->).
  rewrite lookup_put_eq in Hn'. injection Hn' as <-. exists n, ic. by rewrite put_put.
Qed.

Lemma cache_in_reads_into fuel h p kv h' : cache_in fuel h p kv = Ok h' → reads_into p h h'.
Proof. intros (n & ic & Hn & ->)%cache_in_frame. right. eauto. Qed.

Lemma read_backing_frame fuel h p k r h' n :
  impls h !! p = Some n → read_backing fuel h p k = Ok (r, h') →
  r = make_kv k <$> (base_store h n ≫= (.!! k)) ∧ reads_into p h h'.
Proof.
  intros Hn. unfold read_backing, get, base_store. rewrite Hn. simpl.
  destruct (backing_data_store n) as [b|]; simpl.
  - intros H. inv_bind H as ds Hds. apply deref_Ok in Hds. rewrite Hds. simpl.
    unfold ds_read in *. destruct (ds !! k) as [v|]; simpl in *.
    + inv_bind H as h1 H1. injection H as <- <-. split; [done|].
      by eapply cache_in_reads_into.
    + injection H as <- <-. split; [done|by left].
  - intros [= <- <-]. split; [done|by left].
Qed.

Lemma read_loop_frame fuel0 fuel h p n k q l r h' :
  impls h !! p = Some n → ancestry h q l →
  read_loop fuel0 fuel h p k (Some q) = Ok (r, h') →
  r = make_kv k <$> merged_view l (base_store h n) k ∧ reads_into p h h'.
Proof.
  intros Hn A. revert fuel.
  induction A as [q m Hm Hp|q m q' l Hm Hp A IH]; intros fuel H;
    (destruct fuel as [|f]; [done|]);
    simpl in H; unfold get in H; rewrite Hm in H; simpl in H; simpl;
    (destruct (decide (k ∈ deleted_keys m)); [injection H as <- <-; split; [done|by left]|]);
    unfold ds_read in H at 1; destruct (cache m !! k) as [v|] eqn:Ek; simpl in H.
  - destruct (decide (q ≠ p)).
    + inv_bind H as h1 H1. injection H as <- <-. split; [done|].
      by eapply cache_in_reads_into.
    + injection H as <- <-. split; [done|by left].
  - rewrite Hp in H. destruct f; simpl in H; by eapply read_backing_frame.
  - destruct (decide (q ≠ p)).
    + inv_bind H as h1 H1. injection H as <- <-. split; [done|].
      by eapply cache_in_reads_into.
    + injection H as <- <-. split; [done|by left].
  - rewrite Hp in H. by eapply IH.
Qed.

(** Whenever [read] returns, it returns the merged-view value. *)
Lemma read_value fuel h p n l k r h' :
  impls h !! p = Some n → ancestry h p l → read fuel h (Some p) k = Ok (r, h') →
  r = make_kv k <$> merged_view l (base_store h n) k ∧ reads_into p h h'.
Proof. intros Hn A H. by eapply read_loop_frame. Qed.

(** [read] changes the session's own layer only, whatever the chain. *)
Lemma read_loop_reads_into fuel0 fuel h p k cur r h' :
  is_Some (impls h !! p) →
  read_loop fuel0 fuel h p k cur = Ok (r, h') → reads_into p h h'.
Proof.
  intros [n Hn]. revert cur. induction fuel as [|f IH]; intros cur H.
  - destruct cur as [q|]; simpl in H; [done|].
    by eapply (read_backing_frame fuel0 h p k r h' n).
  - destruct cur as [q|]; simpl in H; [|by eapply (read_backing_frame fuel0 h p k r h' n)].
    inv_bind H as m Hm. destruct (decide (k ∈ deleted_keys m)).
    { injection H as <- <-. by left. }
    destruct (ds_read (cache m) k) as [kv|].
    + destruct (decide (q ≠ p)).
      * inv_bind H as h1 H1. injection H as <- <-. by eapply cache_in_reads_into.
      * injection H as <- <-. by left.
    + by eapply IH.
Qed.

Lemma read_reads_into fuel h p k r h' :
  read fuel h (Some p) k = Ok (r, h') → reads_into p h h'.
Proof.
  intros H. eapply read_loop_reads_into; [|done].
  simpl in H. destruct fuel; simpl in H; [done|].
  inv_bind H as m Hm. apply get_Ok in Hm. eauto.
Qed.

Lemma contains_loop_frame fuel0 fuel h p n k q l b h' :
  impls h !! p = Some n → ancestry h q l →
  contains_loop fuel0 fuel h p k (Some q) = Ok (b, h') →
  b = bool_decide (is_Some (merged_view l (base_store h n) k)) ∧ ic_update p h h'.
Proof.
  intros Hn A. revert fuel.
  assert (∀ f, contains_loop fuel0 f h p k None = Ok (b, h') →
          b = bool_decide (is_Some (base_store h n ≫= (.!! k))) ∧ ic_update p h h') as Hend.
  { intros f H. assert (contains_loop fuel0 f h p k None =
      (n ← get h p; ds ← backing h n; Ok (ds_contains ds k, h))) as E by (by destruct f).
    rewrite E in H. clear E. unfold get, backing, base_store in *. rewrite Hn in H.
    simpl in H. inv_bind H as ds Hds. injection H as <- <-.
    inv_bind Hds as b' Hb. apply deref_Ok in Hb, Hds. rewrite Hb. simpl. rewrite Hds.
    split; [done|]. by eapply ic_update_refl. }
  induction A as [q m Hm Hp|q m q' l Hm Hp A IH]; intros fuel H;
    (destruct fuel as [|f]; [done|]);
    simpl in H; unfold get in H; rewrite Hm in H; simpl in H; simpl;
    (destruct (decide (k ∈ deleted_keys m));
       [injection H as <- <-; split; [done|by eapply ic_update_refl]|]);
    unfold ds_contains in H at 1; destruct (cache m !! k) as [v|] eqn:Ek.
  - rewrite bool_decide_eq_true_2 in H by eauto. inv_bind H as h1 H1. injection H as <- <-.
    split; [done|]. by eapply update_iterator_cache_frame.
  - rewrite bool_decide_eq_false_2 in H by (by intros [? ?]). rewrite Hp in H.
    by apply Hend in H.
  - rewrite bool_decide_eq_true_2 in H by eauto. inv_bind H as h1 H1. injection H as <- <-.
    split; [done|]. by eapply update_iterator_cache_frame.
  - rewrite bool_decide_eq_false_2 in H by (by intros [? ?]). rewrite Hp in H.
    by eapply IH.
Qed.

(** Whenever [contains] returns, it tells whether the merged view has the
    key. *)
Lemma contains_value fuel h p n l k b h' :
  impls h !! p = Some n → ancestry h p l → contains fuel h (Some p) k = Ok (b, h') →
  b = bool_decide (is_Some (merged_view l (base_store h n) k)) ∧ ic_update p h h'.
Proof. intros Hn A H. by eapply contains_loop_frame. Qed.

Lemma contains_loop_changes fuel0 fuel h p k cur b h' :
  contains_loop fuel0 fuel h p k cur = Ok (b, h') → h' = h ∨ ic_update p h h'.
Proof.
  revert cur. induction fuel as [|f IH]; intros cur H.
  - destruct cur as [q|]; simpl in H; [done|]. inv_bind H as n Hn. inv_bind H as ds Hds.
    injection H as <- <-. by left.
  - destruct cur as [q|]; simpl in H.
    + inv_bind H as m Hm. destruct (decide (k ∈ deleted_keys m)).
      { injection H as <- <-. by left. }
      destruct (ds_contains (cache m) k).
      * inv_bind H as h1 H1. injection H as <- <-. right.
        by eapply update_iterator_cache_frame.
      * by eapply IH.
    + inv_bind H as n Hn. inv_bind H as ds Hds. injection H as <- <-. by left.
Qed.

Lemma reads_into_trans p h1 h2 h3 : reads_into p h1 h2 → reads_into p h2 h3 → reads_into p h1 h3.
Proof.
  intros [->|(n & c & ic & Hn & ->)]; [done|].
  intros [->|(n' & c' & ic' & Hn' & ->)]; [right; eauto|].
  rewrite lookup_put_eq in Hn'. injection Hn' as <-. right.
  exists n, c', ic'. split; [done|]. by rewrite put_put.
Qed.

Lemma ic_update_reads_into p h h' : ic_update p h h' → reads_into p h h'.
Proof.
  intros (n & ic & Hn & _ & ->). right. exists n, (cache n), ic. split; [done|].
  by destruct n.
Qed.

Lemma read_batch_walk_reads_into fuel0 fuel h p k cur r d h' :
  read_batch_walk fuel0 fuel h p k cur = Ok (r, d, h') → reads_into p h h'.
Proof.
  revert cur. induction fuel as [|f IH]; intros cur H.
  - destruct cur as [q|]; simpl in H; [done|]. injection H as <- <- <-. by left.
  - destruct cur as [q|]; simpl in H; [|injection H as <- <- <-; by left].
    inv_bind H as m Hm. destruct (decide (k ∈ deleted_keys m)).
    { injection H as <- <- <-. by left. }
    destruct (ds_read (cache m) k) as [kv|].
    + destruct (decide (q ≠ p)).
      * inv_bind H as h1 H1. injection H as <- <- <-. by eapply cache_in_reads_into.
      * injection H as <- <- <-. by left.
    + by eapply IH.
Qed.

Lemma read_batch_keys_reads_into fuel h p keys kvs nf r h' :
  read_batch_keys fuel h p keys kvs nf = Ok (r, h') → reads_into p h h'.
Proof.
  revert h kvs nf. induction keys as [|k keys IH]; intros h kvs nf H; simpl in H.
  - injection H as <- <-. by left.
  - inv_bind H as [[x d] h1] H1. apply read_batch_walk_reads_into in H1.
    destruct x; apply IH in H; by eapply reads_into_trans.
Qed.

Lemma read_batch_reads_into fuel h p keys r h' :
  read_batch fuel h (Some p) keys = Ok (r, h') → reads_into p h h'.
Proof.
  unfold read_batch. intros H. inv_bind H as [[kvs nf] h1] H1.
  apply read_batch_keys_reads_into in H1. inv_bind H as n Hn. apply get_Ok in Hn.
  destruct (backing_data_store n) as [b|]; [|injection H as <- <-; done].
  inv_bind H as ds Hds. destruct (ds_read_batch ds (set_keys nf)) as [found missing].
  inv_bind H as h2 H2. injection H as <- <-.
  eapply reads_into_trans; [done|].
  destruct (bool_decide (found ≠ [])); [|injection H2 as <-; by left].
  apply modify_Ok in H2 as (n' & Hn' & ->). right.
  exists n', (ds_write_batch (cache n') found), (iterator_cache n'). split; [done|].
  by destruct n'.
Qed.

Lemma make_iterator_frame fuel h p pred cmp mv prime it h' :
  make_iterator_ fuel h (Some p) pred cmp mv prime = Ok (it, h') → ic_update p h h'.
Proof.
  unfold make_iterator_. intros H. inv_bind H as [k|] Hk.
  - inv_bind H as h1 H1. inv_bind H as it' Hit. injection H as _ <-.
    by eapply update_iterator_cache_frame.
  - injection H as _ <-. apply find_start_lookup in Hk as [n Hn]. by eapply ic_update_refl.
Qed.

(** [contains] returns on an iterable session. *)
Lemma contains_loop_total fuel0 fuel h p k q l :
  iterable fuel0 h p → ancestry h q l → length l ≤ fuel →
  ∃ b h', contains_loop fuel0 fuel h p k (Some q) = Ok (b, h').
Proof.
  intros I A. revert fuel.
  assert (∀ f, ∃ b h', contains_loop fuel0 f h p k None = Ok (b, h')) as Hend.
  { intros f.
    pose proof I as (l' & r & cl & n & b & ds & _ & _ & _ & _ & _ & Hn & Hb & Hs).
    exists (ds_contains ds k), h. destruct f; simpl; unfold get, backing; rewrite Hn; simpl;
      rewrite Hb; simpl; by rewrite Hs. }
  induction A as [q m Hm Hp|q m q' l Hm Hp A IH]; intros fuel L;
    (destruct fuel as [|f]; [simpl in L; lia|]);
    simpl; unfold get; rewrite Hm; simpl;
    (destruct (decide (k ∈ deleted_keys m)); [eauto|]);
    destruct (ds_contains (cache m) k).
  - destruct (update_iterator_cache_total fuel0 h p k read_params I) as [h' ->]. simpl. eauto.
  - rewrite Hp. apply Hend.
  - destruct (update_iterator_cache_total fuel0 h p k read_params I) as [h' ->]. simpl. eauto.
  - rewrite Hp. apply IH. simpl in L. lia.
Qed.

Lemma contains_spec fuel h p n l k :
  impls h !! p = Some n → ancestry h p l → length l ≤ fuel → iterable fuel h p →
  ∃ h', contains fuel h (Some p) k =
          Ok (bool_decide (is_Some (merged_view l (base_store h n) k)), h') ∧
        ic_update p h h'.
Proof.
  intros Hn A L I. destruct (contains_loop_total fuel fuel h p k p l I A L) as (b & h' & E).
  destruct (contains_value fuel h p n l k b h' Hn A E) as [-> U]. eauto.
Qed.

(** Where [read] is defined.  For a session with a finite chain above it,
    [read(K)] can only return the merged-view value of [K] for the layers
    from the session up to the head of its chain, over the session's backing
    store when it has one, and it changes nothing but the session's overlay
    and iterator cache.  It does return on a session that [make_iterator_]
    is defined on or that is a free-standing layer:
    the heap is then unchanged when the session's own overlay holds the key
    or the view has no value, and when the value comes from a layer above or
    from the backing store it is written into the session's overlay and
    [update_iterator_cache] has run for the key. *)
Theorem read_returns_merged_view fuel h p n l k :
  impls h !! p = Some n → ancestry h p l →
  (∀ r h', read fuel h (Some p) k = Ok (r, h') →
           r = make_kv k <$> merged_view l (base_store h n) k ∧ reads_into p h h') ∧
  (length l ≤ fuel → iterable fuel h p ∨ free_standing h p →
   ∃ h', read fuel h (Some p) k = Ok (make_kv k <$> merged_view l (base_store h n) k, h') ∧
         (is_Some (cache n !! k) ∨ merged_view l (base_store h n) k = None → h' = h) ∧
         (∀ v, cache n !! k = None → merged_view l (base_store h n) k = Some v →
               cached_in fuel p n k v h h')).
Proof.
  intros Hn A. split.
  - intros r h' H. by eapply read_value.
  - intros L Hs. by apply read_spec.
Qed.

Lemma read_returns_merged_view_witness :
  ∃ h', read 5 ex_heap (Some 2) "a" = Ok (Some (make_kv "a" "1"), h') ∧
        cached_in 5 2 ex_tip "a" "1" ex_heap h'.
Proof.
  destruct (read_returns_merged_view 5 ex_heap 2 ex_tip [(2, ex_tip); (1, ex_root)] "a")
    as [_ T].
  - reflexivity.
  - apply ex_heap_ancestry.
  - destruct T as (h' & E & _ & Hc).
    + simpl. lia.
    + left. apply ex_heap_iterable.
    + exists h'. split; [exact E|]. apply Hc; reflexivity.
Defined.

(** ** Updated and deleted keys stay disjoint *)

Lemma disjoint_keys_put h p n :
  disjoint_keys h → updated_keys n ## deleted_keys n → disjoint_keys (put p n h).
Proof.
  intros D Hn q m Hm. destruct (decide (p = q)) as [->|Hne].
  - rewrite lookup_put_eq in Hm. by injection Hm as <-.
  - rewrite lookup_put_ne in Hm by done. by eapply D.
Qed.

Lemma disjoint_keys_modify h p f h' :
  modify p f h = Ok h' →
  (∀ n, updated_keys n ## deleted_keys n → updated_keys (f n) ## deleted_keys (f n)) →
  disjoint_keys h → disjoint_keys h'.
Proof.
  intros (n & Hn & ->)%modify_Ok Hf D. apply disjoint_keys_put; [done|]. apply Hf. by eapply D.
Qed.

Lemma disjoint_keys_stores h s : disjoint_keys h → disjoint_keys (Heap (impls h) s).
Proof. intros D p n Hn. by eapply D. Qed.

Lemma write_disjoint fuel h s kv h' :
  disjoint_keys h → write fuel h s kv = Ok h' → disjoint_keys h'.
Proof.
  intros D H. destruct s as [p|]; [|by injection H as <-].
  apply write_frame in H as (n & ic & Hn & ->). apply disjoint_keys_put; [done|].
  specialize (D p n Hn). simpl. set_solver.
Qed.

Lemma erase_disjoint fuel h s key h' :
  disjoint_keys h → erase fuel h s key = Ok h' → disjoint_keys h'.
Proof.
  intros D H. destruct s as [p|]; [|by injection H as <-].
  apply erase_frame in H as (n & ic & Hn & ->). apply disjoint_keys_put; [done|].
  specialize (D p n Hn). simpl. set_solver.
Qed.

Lemma write_each_disjoint fuel h s kvs h' :
  disjoint_keys h → write_each fuel h s kvs = Ok h' → disjoint_keys h'.
Proof.
  revert h. induction kvs as [|kv kvs IH]; intros h D H; simpl in H.
  - by injection H as <-.
  - inv_bind H as h1 H1. eapply IH; [|done]. by eapply write_disjoint.
Qed.

Lemma erase_each_disjoint fuel h s ks h' :
  disjoint_keys h → erase_each fuel h s ks = Ok h' → disjoint_keys h'.
Proof.
  revert h. induction ks as [|k ks IH]; intros h D H; simpl in H.
  - by injection H as <-.
  - inv_bind H as h1 H1. eapply IH; [|done]. by eapply erase_disjoint.
Qed.

Lemma write_batch_disjoint fuel h s kvs h' :
  disjoint_keys h → write_batch fuel h s kvs = Ok h' → disjoint_keys h'.
Proof.
  intros D H. destruct s; [by eapply write_each_disjoint|by injection H as <-].
Qed.

Lemma erase_batch_disjoint fuel h s ks h' :
  disjoint_keys h → erase_batch fuel h s ks = Ok h' → disjoint_keys h'.
Proof.
  intros D H. destruct s; [by eapply erase_each_disjoint|by injection H as <-].
Qed.

Lemma reads_into_disjoint p h h' : reads_into p h h' → disjoint_keys h → disjoint_keys h'.
Proof.
  intros [->|(n & c & ic & Hn & ->)] D; [done|]. apply disjoint_keys_put; [done|].
  by apply (D p n).
Qed.

Lemma read_disjoint fuel h s k r h' :
  disjoint_keys h → read fuel h s k = Ok (r, h') → disjoint_keys h'.
Proof.
  intros D H. destruct s as [p|]; [|by injection H as _ <-].
  eapply reads_into_disjoint; [|done]. by eapply read_reads_into.
Qed.

Lemma clear_disjoint h s h' : disjoint_keys h → clear h s = Ok h' → disjoint_keys h'.
Proof.
  intros D H. destruct s as [p|]; [|by injection H as <-].
  eapply disjoint_keys_modify; [done| |done]. intros n _. simpl. set_solver.
Qed.

Lemma undo_disjoint h s h' : disjoint_keys h → undo h s = Ok h' → disjoint_keys h'.
Proof.
  intros D H. destruct s as [p|]; [|by injection H as <-].
  unfold undo, impl_undo in H. inv_bind H as n Hn. inv_bind H as h1 H1.
  inv_bind H as n1 Hn1. inv_bind H as h2 H2.
  assert (disjoint_keys h1) as D1.
  { destruct (parent n); [|by injection H1 as <-].
    eapply disjoint_keys_modify; [done| |done]. by intros. }
  assert (disjoint_keys h2) as D2.
  { destruct (lock h1 (child n1)); [|by injection H2 as <-].
    eapply disjoint_keys_modify; [done| |done]. by intros. }
  eapply disjoint_keys_modify; [done| |done]. intros m _. simpl. set_solver.
Qed.

Lemma commit_disjoint fuel h s h' :
  disjoint_keys h → commit fuel h s = Ok h' → disjoint_keys h'.
Proof.
  intros D H. destruct s as [p|]; [|by injection H as <-].
  unfold commit, impl_commit in H. inv_bind H as n Hn.
  destruct (bool_decide (parent n = None) && bool_decide (backing_data_store n = None));
    [by injection H as <-|].
  destruct (bool_decide (updated_keys n = ∅) && bool_decide (deleted_keys n = ∅));
    [by injection H as <-|].
  destruct (parent n) as [q|].
  - inv_bind H as h1 H1. inv_bind H as n1 Hn1. inv_bind H as h2 H2.
    apply erase_batch_disjoint in H1; [|done]. apply write_batch_disjoint in H2; [|done].
    eapply disjoint_keys_modify; [done| |done]. intros m _. simpl. set_solver.
  - inv_bind H as b Hb. inv_bind H as ds Hds.
    eapply disjoint_keys_modify; [done| |by apply disjoint_keys_stores].
    intros m _. simpl. set_solver.
Qed.

Lemma ic_update_disjoint p h h' : ic_update p h h' → disjoint_keys h → disjoint_keys h'.
Proof.
  intros (n & ic & Hn & _ & ->) D. apply disjoint_keys_put; [done|]. by apply (D p n).
Qed.

Lemma contains_disjoint fuel h s k b h' :
  disjoint_keys h → contains fuel h s k = Ok (b, h') → disjoint_keys h'.
Proof.
  intros D H. destruct s as [p|]; [|by injection H as _ <-].
  apply contains_loop_changes in H as [->|U]; [done|]. by eapply ic_update_disjoint.
Qed.

Lemma make_iterator_disjoint fuel h s pred cmp mv prime it h' :
  disjoint_keys h → make_iterator_ fuel h s pred cmp mv prime = Ok (it, h') → disjoint_keys h'.
Proof.
  intros D H. destruct s as [p|]; [|by injection H as _ <-].
  eapply ic_update_disjoint; [|done]. by eapply make_iterator_frame.
Qed.

Lemma new_session_disjoint h ds cds : disjoint_keys h → disjoint_keys (new_session h ds cds).2.
Proof.
  intros D p n Hn. simpl in Hn. apply lookup_insert_Some in Hn as [[_ <-]|[_ Hn]].
  - simpl. set_solver.
  - by eapply D.
Qed.

Lemma make_session_disjoint h s r h' :
  disjoint_keys h → make_session h s = Ok (r, h') → disjoint_keys h'.
Proof.
  intros D H. unfold make_session in H. inv_bind H as p Hp. inv_bind H as pn Hpn.
  inv_bind H as h1 H1. inv_bind H as h3 H3. injection H as _ <-.
  assert (disjoint_keys h1) as D1.
  { destruct (lock h (child pn)); [|by injection H1 as <-].
    eapply disjoint_keys_modify; [done| |done]. by intros. }
  eapply disjoint_keys_modify; [done| |].
  - by intros.
  - apply disjoint_keys_put; [done|]. simpl. set_solver.
Qed.

Lemma detach_disjoint h s r h' : disjoint_keys h → detach h s = Ok (r, h') → disjoint_keys h'.
Proof.
  intros D H. destruct s as [p|]; [|by injection H as _ <-].
  unfold detach in H. inv_bind H as n Hn. inv_bind H as h1 H1. inv_bind H as h2 H2.
  injection H as _ <-.
  assert (disjoint_keys h1) as D1.
  { destruct (lock h (child n)); [|by injection H1 as <-].
    eapply disjoint_keys_modify; [done| |done]. by intros. }
  eapply disjoint_keys_modify; [done| |done]. by intros.
Qed.

Lemma prime_cache_disjoint fuel h p h' :
  disjoint_keys h → prime_cache fuel h p = Ok h' → disjoint_keys h'.
Proof.
  revert h p. induction fuel as [|f IH]; intros h p D H; [done|].
  simpl in H. inv_bind H as h1 H1. inv_bind H as h2 H2. inv_bind H as n Hn.
  assert (disjoint_keys h2) as D2.
  { eapply disjoint_keys_modify; [exact H2|by intros|].
    eapply disjoint_keys_modify; [exact H1|by intros|done]. }
  destruct (lock h2 (child n)); [by eapply IH|by injection H as <-].
Qed.

Lemma attach_disjoint fuel h s c r h' :
  disjoint_keys h → attach fuel h s c = Ok (r, h') → disjoint_keys h'.
Proof.
  intros D H. destruct s as [p|]; [|by injection H as _ <-].
  unfold attach in H. inv_bind H as [cc h1] H1. apply detach_disjoint in H1; [|done].
  inv_bind H as c' Hc. inv_bind H as h2 H2. inv_bind H as n Hn. inv_bind H as h3 H3.
  inv_bind H as h4 H4. inv_bind H as h5 H5. injection H as _ <-.
  eapply prime_cache_disjoint; [|done].
  eapply disjoint_keys_modify; [exact H4|by intros|].
  eapply disjoint_keys_modify; [exact H3|by intros|].
  eapply disjoint_keys_modify; [exact H2|by intros|done].
Qed.

Lemma run_disjoint fuel h o h' : disjoint_keys h → run fuel h o = Ok h' → disjoint_keys h'.
Proof.
  intros D H. destruct o; simpl in H.
  - by eapply write_disjoint.
  - by eapply erase_disjoint.
  - by eapply write_batch_disjoint.
  - by eapply erase_batch_disjoint.
  - apply fmap_Ok in H as ([r h1] & H & ->). by eapply read_disjoint.
  - apply fmap_Ok in H as ([r h1] & H & ->). destruct s as [p|].
    + eapply reads_into_disjoint; [|done]. by eapply read_batch_reads_into.
    + by injection H as _ <-.
  - apply fmap_Ok in H as ([r h1] & H & ->). by eapply contains_disjoint.
  - apply fmap_Ok in H as ([r h1] & H & ->). by eapply make_iterator_disjoint.
  - apply fmap_Ok in H as ([r h1] & H & ->). by eapply make_iterator_disjoint.
  - apply fmap_Ok in H as ([r h1] & H & ->). by eapply make_iterator_disjoint.
  - apply fmap_Ok in H as ([r h1] & H & ->). by eapply make_iterator_disjoint.
  - apply fmap_Ok in H as ([r h1] & H & ->). by eapply make_iterator_disjoint.
  - by eapply commit_disjoint.
  - by eapply clear_disjoint.
  - by eapply undo_disjoint.
  - injection H as <-. by apply new_session_disjoint.
  - apply fmap_Ok in H as ([r h1] & H & ->). by eapply make_session_disjoint.
  - apply fmap_Ok in H as ([r h1] & H & ->). by eapply attach_disjoint.
  - apply fmap_Ok in H as ([r h1] & H & ->). by eapply detach_disjoint.
Qed.

Lemma initial_heap_disjoint : disjoint_keys initial_heap.
Proof.
  intros p n Hn. unfold initial_heap in Hn. simpl in Hn.
  apply lookup_singleton_Some in Hn as [_ <-]. simpl. set_solver.
Qed.

(** C8: from a heap in which the updated and the deleted keys of every
    layer are disjoint, as in the initial heap, no sequence of [write],
    [erase], batch [write], batch [erase], [read], [commit], [clear] and
    [undo] (nor of these with the batch [read], [contains], the iterator
    constructions, the session constructors, [attach] and [detach]) reaches a
    heap in which a key is both updated and deleted in a layer.  Every [write] that returns leaves its key in the updated set and
    out of the deleted set of the session, every [erase] the other way round,
    and both return on an iterable session. *)
Theorem updated_deleted_disjoint fuel h :
  (∀ os h', disjoint_keys h → run_all fuel h os = Ok h' →
     ∀ p n k, impls h' !! p = Some n → ¬ (k ∈ updated_keys n ∧ k ∈ deleted_keys n)) ∧
  (∀ p kv h', write fuel h (Some p) kv = Ok h' →
     ∃ n, impls h' !! p = Some n ∧ kv_key kv ∈ updated_keys n ∧ kv_key kv ∉ deleted_keys n) ∧
  (∀ p key h', erase fuel h (Some p) key = Ok h' →
     ∃ n, impls h' !! p = Some n ∧ key ∈ deleted_keys n ∧ key ∉ updated_keys n) ∧
  (∀ p kv, iterable fuel h p → ∃ h', write fuel h (Some p) kv = Ok h') ∧
  (∀ p key, iterable fuel h p → ∃ h', erase fuel h (Some p) key = Ok h').
Proof.
  split_and!.
  - intros os. revert h. induction os as [|o os IH]; intros h h' D H p n k Hn [Hu Hd].
    + injection H as <-. by apply (D p n Hn k).
    + simpl in H. inv_bind H as h1 H1. eapply (IH h1); [|done|done|done].
      by eapply run_disjoint.
  - intros p kv h' (n & ic & Hn & ->)%write_frame. eexists. split; [apply lookup_put_eq|].
    simpl. set_solver.
  - intros p key h' (n & ic & Hn & ->)%erase_frame. eexists. split; [apply lookup_put_eq|].
    simpl. set_solver.
  - intros p kv I. destruct (iterable_lookup _ _ _ I) as [n Hn].
    destruct (write_spec fuel h p n kv I Hn) as (ic & E & _). eauto.
  - intros p key I. destruct (iterable_lookup _ _ _ I) as [n Hn].
    destruct (erase_spec fuel h p n key I Hn) as (ic & E & _). eauto.
Qed.

Lemma ex_heap_disjoint : disjoint_keys ex_heap.
Proof.
  intros p n H. unfold ex_heap in H. simpl in H.
  apply lookup_insert_Some in H as [[<- <-]|[_ H]]; [simpl; set_solver|].
  apply lookup_singleton_Some in H as [<- <-]. simpl. set_solver.
Qed.

Lemma updated_deleted_disjoint_witness :
  ∃ h', run_all 5 ex_heap
          [op_write (Some 2) (make_kv "c" "4"); op_erase (Some 2) "a"; op_read (Some 2) "b";
           op_commit (Some 2)] = Ok h' ∧
        ∀ p n k, impls h' !! p = Some n → ¬ (k ∈ updated_keys n ∧ k ∈ deleted_keys n).
Proof.
  pose proof (proj1 (updated_deleted_disjoint 5 ex_heap)) as T.
  destruct (run_all 5 ex_heap
          [op_write (Some 2) (make_kv "c" "4"); op_erase (Some 2) "a"; op_read (Some 2) "b";
           op_commit (Some 2)]) as [h'| |] eqn:E.
  - exists h'. split; [reflexivity|]. exact (T _ h' ex_heap_disjoint E).
  - exfalso. vm_compute in E. discriminate E.
  - exfalso. vm_compute in E. discriminate E.
Defined.

(** ** Operations that change one layer *)










(** ** Empty handles and [session::invalid] *)




(** ** [undo] *)

Lemma lock_put h p n n' w : impls h !! p = Some n → lock (put p n' h) w = lock h w.
Proof.
  intros Hn. destruct w as [c|]; [|done]. simpl. destruct (decide (p = c)) as [->|Hne].
  - by rewrite lookup_insert_eq, Hn.
  - by rewrite lookup_insert_ne.
Qed.


(** ** Nesting a session *)

Lemma fresh_impl h : impls h !! fresh (dom (impls h)) = None.
Proof. apply not_elem_of_dom. apply is_fresh. Qed.

Lemma make_session_spec h p pn :
  impls h !! p = Some pn → lock h (child pn) ≠ Some p →
  ∃ h', make_session h (Some p) = Ok (Some (fresh (dom (impls h))), h') ∧
        stores h' = stores h ∧
        impls h' !! fresh (dom (impls h)) =
          Some (SessionImpl (Some p) None (backing_data_store pn) ∅ ∅ ∅ ∅) ∧
        impls h' !! p = Some (set_child (Some (fresh (dom (impls h)))) pn) ∧
        (∀ q, q ≠ fresh (dom (impls h)) → q ≠ p → lock h (child pn) ≠ Some q →
              impls h' !! q = impls h !! q) ∧
        (∀ c cn, lock h (child pn) = Some c → impls h !! c = Some cn →
                 impls h' !! c = Some (set_parent None (set_backing None cn))).
Proof.
  intros Hpn Hc. pose proof (fresh_impl h) as Hf. set (t := fresh (dom (impls h))) in *.
  assert (t ≠ p) as Htp by (intros ->; congruence).
  unfold make_session, get. simpl. rewrite Hpn. simpl. fold t.
  destruct (lock h (child pn)) as [c|] eqn:El.
  - assert (∃ cn, impls h !! c = Some cn) as [cn Hcn].
    { destruct (child pn) as [c'|]; [|done]. simpl in El.
      destruct (impls h !! c') eqn:E; [|done]. injection El as <-. eauto. }
    assert (c ≠ p) by congruence. assert (c ≠ t) by (intros ->; congruence).
    rewrite (modify_lookup _ _ _ _ Hcn). simpl.
    rewrite (modify_lookup _ _ _ pn) by (by rewrite !lookup_put_ne).
    eexists. split; [done|]. split_and!.
    + done.
    + by rewrite lookup_put_ne, lookup_put_eq.
    + apply lookup_put_eq.
    + intros q Hq1 Hq2 Hq3. rewrite !lookup_put_ne; [done| |done|done]. congruence.
    + intros c' cn' [= <-] Hcn'. rewrite !lookup_put_ne by done. rewrite lookup_put_eq.
      congruence.
  - simpl. rewrite (modify_lookup _ _ _ pn) by (by rewrite lookup_put_ne).
    eexists. split; [done|]. split_and!.
    + done.
    + by rewrite lookup_put_ne, lookup_put_eq.
    + apply lookup_put_eq.
    + intros q Hq1 Hq2 _. by rewrite !lookup_put_ne.
    + done.
Qed.

(** ** Local operations *)






(** ** The merged view depends on the layers above only *)

Lemma merged_view_agree h h' p l :
  ancestry h p l →
  (∀ q, q ∈ l.*1 → layer_state <$> impls h' !! q = layer_state <$> impls h !! q) →
  ∃ l', ancestry h' p l' ∧ l'.*1 = l.*1 ∧
        ∀ base k, merged_view l' base k = merged_view l base k.
Proof.
  intros A. induction A as [p n Hn Hp|p n q l Hn Hp A IH]; intros Hs.
  - pose proof (Hs p) as E. rewrite Hn in E. rewrite fmap_cons in E.
    specialize (E ltac:(left)).
    destruct (impls h' !! p) as [n'|] eqn:Hn'; [|done]. simpl in E.
    unfold layer_state in E. injection E as E1 E2 E3 E4 E5.
    exists [(p, n')]. split_and!; [constructor; [done|congruence]|done|].
    intros base k. simpl. by rewrite E3, E5.
  - destruct IH as (l' & A' & El & Hv).
    { intros x Hx. apply Hs. rewrite fmap_cons. by right. }
    pose proof (Hs p) as E. rewrite Hn in E. rewrite fmap_cons in E.
    specialize (E ltac:(left)).
    destruct (impls h' !! p) as [n'|] eqn:Hn'; [|done]. simpl in E.
    unfold layer_state in E. injection E as E1 E2 E3 E4 E5.
    exists ((p, n') :: l'). split_and!.
    + eapply ancestry_step; [done| |done]. congruence.
    + by rewrite !fmap_cons, El.
    + intros base k. simpl. by rewrite E3, E5, Hv.
Qed.

(** ** The chain of children after a nested session was undone *)



Lemma ancestry_in_lookup h p l q : ancestry h p l → q ∈ l.*1 → is_Some (impls h !! q).
Proof.
  intros A Hq. destruct (ancestry_in _ _ _ _ A Hq) as (l2 & A2 & _).
  apply ancestry_lookup in A2 as (n & _ & _ & Hn). eauto.
Qed.

Lemma lock_Some h w c : lock h w = Some c → w = Some c ∧ is_Some (impls h !! c).
Proof.
  destruct w as [d|]; [|done]. simpl. destruct (impls h !! d) eqn:E; [|done].
  intros [= <-]. eauto.
Qed.

Lemma lock_lookup h c n : impls h !! c = Some n → lock h (Some c) = Some c.
Proof. intros H. simpl. by rewrite H. Qed.




(** ** The sessions that the constructors build are iterable *)

Lemma fresh_store h : stores h !! fresh (dom (stores h)) = None.
Proof. apply not_elem_of_dom. apply is_fresh. Qed.

(** A new root session is iterable. *)
Lemma new_session_iterable fuel h ds cds :
  1 ≤ fuel →
  iterable fuel (new_session h ds cds).2 (fresh (dom (impls h))).
Proof.
  intros L. unfold new_session. simpl.
  set (p := fresh (dom (impls h))). set (b := fresh (dom (stores h))).
  set (n := SessionImpl None None (Some b) cds ∅ ∅ ∅).
  exists [(p, n)], p, [p], n, b, ds. split_and!; try done.
  - apply ancestry_head; [apply lookup_insert_eq|done].
  - eapply child_chain_cons; [apply lookup_insert_eq|]. apply child_chain_nil.
  - apply lookup_insert_eq.
  - apply lookup_insert_eq.
Qed.

Lemma child_chain_nested h h' p pn t w l :
  (∀ q n, impls h !! q = Some n → q ≠ p → ∃ n', impls h' !! q = Some n' ∧ child n' = child n) →
  impls h !! p = Some pn → lock h (child pn) = None →
  (∃ n', impls h' !! p = Some n' ∧ child n' = Some t) →
  impls h !! t = None → (∃ n', impls h' !! t = Some n' ∧ child n' = None) →
  (∀ q, q ≠ t → impls h !! q = None → impls h' !! q = None) →
  child_chain h (lock h w) l →
  ∃ l', child_chain h' (lock h' w) l' ∧ length l' ≤ S (length l).
Proof.
  intros Hkeep Hpn Hpl (pn' & Hp' & Hpc) Ht (tn' & Ht' & Htc) Hnone C.
  assert (child_chain h' (Some t) [t]) as Ct.
  { econstructor; [done|]. rewrite Htc. constructor. }
  remember (lock h w) as c eqn:Ec. revert w Ec.
  induction C as [|q n l Hn C IH]; intros w Ec.
  - destruct w as [d|]; [|exists []; split; [constructor|simpl; lia]].
    simpl in Ec. destruct (impls h !! d) as [x|] eqn:Ed; [done|].
    destruct (decide (d = t)) as [->|Hdt].
    + exists [t]. split; [|simpl; lia]. simpl. by rewrite Ht'.
    + exists []. split; [|simpl; lia]. simpl. rewrite (Hnone d Hdt Ed). constructor.
  - destruct w as [d|]; [|done]. simpl in Ec.
    destruct (impls h !! d) as [x|] eqn:Ed; [|done]. injection Ec as <-.
    assert (x = n) as -> by congruence.
    destruct (decide (q = p)) as [->|Hqp].
    + assert (n = pn) as -> by congruence. rewrite Hpl in C. inversion C; subst.
      exists [p; t]. split; [|simpl; lia]. simpl. rewrite Hp'.
      econstructor; [done|]. rewrite Hpc. simpl. by rewrite Ht'.
    + destruct (Hkeep q n Hn Hqp) as (n' & Hn' & Hc').
      destruct (IH (child n) eq_refl) as (l' & C' & L').
      exists (q :: l'). split; [|simpl; lia]. simpl. rewrite Hn'.
      econstructor; [done|]. by rewrite Hc'.
Qed.

(** A session nested on an iterable session without child is iterable,
    with one more step. *)
Lemma make_session_iterable f h p pn :
  iterable f h p → impls h !! p = Some pn → lock h (child pn) = None →
  ∃ h', make_session h (Some p) = Ok (Some (fresh (dom (impls h))), h') ∧
        iterable (S f) h' (fresh (dom (impls h))).
Proof.
  intros (l & r & cl & n & b & ds & A & Hr & C & L1 & L2 & Hn & Hb & Hs) Hpn Hl.
  assert (n = pn) as -> by congruence.
  destruct (make_session_spec h p pn Hpn) as (h' & Em & S1 & Ht1 & Hp1 & O1 & _).
  { by rewrite Hl. }
  pose proof (fresh_impl h) as Hf. set (t := fresh (dom (impls h))) in *.
  assert (p ≠ t) as Hpt by (intros ->; congruence).
  assert (∀ q, q ≠ t → q ≠ p → impls h' !! q = impls h !! q) as O1'.
  { intros q ? ?. apply O1; [done|done|]. by rewrite Hl. }
  exists h'. split; [done|].
  destruct (merged_view_agree h h' p l A) as (l' & A' & El & _).
  { intros q Hq. destruct (decide (q = p)) as [->|Hqp].
    - by rewrite Hp1, Hpn.
    - rewrite O1'; [done| |done]. intros ->.
      destruct (ancestry_in_lookup _ _ _ _ A Hq) as [? ?]. congruence. }
  assert (∃ rn, impls h !! r = Some rn) as [rn Hrn] by (inversion C; eauto).
  assert (r ≠ t) as Hrt by (intros ->; congruence).
  assert (∃ rn', impls h' !! r = Some rn') as [rn' Hrn'].
  { destruct (decide (r = p)) as [->|Hrp]; [eauto|]. rewrite O1' by done. eauto. }
  destruct (child_chain_nested h h' p pn t (Some r) cl) as (cl' & C' & L'); eauto.
  { intros q m Hm Hqp. exists m. split; [|done]. rewrite O1'; [done| |done].
    intros ->. congruence. }
  { intros q Hqt Hq. rewrite O1'; [done|done|]. intros ->. congruence. }
  { by rewrite (lock_lookup _ _ _ Hrn). }
  rewrite (lock_lookup _ _ _ Hrn') in C'.
  eexists ((t, _) :: l'), r, cl', _, b, ds. split_and!.
  - eapply ancestry_step; [exact Ht1|done|done].
  - unfold chain_head in *. rewrite fmap_cons, El.
    destruct (ancestry_lookup _ _ _ A) as (? & ? & -> & _). done.
  - done.
  - simpl. rewrite <-(length_fmap fst), El, length_fmap. lia.
  - lia.
  - exact Ht1.
  - done.
  - by rewrite S1.
Qed.

(** ** The code at concrete inputs *)

Lemma ex_heap_root_iterable : iterable 5 ex_heap 1.
Proof.
  exists [(1, ex_root)], 1, [1; 2], ex_root, 1, {[ "b" := "2" ]}.
  split_and!; try reflexivity.
  - by apply ancestry_head.
  - apply ex_heap_children.
  - simpl. lia.
  - simpl. lia.
Qed.

Lemma commit_writes_through_witness :
  ∃ m', commit 5 ex_heap (Some 2) = Ok (put 2 (clear_impl ex_tip) (put 1 m' ex_heap)) ∧
        links m' = links ex_root ∧
        deleted_keys m' = (deleted_keys ex_root ∪ deleted_keys ex_tip) ∖ authored ex_tip ∧
        updated_keys m' = (updated_keys ex_root ∖ deleted_keys ex_tip) ∪ authored ex_tip ∧
        cache m' !! "a" = Some "1" ∧ cache m' !! "c" = None.
Proof.
  destruct (commit_writes_through 5 ex_heap 2 ex_tip) as [_ T]; [reflexivity|].
  destruct T as (_ & _ & T).
  { right. intros E. assert ("c" ∈ deleted_keys ex_tip) as Hc by (simpl; set_solver).
    rewrite E in Hc. set_solver. }
  destruct (T 1 ex_root) as (m' & E & Hl & Hd & Hu & Hc).
  - reflexivity.
  - lia.
  - reflexivity.
  - apply ex_heap_root_iterable.
  - exists m'. split_and!; [exact E|exact Hl|exact Hd|exact Hu| |].
    + rewrite Hc. reflexivity.
    + rewrite Hc. reflexivity.
Defined.

(** The counterexample to C2 as stated: a root that holds a read-through
    entry only is not emptied by [commit], which returns the heap as it
    is. *)
Lemma commit_keeps_cached_reads :
  ∃ h n, read_then_commit = Ok (h, h) ∧ impls h !! 1 = Some n ∧
         is_Some (backing_data_store n) ∧
         updated_keys n = ∅ ∧ deleted_keys n = ∅ ∧
         cache n !! "b" = Some "2" ∧ ¬ emptied n.
Proof.
  destruct read_then_commit as [[h1 h2]| |] eqn:E;
    [|vm_compute in E; discriminate E|vm_compute in E; discriminate E].
  vm_compute in E. injection E as <- <-.
  eexists _, _. split_and!; [reflexivity|reflexivity|by eexists|reflexivity|reflexivity
                            |reflexivity|].
  intros (_ & _ & Hc & _). vm_compute in Hc. discriminate Hc.
Qed.

(** Why the parent is taken to have its backing store: below a parent that
    [detach] left without one, the commit of a layer that holds an update
    and still has its own backing store ends in the unchecked
    [*m_impl->backing_data_store] of [make_iterator_], reached through the
    parent's [write]. *)
Lemma commit_below_detached_faults :
  ∃ s h n q m,
    commit_below_detached = Ok (Some s, h, Fault) ∧
    impls h !! s = Some n ∧ parent n = Some q ∧ is_Some (backing_data_store n) ∧
    updated_keys n ≠ ∅ ∧ impls h !! q = Some m ∧ backing_data_store m = None.
Proof.
  destruct commit_below_detached as [[[s h] r]| |] eqn:E;
    [|vm_compute in E; discriminate E|vm_compute in E; discriminate E].
  vm_compute in E. injection E as <- <- <-.
  eexists _, _, _, _, _.
  split_and!; [reflexivity|reflexivity|reflexivity|by eexists| |reflexivity|reflexivity].
  intros H. assert ("a" ∈ (∅ : gset string)) as Ha; [|set_solver].
  rewrite <- H. vm_compute. set_solver.
Qed.

(** C3: after [erase("a")] on a root over a store that holds ["a"], the
    batch read of ["a"] does not report the key missing: it fetches the
    tombstoned key from the backing store, returns its key/value and writes it
    into the session's overlay, while the single-key [read] returns
    invalid. *)
Theorem batch_read_fetches_tombstoned_key :
  erased_then_batch_read = Ok ([make_kv "a" "1"], ∅, Some "1") ∧
  erased_then_read = Ok None.
Proof. split; vm_compute; reflexivity. Qed.

(** The same for any session: a key the session has tombstoned and its
    backing store holds is fetched by the batch read, returned and written
    into the overlay. *)
Lemma read_batch_of_tombstoned_key fuel h p n b ds k v :
  impls h !! p = Some n → k ∈ deleted_keys n →
  backing_data_store n = Some b → stores h !! b = Some ds → ds !! k = Some v →
  read_batch (S fuel) h (Some p) [k] =
    Ok ([make_kv k v], ∅, put p (set_cache (<[k := v]> (cache n)) n) h).
Proof.
  intros Hn Hd Hb Hs Hv. unfold read_batch. simpl. unfold get. rewrite Hn. simpl.
  rewrite decide_True by done. simpl. rewrite Hn. simpl. rewrite Hb. simpl. rewrite Hs. simpl.
  unfold ds_read_batch, set_keys. rewrite (right_id_L ∅ (∪)), elements_singleton. simpl.
  unfold ds_read. rewrite Hv. simpl.
  rewrite filter_cons_False by (simpl; congruence). rewrite filter_nil. simpl.
  unfold modify, get. rewrite Hn. simpl. done.
Qed.

(** The counterexample to C4 as stated: a key that only the backing store
    holds is read through the session but not written by [write_to]. *)
Lemma write_to_skips_store_values :
  write_to_backing_only = Ok (∅, Some (make_kv "a" "1")).
Proof. vm_compute. reflexivity. Qed.

(** C5: on a root over the store [{"a"}] with an empty overlay,
    [bounds("b")] answers invalid for the lower side although ["a"] is the
    greatest key of the merged view below ["b"]; with a key above ["b"] in
    the store the predecessor is found.  On a root over [{"a"; "z"}] with
    the overlay [{"c"; "y"}], [bounds("m")] answers ["a"] for the lower side
    although ["c"] lies between. *)
Theorem bounds_misses_predecessor :
  bounds_above_store = Ok (None, None) ∧
  bounds_inside_store = Ok (Some "a", Some "c") ∧
  bounds_across_levels = Ok (Some "a", Some "y").
Proof. split_and!; vm_compute; reflexivity. Qed.

(** C6: on a session whose merged view holds ["a"], incrementing the
    [end()] iterator dereferences [end()] of the iterator cache in [move_]'s
    test, which is undefined; incrementing the iterator at the last key does
    wrap, to the first entry of the iterator cache. *)
Theorem increment_of_end_is_undefined :
  increment_end = Fault ∧
  increment_last = Ok (SessionIterator (Some "a") (Some 1),
                       SessionIterator (Some "a") (Some 1)).
Proof. split; vm_compute; reflexivity. Qed.


(** C10: on a session left without backing store by [undo], [contains] of
    a key that no layer holds or hides dereferences the null backing store,
    where [read] checks the pointer and returns invalid. *)
Theorem contains_dereferences_absent_store :
  contains_after_undo = Fault ∧ read_after_undo = Ok None.
Proof. split; vm_compute; reflexivity. Qed.

(** [contains] on a free-standing layer that neither holds nor hides the
    key dereferences the null backing store. *)
Lemma contains_free_standing_faults fuel h p n k :
  impls h !! p = Some n → parent n = None → backing_data_store n = None →
  k ∉ deleted_keys n → cache n !! k = None →
  contains (S fuel) h (Some p) k = Fault.
Proof.
  intros Hn Hp Hb Hd Hc. simpl. unfold get. rewrite Hn. simpl.
  rewrite decide_False by done. unfold ds_contains. rewrite Hc.
  rewrite bool_decide_eq_false_2 by (by intros [? ?]). rewrite Hp.
  assert (contains_loop (S fuel) fuel h p k None =
            (n ← get h p; ds ← backing h n; Ok (ds_contains ds k, h))) as -> by (by destruct fuel).
  unfold get, backing. rewrite Hn. simpl. by rewrite Hb.
Qed.

(** [read] on a session that is neither iterable nor free-standing: below
    a layer without backing store, a hit in that layer reaches the null
    backing store through [update_iterator_cache], [bounds] and
    [make_iterator_]. *)
Lemma read_below_storeless_faults : read_below_storeless = Fault.
Proof. vm_compute. reflexivity. Qed.

(** C1: a session nested on a layer that [detach] left without backing
    store has no backing store itself.  Its chain holds ["a"] in the layer
    above it, so the merged-view value of ["a"] is ["1"]; [read("a")] finds
    it there, writes it into the session's overlay and calls
    [update_iterator_cache], which reaches the unchecked
    [*m_impl->backing_data_store] of [make_iterator_]: a null dereference.
    For a key that no layer holds, the same [read] checks the pointer and
    returns invalid. *)
Theorem read_through_storeless_parent_is_undefined :
  ∃ s h n l,
    nested_on_detached = Ok (Some s, h) ∧
    impls h !! s = Some n ∧ ancestry h s l ∧
    merged_view l (base_store h n) "a" = Some "1" ∧
    read 5 h (Some s) "a" = Fault ∧
    read 5 h (Some s) "b" = Ok (None, h).
Proof.
  destruct nested_on_detached as [[s h]| |] eqn:E;
    [|vm_compute in E; discriminate E|vm_compute in E; discriminate E].
  vm_compute in E. injection E as <- <-.
  eexists _, _, _, [(3, _); (2, _)]. split_and!.
  - reflexivity.
  - reflexivity.
  - eapply ancestry_step; [reflexivity|reflexivity|]. apply ancestry_head; reflexivity.
  - reflexivity.
  - vm_compute. reflexivity.
  - vm_compute. reflexivity.
Qed.

(** ** Reads after writes and erases *)

Lemma iterable_ancestry fuel h p :
  iterable fuel h p →
  ∃ n l, impls h !! p = Some n ∧ ancestry h p l ∧ length l ≤ fuel.
Proof. intros (l & r & cl & n & b & ds & A & _ & _ & L & _ & Hn & _). by exists n, l. Qed.

Lemma ancestry_cons h p l : ancestry h p l → ∃ n above, l = (p, n) :: above ∧ impls h !! p = Some n.
Proof. intros A. inversion A; subst; eauto. Qed.

Lemma iterable_fuel fuel h p : iterable fuel h p → ∃ f, fuel = S f.
Proof.
  intros I. destruct (iterable_ancestry _ _ _ I) as (n & l & _ & A & L).
  destruct (ancestry_cons _ _ _ A) as (? & ? & -> & _).
  destruct fuel; [simpl in L; lia|eauto].
Qed.

(** The view of [l] after the layer at its front was replaced. *)
Lemma ancestry_put_front h p n n' above :
  ancestry h p ((p, n) :: above) → parent n' = parent n →
  ancestry (put p n' h) p ((p, n') :: above).
Proof.
  intros A Hp. pose proof (ancestry_not_self _ _ _ _ A) as Hself.
  assert (∀ q l, ancestry h q l → p ∉ l.*1 → ancestry (put p n' h) q l) as Hkeep.
  { intros q l A'. induction A' as [q m Hm Hq|q m q' l Hm Hq A' IH]; intros Hnot.
    - apply ancestry_head; [|done]. rewrite lookup_put_ne; [done|]. set_solver.
    - apply ancestry_step with q'; [|done|].
      + rewrite lookup_put_ne; [done|]. set_solver.
      + apply IH. set_solver. }
  inversion A as [? m Hm Hq|? m q l Hm Hq A']; subst.
  - apply ancestry_head; [apply lookup_put_eq|congruence].
  - apply ancestry_step with q; [apply lookup_put_eq|congruence|]. by apply Hkeep.
Qed.

Lemma base_store_put h p n m : base_store (put p n h) m = base_store h m.
Proof. done. Qed.

(** What a session reads, as a function of the heap: [read] returns on an
    iterable session, with the merged view of its chain. *)
Lemma read_view fuel h p n above k :
  iterable fuel h p → ancestry h p ((p, n) :: above) →
  ∃ h', read fuel h (Some p) k =
          Ok (make_kv k <$> merged_view ((p, n) :: above) (base_store h n) k, h').
Proof.
  intros I A.
  destruct (iterable_ancestry _ _ _ I) as (n' & l & Hn & A' & L).
  pose proof (ancestry_unique _ _ _ _ A A') as <-.
  destruct (ancestry_cons _ _ _ A) as (? & ? & [= <- <-] & Hn2).
  destruct (read_spec fuel h p n _ k Hn2 A L (or_introl I)) as (h' & E & _).
  by exists h'.
Qed.

(** X1 (write then read).  After [write(kv)] on an iterable session, [read]
    of the key through the same session returns [kv] and changes nothing,
    and [contains] of the key is true. *)
Theorem read_after_write fuel h p kv :
  iterable fuel h p →
  ∃ h1, write fuel h (Some p) kv = Ok h1 ∧
        read fuel h1 (Some p) (kv_key kv) = Ok (Some kv, h1) ∧
        ∃ h2, contains fuel h1 (Some p) (kv_key kv) = Ok (true, h2).
Proof.
  intros I. destruct (iterable_lookup _ _ _ I) as [n Hn].
  destruct (write_spec fuel h p n kv I Hn) as (ic & Hw & _ & _).
  set (n1 := set_iterator_cache ic (written kv n)) in *.
  assert (iterable fuel (put p n1 h) p) as I1.
  { by apply (iterable_put fuel h p p n (λ n, set_iterator_cache ic (written kv n))). }
  exists (put p n1 h). split; [done|].
  destruct (iterable_ancestry _ _ _ I1) as (n1' & l1 & Hn1 & A1 & L1).
  rewrite lookup_put_eq in Hn1. injection Hn1 as <-.
  destruct (ancestry_cons _ _ _ A1) as (m & above & -> & Hm).
  rewrite lookup_put_eq in Hm. injection Hm as <-.
  assert (merged_view ((p, n1) :: above) (base_store (put p n1 h) n1) (kv_key kv)
          = Some (kv_value kv)) as Hview.
  { cbn [merged_view]. rewrite decide_False by (simpl; set_solver).
    simpl. unfold ds_write. by rewrite lookup_insert_eq. }
  assert (cache n1 !! kv_key kv = Some (kv_value kv)) as Hc.
  { simpl. unfold ds_write. by rewrite lookup_insert_eq. }
  split.
  - destruct (read_spec fuel _ p n1 _ (kv_key kv) (lookup_put_eq _ _ _) A1 L1 (or_introl I1))
      as (h' & E & Hsame & _).
    rewrite Hview in E. rewrite Hsame in E by (left; by rewrite Hc).
    by destruct kv.
  - destruct (contains_spec fuel _ p n1 _ (kv_key kv) (lookup_put_eq _ _ _) A1 L1 I1)
      as (h' & E & _).
    rewrite Hview in E. by exists h'.
Qed.

(** X2 (erase then read).  After [erase(key)] on an iterable session,
    [read] of the key through the same session returns the invalid
    key/value, [contains] is false, and neither changes anything. *)
Theorem read_after_erase fuel h p key :
  iterable fuel h p →
  ∃ h1, erase fuel h (Some p) key = Ok h1 ∧
        read fuel h1 (Some p) key = Ok (None, h1) ∧
        contains fuel h1 (Some p) key = Ok (false, h1).
Proof.
  intros I. destruct (iterable_lookup _ _ _ I) as [n Hn].
  destruct (erase_spec fuel h p n key I Hn) as (ic & Hw & _ & _).
  exists (put p (set_iterator_cache ic (erased key n)) h). split; [done|].
  destruct (iterable_fuel _ _ _ I) as [f ->].
  cbn [read read_loop contains contains_loop]. rewrite !get_put_eq.
  cbn [mbind result_bind]. rewrite !decide_True; [done| |]; simpl; set_solver.
Qed.

(** X3 (a write or an erase touches one key).  [write] and [erase] of one
    key leave what the session reads for every other key as it was. *)
Theorem write_erase_keep_other_keys fuel h p kv key k :
  iterable fuel h p → k ≠ kv_key kv → k ≠ key →
  ∃ r h0 hw hw' he he',
    read fuel h (Some p) k = Ok (r, h0) ∧
    write fuel h (Some p) kv = Ok hw ∧ read fuel hw (Some p) k = Ok (r, hw') ∧
    erase fuel h (Some p) key = Ok he ∧ read fuel he (Some p) k = Ok (r, he').
Proof.
  intros I Hkv Hkey. destruct (iterable_ancestry _ _ _ I) as (n & l & Hn & A & L).
  destruct (ancestry_cons _ _ _ A) as (m & above & -> & Hm).
  assert (m = n) as -> by congruence.
  destruct (write_spec fuel h p n kv I Hn) as (icw & Hw & _ & _).
  destruct (erase_spec fuel h p n key I Hn) as (ice & He & _ & _).
  set (nw := set_iterator_cache icw (written kv n)) in *.
  set (ne := set_iterator_cache ice (erased key n)) in *.
  assert (iterable fuel (put p nw h) p) as Iw.
  { by apply (iterable_put fuel h p p n (λ n, set_iterator_cache icw (written kv n))). }
  assert (iterable fuel (put p ne h) p) as Ie.
  { by apply (iterable_put fuel h p p n (λ n, set_iterator_cache ice (erased key n))). }
  destruct (read_view fuel h p n above k I A) as (h0 & E0).
  destruct (read_view fuel _ p nw above k Iw) as (hw' & Ew).
  { by apply ancestry_put_front with n. }
  destruct (read_view fuel _ p ne above k Ie) as (he' & Ee).
  { by apply ancestry_put_front with n. }
  eexists _, h0, _, hw', _, he'. split_and!; [exact E0|exact Hw| |exact He|].
  - rewrite Ew. do 3 f_equal. cbn [merged_view]. simpl. unfold ds_write.
    rewrite lookup_insert_ne by done.
    destruct (decide (k ∈ deleted_keys n)).
    + rewrite decide_True by set_solver. done.
    + rewrite decide_False by set_solver. done.
  - rewrite Ee. do 3 f_equal. cbn [merged_view]. simpl. unfold ds_erase.
    rewrite lookup_delete_ne by done.
    destruct (decide (k ∈ deleted_keys n)).
    + rewrite decide_True by set_solver. done.
    + rewrite decide_False by set_solver. done.
Qed.

(** X4 (reading twice).  On an iterable session a [read] returns, and
    reading the same key again returns the same key/value and leaves the
    heap as the first read left it. *)
Theorem read_twice fuel h p k :
  iterable fuel h p →
  ∃ r h1, read fuel h (Some p) k = Ok (r, h1) ∧ read fuel h1 (Some p) k = Ok (r, h1).
Proof.
  intros I. destruct (iterable_ancestry _ _ _ I) as (n & l & Hn & A & L).
  destruct (read_spec fuel h p n l k Hn A L (or_introl I)) as (h1 & E & Hsame & Hcached).
  exists (make_kv k <$> merged_view l (base_store h n) k), h1. split; [done|].
  destruct (merged_view l (base_store h n) k) as [v|] eqn:Hv;
    [destruct (cache n !! k) as [c|] eqn:Hc|].
  - rewrite Hsame in * by (left; done). done.
  - destruct (Hcached v eq_refl eq_refl) as (_ & ic & -> & _ & _).
    destruct (iterable_fuel _ _ _ I) as [f ->].
    cbn [read read_loop]. rewrite get_put_eq. cbn [mbind result_bind].
    assert (k ∉ deleted_keys n) as Hd.
    { destruct (ancestry_cons _ _ _ A) as (m & above & -> & Hm).
      assert (m = n) as -> by congruence.
      cbn [merged_view] in Hv. by destruct (decide (k ∈ deleted_keys n)). }
    rewrite decide_False by done. simpl. unfold ds_read. rewrite lookup_insert_eq. simpl.
    by rewrite decide_False by (intros ?; done).
  - rewrite Hsame in * by (right; done). done.
Qed.

(** X5 ([contains] agrees with [read]).  On an iterable session [contains]
    returns true exactly when [read] returns a valid key/value, and it
    changes the session's iterator cache at most. *)
Theorem contains_agrees_with_read fuel h p k :
  iterable fuel h p →
  ∃ r h1 b h2, read fuel h (Some p) k = Ok (r, h1) ∧
               contains fuel h (Some p) k = Ok (b, h2) ∧
               (b = true ↔ is_Some r) ∧ ic_update p h h2.
Proof.
  intros I. destruct (iterable_ancestry _ _ _ I) as (n & l & Hn & A & L).
  destruct (read_spec fuel h p n l k Hn A L (or_introl I)) as (h1 & E & _).
  destruct (contains_spec fuel h p n l k Hn A L I) as (h2 & E2 & F).
  eexists _, h1, _, h2. split_and!; [exact E|exact E2| |exact F].
  rewrite bool_decide_eq_true. by rewrite fmap_is_Some.
Qed.

(** X6 ([clear] makes a layer transparent).  After [clear] an iterable
    session reads, for every key, the merged view of the layers above it
    over its backing store (the store's own value when it has no parent):
    its overlay and its tombstones are gone. *)
Theorem read_after_clear fuel h t n above k :
  iterable fuel h t → ancestry h t ((t, n) :: above) →
  ∃ h1 h2, clear h (Some t) = Ok h1 ∧
           read fuel h1 (Some t) k =
             Ok (make_kv k <$> merged_view above (base_store h n) k, h2).
Proof.
  intros I A. destruct (ancestry_cons _ _ _ A) as (? & ? & [= <- <-] & Hn).
  exists (put t (clear_impl n) h). unfold clear. rewrite (modify_lookup _ _ _ _ Hn).
  assert (iterable fuel (put t (clear_impl n) h) t) as I1 by (by apply iterable_put).
  destruct (read_view fuel _ t (clear_impl n) above k I1) as (h2 & E).
  { by apply ancestry_put_front with n. }
  exists h2. split; [done|]. rewrite E. do 3 f_equal.
Qed.

Lemma read_after_clear_witness :
  ∃ h1 h2, clear ex_heap (Some 2) = Ok h1 ∧
           read 5 h1 (Some 2) "c" = Ok (Some (make_kv "c" "3"), h2).
Proof.
  destruct (read_after_clear 5 ex_heap 2 ex_tip [(1, ex_root)] "c") as (h1 & h2 & E1 & E2).
  - apply ex_heap_iterable.
  - apply ex_heap_ancestry.
  - by exists h1, h2.
Defined.

Lemma read_after_write_witness :
  ∃ h1, write 5 ex_heap (Some 2) (make_kv "c" "7") = Ok h1 ∧
        read 5 h1 (Some 2) "c" = Ok (Some (make_kv "c" "7"), h1) ∧
        ∃ h2, contains 5 h1 (Some 2) "c" = Ok (true, h2).
Proof. apply (read_after_write 5 ex_heap 2 (make_kv "c" "7")). apply ex_heap_iterable. Defined.

Lemma read_after_erase_witness :
  ∃ h1, erase 5 ex_heap (Some 2) "a" = Ok h1 ∧
        read 5 h1 (Some 2) "a" = Ok (None, h1) ∧
        contains 5 h1 (Some 2) "a" = Ok (false, h1).
Proof. apply (read_after_erase 5 ex_heap 2 "a"). apply ex_heap_iterable. Defined.

Lemma write_erase_keep_other_keys_witness :
  ∃ r h0 hw hw' he he',
    read 5 ex_heap (Some 2) "b" = Ok (r, h0) ∧
    write 5 ex_heap (Some 2) (make_kv "a" "9") = Ok hw ∧ read 5 hw (Some 2) "b" = Ok (r, hw') ∧
    erase 5 ex_heap (Some 2) "a" = Ok he ∧ read 5 he (Some 2) "b" = Ok (r, he').
Proof.
  apply (write_erase_keep_other_keys 5 ex_heap 2 (make_kv "a" "9") "a" "b");
    [apply ex_heap_iterable|done|done].
Defined.

Lemma read_twice_witness :
  ∃ r h1, read 5 ex_heap (Some 2) "b" = Ok (r, h1) ∧ read 5 h1 (Some 2) "b" = Ok (r, h1).
Proof. apply (read_twice 5 ex_heap 2 "b"). apply ex_heap_iterable. Defined.

Lemma contains_agrees_with_read_witness :
  ∃ r h1 b h2, read 5 ex_heap (Some 2) "c" = Ok (r, h1) ∧
               contains 5 ex_heap (Some 2) "c" = Ok (b, h2) ∧
               (b = true ↔ is_Some r) ∧ ic_update 2 ex_heap h2.
Proof. apply (contains_agrees_with_read 5 ex_heap 2 "c"). apply ex_heap_iterable. Defined.

(** ** Nesting *)

Lemma ancestry_put_other h p n' q l :
  ancestry h q l → p ∉ l.*1 → ancestry (put p n' h) q l.
Proof.
  intros A. induction A as [q m Hm Hq|q m q' l Hm Hq A' IH]; intros Hnot.
  - apply ancestry_head; [|done]. rewrite lookup_put_ne; [done|]. set_solver.
  - apply ancestry_step with q'; [|done|].
    + rewrite lookup_put_ne; [done|]. set_solver.
    + apply IH. set_solver.
Qed.

(** X7 (a new nested session is transparent).  A session nested on the tip
    of an iterable chain reads, for every key, what its parent read before
    the nesting. *)
Theorem nested_session_reads_parent_view f h p pn k :
  iterable f h p → impls h !! p = Some pn → lock h (child pn) = None →
  ∃ t h' r h1 h2,
    make_session h (Some p) = Ok (Some t, h') ∧ impls h !! t = None ∧
    read f h (Some p) k = Ok (r, h1) ∧
    read (S f) h' (Some t) k = Ok (r, h2).
Proof.
  intros I Hp Hc.
  destruct (make_session_iterable f h p pn I Hp Hc) as (h' & E & I').
  destruct (make_session_spec h p pn Hp) as (h'' & E' & Hst & Ht & Hp' & Hother & _).
  { by rewrite Hc. }
  rewrite E in E'. injection E' as <-.
  set (t := fresh (dom (impls h))) in *.
  destruct (iterable_ancestry _ _ _ I) as (n & l & Hn & A & L).
  assert (n = pn) as -> by congruence.
  destruct (ancestry_cons _ _ _ A) as (m & above & -> & Hm).
  assert (m = pn) as -> by congruence.
  destruct (merged_view_agree h h' p _ A) as (l' & A' & _ & Hview).
  { intros q Hq. destruct (decide (q = p)) as [->|Hne].
    - by rewrite Hp', Hp.
    - rewrite Hother; [done| |done|by rewrite Hc].
      intros ->. destruct (ancestry_in_lookup _ _ _ _ A Hq) as [x Hx].
      pose proof (fresh_impl h) as Hf. fold t in Hf. congruence. }
  destruct (read_view f h p pn above k I A) as (h1 & E1).
  destruct (read_view (S f) h' t (SessionImpl (Some p) None (backing_data_store pn) ∅ ∅ ∅ ∅)
              l' k I') as (h2 & E2).
  { eapply ancestry_step; [exact Ht|done|exact A']. }
  eexists t, h', _, h1, h2. split_and!; [done|apply fresh_impl|exact E1|].
  rewrite E2. do 3 f_equal. cbn [merged_view]. simpl.
  rewrite decide_False by set_solver. rewrite lookup_empty.
  rewrite Hview. unfold base_store. simpl. by rewrite Hst.
Qed.

Lemma nested_session_reads_parent_view_witness :
  ∃ t h' r h1 h2,
    make_session ex_heap (Some 2) = Ok (Some t, h') ∧ impls ex_heap !! t = None ∧
    read 5 ex_heap (Some 2) "a" = Ok (r, h1) ∧
    read 6 h' (Some t) "a" = Ok (r, h2).
Proof.
  apply (nested_session_reads_parent_view 5 ex_heap 2 ex_tip "a");
    [apply ex_heap_iterable|reflexivity|reflexivity].
Defined.



(** X9 (a root session reads its store).  A session built over a store
    [ds] with the initial overlay [cds] reads the overlay's value for a key,
    and the store's value for a key the overlay lacks. *)
Theorem new_session_reads_store fuel h ds cds k :
  1 ≤ fuel →
  ∃ p h1 h2, new_session h ds cds = (Some p, h1) ∧ impls h !! p = None ∧
             read fuel h1 (Some p) k = Ok (make_kv k <$> (cds ∪ ds) !! k, h2).
Proof.
  intros Hf. pose proof (new_session_iterable fuel h ds cds Hf) as I.
  set (p := fresh (dom (impls h))) in *.
  set (n := SessionImpl None None (Some (fresh (dom (stores h)))) cds ∅ ∅ ∅).
  destruct (read_view fuel _ p n [] k I) as (h2 & E).
  { apply ancestry_head; [|done]. simpl. apply lookup_insert_eq. }
  exists p, (new_session h ds cds).2, h2. split_and!; [done|apply fresh_impl|].
  rewrite E. do 3 f_equal. cbn [merged_view]. simpl.
  rewrite decide_False by set_solver. unfold base_store. simpl.
  rewrite lookup_insert_eq. simpl. rewrite lookup_union.
  destruct (cds !! k), (ds !! k); done.
Qed.

Lemma new_session_reads_store_witness :
  ∃ p h1 h2, new_session initial_heap {[ "a" := "1" ]} ∅ = (Some p, h1) ∧
             impls initial_heap !! p = None ∧
             read 5 h1 (Some p) "a" =
               Ok (make_kv "a" <$> ((∅ : gmap string string) ∪ {[ "a" := "1" ]}) !! "a", h2).
Proof. apply (new_session_reads_store 5 initial_heap {[ "a" := "1" ]} ∅ "a"). lia. Defined.

(** ** Commit *)

Lemma commit_nothing fuel h p n :
  impls h !! p = Some n → updated_keys n = ∅ → deleted_keys n = ∅ →
  commit fuel h (Some p) = Ok h.
Proof.
  intros Hn HU HD. simpl. unfold impl_commit, get. rewrite Hn. simpl.
  rewrite (bool_decide_eq_true_2 _ HU), (bool_decide_eq_true_2 _ HD). simpl.
  by destruct (bool_decide (parent n = None) && bool_decide (backing_data_store n = None)).
Qed.

Lemma commit_into_parent fuel h p n q m :
  impls h !! p = Some n → updated_keys n ≠ ∅ ∨ deleted_keys n ≠ ∅ →
  parent n = Some q → q ≠ p → impls h !! q = Some m → iterable fuel h q →
  ∃ m',
    commit fuel h (Some p) = Ok (put p (clear_impl n) (put q m' h)) ∧
    links m' = links m ∧
    deleted_keys m' = (deleted_keys m ∪ deleted_keys n) ∖ authored n ∧
    updated_keys m' = (updated_keys m ∖ deleted_keys n) ∪ authored n ∧
    ∀ k, cache m' !! k = if decide (k ∈ authored n) then cache n !! k
                         else if decide (k ∈ deleted_keys n) then None
                         else cache m !! k.
Proof.
  intros Hn Hne Hp Hq Hm I. simpl.
  rewrite (commit_guard fuel h p n Hn Hne) by (left; rewrite Hp; eauto).
  rewrite Hp. cbn [erase_batch].
  destruct (erase_each_spec fuel h q m (set_keys (deleted_keys n)) I Hm) as (ic1 & -> & _).
  cbn [mbind result_bind]. set (m1 := set_iterator_cache ic1 _).
  unfold get at 1. rewrite lookup_put_ne, Hn by done. cbn [mbind result_bind deref].
  cbn [write_batch].
  destruct (write_each_spec fuel (put q m1 h) q m1
              (ds_entries (cache n) (set_keys (updated_keys n)))) as (ic2 & -> & _).
  { apply (iterable_put fuel h q q m (λ _, m1)); [done| |done].
    apply (foldl_erased_fields m (set_keys (deleted_keys n))). }
  { apply lookup_put_eq. }
  cbn [mbind result_bind]. rewrite put_put.
  set (m2 := set_iterator_cache ic2 _).
  exists m2. split.
  { rewrite (modify_lookup _ _ _ n); [done|]. by rewrite lookup_put_ne. }
  unfold m2, m1. rewrite foldl_written_ic, set_iterator_cache_twice.
  destruct (foldl_written_fields (foldl (flip erased) m (set_keys (deleted_keys n)))
              (ds_entries (cache n) (set_keys (updated_keys n)))) as (L1 & C1 & U1 & D1).
  destruct (foldl_erased_fields m (set_keys (deleted_keys n))) as (L2 & C2 & U2 & D2).
  unfold authored. split_and!.
  - unfold links in *. simpl. congruence.
  - simpl. rewrite D1, D2, list_to_set_set_keys, list_to_set_entry_keys. set_solver.
  - simpl. rewrite U1, U2, list_to_set_set_keys, list_to_set_entry_keys. set_solver.
  - intros k. simpl. rewrite C1, C2. apply lookup_written_through.
Qed.

Lemma commit_into_store fuel h p n b ds :
  impls h !! p = Some n → updated_keys n ≠ ∅ ∨ deleted_keys n ≠ ∅ →
  parent n = None → backing_data_store n = Some b → stores h !! b = Some ds →
  commit fuel h (Some p) =
    Ok (Heap (<[p := clear_impl n]> (impls h))
             (<[b := ds_write_batch (ds_erase_batch ds (set_keys (deleted_keys n)))
                       (ds_entries (cache n) (set_keys (updated_keys n)))]> (stores h))).
Proof.
  intros Hn Hne Hp Hb Hs. simpl.
  rewrite (commit_guard fuel h p n Hn Hne) by (right; rewrite Hb; eauto).
  rewrite Hp, Hb. simpl. rewrite Hs. simpl. unfold modify, get. simpl. by rewrite Hn.
Qed.

(** ** What sessions read after a commit *)

Lemma committed_over_nothing n v k :
  updated_keys n = ∅ → deleted_keys n = ∅ → committed_over n v k = v.
Proof.
  intros HU HD. unfold committed_over, authored. rewrite HU, HD.
  rewrite decide_False by set_solver. by rewrite decide_False by set_solver.
Qed.

Lemma base_store_links h h' m m' :
  stores h' = stores h → links m' = links m → base_store h' m' = base_store h m.
Proof. intros Hs [= _ _ Hb]. unfold base_store. by rewrite Hs, Hb. Qed.

(** The merged view through a layer that received the commit of [n]. *)
Lemma merged_view_committed p m m' n above base k :
  deleted_keys m' = (deleted_keys m ∪ deleted_keys n) ∖ authored n →
  (∀ k, cache m' !! k = if decide (k ∈ authored n) then cache n !! k
                        else if decide (k ∈ deleted_keys n) then None
                        else cache m !! k) →
  merged_view ((p, m') :: above) base k =
    committed_over n (merged_view ((p, m) :: above) base k) k.
Proof.
  intros HD HC. unfold committed_over. cbn [merged_view]. rewrite HD, HC.
  destruct (decide (k ∈ authored n)) as [Ha|Ha].
  - rewrite decide_False by set_solver.
    assert (is_Some (cache n !! k)) as [v ->]; [|done].
    apply elem_of_dom. unfold authored in Ha. set_solver.
  - destruct (decide (k ∈ deleted_keys n)).
    + by rewrite decide_True by set_solver.
    + destruct (decide (k ∈ deleted_keys m)).
      * by rewrite decide_True by set_solver.
      * by rewrite decide_False by set_solver.
Qed.

(** X10 (commit merges into the parent).  After the commit of a nested
    session its parent reads, for every key: the value the session authored;
    else nothing when the session had erased the key; else what the parent
    read before. *)
Theorem commit_merges_into_parent fuel h t n p m above k :
  ancestry h t ((t, n) :: (p, m) :: above) → iterable fuel h p →
  ∃ h' h2,
    commit fuel h (Some t) = Ok h' ∧
    read fuel h' (Some p) k =
      Ok (make_kv k <$>
            committed_over n (merged_view ((p, m) :: above) (base_store h m) k) k, h2).
Proof.
  intros A I. pose proof (ancestry_not_self _ _ _ _ A) as Hself.
  inversion A as [|? ? q ? Hn Hp A']; subst.
  assert (q = p) as -> by (inversion A'; by subst).
  destruct (ancestry_cons _ _ _ A') as (? & ? & [= <- <-] & Hm).
  assert (p ≠ t) as Hpt by set_solver.
  destruct (decide (updated_keys n = ∅)) as [HU|HU];
    [destruct (decide (deleted_keys n = ∅)) as [HD|HD]|].
  - rewrite (commit_nothing fuel h t n Hn HU HD).
    destruct (read_view fuel h p m above k I A') as (h2 & E).
    exists h, h2. split; [done|]. by rewrite committed_over_nothing.
  - destruct (commit_into_parent fuel h t n p m Hn (or_intror HD) Hp Hpt Hm I)
      as (m' & E & HL & HDm & _ & HC).
    assert (iterable fuel (put t (clear_impl n) (put p m' h)) p) as I'.
    { apply (iterable_put _ _ _ t n clear_impl); [by rewrite lookup_put_ne|done|].
      by apply (iterable_put _ _ _ p m (λ _, m')). }
    destruct (read_view fuel _ p m' above k I') as (h2 & E2).
    { apply ancestry_put_other; [|set_solver].
      apply ancestry_put_front with m; [done|]. unfold links in HL. congruence. }
    eexists _, h2. split; [exact E|]. rewrite E2. do 3 f_equal.
    rewrite (merged_view_committed p m m' n above _ k HDm HC).
    by rewrite (base_store_links (put t (clear_impl n) (put p m' h)) h m' m).
  - destruct (commit_into_parent fuel h t n p m Hn (or_introl HU) Hp Hpt Hm I)
      as (m' & E & HL & HDm & _ & HC).
    assert (iterable fuel (put t (clear_impl n) (put p m' h)) p) as I'.
    { apply (iterable_put _ _ _ t n clear_impl); [by rewrite lookup_put_ne|done|].
      by apply (iterable_put _ _ _ p m (λ _, m')). }
    destruct (read_view fuel _ p m' above k I') as (h2 & E2).
    { apply ancestry_put_other; [|set_solver].
      apply ancestry_put_front with m; [done|]. unfold links in HL. congruence. }
    eexists _, h2. split; [exact E|]. rewrite E2. do 3 f_equal.
    rewrite (merged_view_committed p m m' n above _ k HDm HC).
    by rewrite (base_store_links (put t (clear_impl n) (put p m' h)) h m' m).
Qed.

Lemma commit_merges_into_parent_witness :
  ∃ h' h2,
    commit 5 ex_heap (Some 2) = Ok h' ∧
    read 5 h' (Some 1) "c" =
      Ok (make_kv "c" <$>
            committed_over ex_tip (merged_view [(1, ex_root)] (base_store ex_heap ex_root) "c")
              "c", h2).
Proof.
  apply (commit_merges_into_parent 5 ex_heap 2 ex_tip 1 ex_root [] "c");
    [apply ex_heap_ancestry|apply ex_heap_root_iterable].
Defined.

(** The view through a layer is what its commit leaves in the destination,
    when its tombstoned keys have no overlay entry and its read-through
    entry for the key, if any, is the value above it. *)
Lemma view_is_committed_over n V k :
  deleted_keys n ## dom (cache n) →
  (∀ v, cache n !! k = Some v → k ∉ updated_keys n → V = Some v) →
  (if decide (k ∈ deleted_keys n) then None
   else match cache n !! k with Some v => Some v | None => V end) =
  committed_over n V k.
Proof.
  intros H1 H2. unfold committed_over, authored.
  destruct (decide (k ∈ updated_keys n ∩ dom (cache n))) as [Ha|Ha].
  - rewrite decide_False by set_solver.
    assert (is_Some (cache n !! k)) as [v ->]; [|done]. apply elem_of_dom. set_solver.
  - destruct (decide (k ∈ deleted_keys n)); [done|].
    destruct (cache n !! k) as [v|] eqn:Hc; [|done].
    symmetry. apply H2; [done|]. intros HU. apply Ha. apply elem_of_intersection.
    split; [done|]. by apply elem_of_dom.
Qed.

(** X11 (a commit does not change what the committing session reads).  Take
    an iterable session whose tombstoned keys have no overlay entry, and
    whose overlay entry for [k], when the session did not write it, is the
    value the layers above it show.  Then [read(k)] through the session
    returns the same before and after its [commit], whether it commits into
    its parent or into the backing store. *)
Theorem commit_keeps_own_view fuel h t n above k :
  iterable fuel h t → ancestry h t ((t, n) :: above) →
  (∀ q, parent n = Some q → iterable fuel h q) →
  deleted_keys n ## dom (cache n) →
  (∀ v, cache n !! k = Some v → k ∉ updated_keys n →
        merged_view above (base_store h n) k = Some v) →
  ∃ r h1 h' h2,
    read fuel h (Some t) k = Ok (r, h1) ∧
    commit fuel h (Some t) = Ok h' ∧
    read fuel h' (Some t) k = Ok (r, h2).
Proof.
  intros I A Ipar H1 H2.
  destruct (read_view fuel h t n above k I A) as (h1 & E1).
  destruct (ancestry_cons _ _ _ A) as (? & ? & [= <- <-] & Hn).
  destruct (decide (updated_keys n = ∅ ∧ deleted_keys n = ∅)) as [[HU HD]|Hne].
  { rewrite (commit_nothing fuel h t n Hn HU HD). eexists _, h1, h, h1. by split_and!. }
  assert (updated_keys n ≠ ∅ ∨ deleted_keys n ≠ ∅) as Hne'.
  { destruct (decide (updated_keys n = ∅)); [|by left].
    destruct (decide (deleted_keys n = ∅)); [|by right]. by destruct Hne. }
  cbn [merged_view] in E1.
  rewrite (view_is_committed_over n _ k H1 H2) in E1.
  pose proof (ancestry_not_self _ _ _ _ A) as Hself.
  inversion A as [? ? Hn' Hp|? ? p ? Hn' Hp A']; subst.
  - (* into the backing store *)
    destruct I as (l0 & r0 & cl0 & n' & b & ds & A0 & Hr0 & C0 & L0 & Lc0 & Hn2 & Hb & Hs).
    assert (n' = n) as -> by congruence.
    assert (iterable fuel h t) as I by (by exists l0, r0, cl0, n, b, ds).
    rewrite (commit_into_store fuel h t n b ds Hn Hne' Hp Hb Hs).
    set (ds' := ds_write_batch _ _).
    set (h' := Heap (<[t := clear_impl n]> (impls h)) (<[b := ds']> (stores h))).
    assert (iterable fuel h' t) as I'.
    { apply (iterable_shape fuel h); [|done]. split.
      - intros q. simpl. destruct (decide (q = t)) as [->|].
        + by rewrite lookup_insert_eq, Hn.
        + by rewrite lookup_insert_ne.
      - intros b'. simpl. destruct (decide (b' = b)) as [->|].
        + rewrite lookup_insert_eq, Hs. split; eauto.
        + by rewrite lookup_insert_ne. }
    destruct (read_view fuel h' t (clear_impl n) [] k I') as (h2 & E2).
    { apply ancestry_head; [|done]. simpl. apply lookup_insert_eq. }
    eexists _, h1, h', h2. split_and!; [exact E1|done|]. rewrite E2. do 3 f_equal.
    cbn [merged_view]. simpl. rewrite decide_False by set_solver. rewrite lookup_empty.
    unfold base_store. simpl. rewrite Hb. simpl. rewrite lookup_insert_eq, Hs. simpl.
    unfold ds', committed_over, authored. apply lookup_written_through.
  - (* into the parent *)
    destruct (ancestry_cons _ _ _ A') as (m & above' & -> & Hm).
    assert (p ≠ t) as Hpt by set_solver.
    destruct (commit_into_parent fuel h t n p m Hn Hne' Hp Hpt Hm (Ipar p Hp))
      as (m' & E & HL & HDm & _ & HC).
    set (h' := put t (clear_impl n) (put p m' h)) in *.
    assert (iterable fuel h' t) as I'.
    { apply (iterable_put _ _ _ t n clear_impl); [by rewrite lookup_put_ne|done|].
      by apply (iterable_put _ _ _ p m (λ _, m')). }
    destruct (read_view fuel h' t (clear_impl n) ((p, m') :: above') k I') as (h2 & E2).
    { eapply ancestry_step; [apply lookup_put_eq|exact Hp|].
      apply ancestry_put_other; [|set_solver].
      apply ancestry_put_front with m; [done|]. unfold links in HL. congruence. }
    eexists _, h1, h', h2. split_and!; [exact E1|exact E|]. rewrite E2. do 3 f_equal.
    assert (∀ l base, merged_view ((t, clear_impl n) :: l) base k = merged_view l base k) as ->.
    { intros l base. cbn [merged_view]. simpl. rewrite decide_False by set_solver.
      by rewrite lookup_empty. }
    by rewrite (merged_view_committed p m m' n above' _ k HDm HC).
Qed.

(** The tip of [ex_heap] holds a tombstone and an empty overlay. *)
Lemma commit_keeps_own_view_witness :
  ∃ r h1 h' h2,
    read 5 ex_heap (Some 2) "c" = Ok (r, h1) ∧
    commit 5 ex_heap (Some 2) = Ok h' ∧
    read 5 h' (Some 2) "c" = Ok (r, h2).
Proof.
  apply (commit_keeps_own_view 5 ex_heap 2 ex_tip [(1, ex_root)] "c").
  - apply ex_heap_iterable.
  - apply ex_heap_ancestry.
  - intros q [= <-]. apply ex_heap_root_iterable.
  - simpl. set_solver.
  - intros v Hv. simpl in Hv. by rewrite lookup_empty in Hv.
Defined.

(** ** Invariants of the layers *)

(** What a single-key [read] changes: nothing, or the overlay entry of the
    key it read. *)
Lemma cache_in_caches fuel h p k v h' :
  cache_in fuel h p (make_kv k v) = Ok h' →
  ∃ n ic, impls h !! p = Some n ∧
          h' = put p (set_iterator_cache ic (set_cache (<[k := v]> (cache n)) n)) h.
Proof. intros H. by apply cache_in_frame in H. Qed.

Lemma read_backing_caches fuel h p k r h' :
  read_backing fuel h p k = Ok (r, h') →
  h' = h ∨ ∃ n v ic, impls h !! p = Some n ∧
                     h' = put p (set_iterator_cache ic (set_cache (<[k := v]> (cache n)) n)) h.
Proof.
  unfold read_backing. intros H. inv_bind H as n Hn.
  destruct (backing_data_store n) as [b|]; [|injection H as _ <-; by left].
  inv_bind H as ds Hds. destruct (ds_read ds k) as [kv|] eqn:Hr.
  - apply ds_read_Some in Hr as (v & _ & ->). inv_bind H as h1 H1. injection H as _ <-.
    apply cache_in_caches in H1 as (m & ic & Hm & ->). right. by exists m, v, ic.
  - injection H as _ <-. by left.
Qed.

Lemma read_loop_caches fuel0 fuel h p k cur r h' :
  read_loop fuel0 fuel h p k cur = Ok (r, h') →
  h' = h ∨ ∃ n v ic, impls h !! p = Some n ∧
                     h' = put p (set_iterator_cache ic (set_cache (<[k := v]> (cache n)) n)) h.
Proof.
  revert cur. induction fuel as [|f IH]; intros cur H.
  - destruct cur as [q|]; simpl in H; [done|]. by eapply read_backing_caches.
  - destruct cur as [q|]; simpl in H; [|by eapply read_backing_caches].
    inv_bind H as m Hm. destruct (decide (k ∈ deleted_keys m)).
    { injection H as _ <-. by left. }
    destruct (ds_read (cache m) k) as [kv|] eqn:Hr.
    + apply ds_read_Some in Hr as (v & _ & ->). destruct (decide (q ≠ p)).
      * inv_bind H as h1 H1. injection H as _ <-.
        apply cache_in_caches in H1 as (m' & ic & Hm' & ->). right. by exists m', v, ic.
      * injection H as _ <-. by left.
    + by eapply IH.
Qed.

Lemma read_caches fuel h p k r h' :
  read fuel h (Some p) k = Ok (r, h') →
  h' = h ∨ ∃ n v ic, impls h !! p = Some n ∧ k ∉ deleted_keys n ∧
                     h' = put p (set_iterator_cache ic (set_cache (<[k := v]> (cache n)) n)) h.
Proof.
  intros H. cbn [read] in H. destruct fuel as [|f]; [done|]. cbn [read_loop] in H.
  inv_bind H as n Hn. apply get_Ok in Hn.
  destruct (decide (k ∈ deleted_keys n)); [injection H as _ <-; by left|].
  destruct (ds_read (cache n) k) as [kv|].
  - destruct (decide (p ≠ p)); [done|]. injection H as _ <-. by left.
  - apply read_loop_caches in H as [->|(n' & v & ic & Hn' & ->)]; [by left|].
    assert (n' = n) as -> by congruence. right. by exists n, v, ic.
Qed.

(** What the batch [read] changes: the overlay of the session grows. *)
Lemma grows_into_trans p h1 h2 h3 : grows_into p h1 h2 → grows_into p h2 h3 → grows_into p h1 h3.
Proof.
  intros [->|(n & c & ic & Hn & Hd & ->)]; [done|].
  intros [->|(n' & c' & ic' & Hn' & Hd' & ->)].
  - right. by exists n, c, ic.
  - rewrite lookup_put_eq in Hn'. injection Hn' as <-. right. exists n, c', ic'.
    split_and!; [done|simpl in Hd'; set_solver|]. by rewrite put_put.
Qed.

Lemma read_batch_walk_grows fuel0 fuel h p k cur r d h' :
  read_batch_walk fuel0 fuel h p k cur = Ok (r, d, h') → grows_into p h h'.
Proof.
  revert cur. induction fuel as [|f IH]; intros cur H.
  - destruct cur as [q|]; simpl in H; [done|]. injection H as _ _ <-. by left.
  - destruct cur as [q|]; simpl in H; [|injection H as _ _ <-; by left].
    inv_bind H as m Hm. destruct (decide (k ∈ deleted_keys m)).
    { injection H as _ _ <-. by left. }
    destruct (ds_read (cache m) k) as [kv|].
    + destruct (decide (q ≠ p)).
      * inv_bind H as h1 H1. injection H as _ _ <-.
        apply cache_in_frame in H1 as (m' & ic & Hm' & ->). right.
        exists m', (ds_write (cache m') kv), ic. split_and!; [done| |done].
        unfold ds_write. set_solver.
      * injection H as _ _ <-. by left.
    + by eapply IH.
Qed.

Lemma read_batch_keys_grows fuel h p keys kvs nf r h' :
  read_batch_keys fuel h p keys kvs nf = Ok (r, h') → grows_into p h h'.
Proof.
  revert h kvs nf. induction keys as [|k keys IH]; intros h kvs nf H; simpl in H.
  - injection H as _ <-. by left.
  - inv_bind H as [[x d] h1] H1. apply read_batch_walk_grows in H1.
    destruct x; apply IH in H; by eapply grows_into_trans.
Qed.

Lemma dom_write_batch (c : gmap string string) kvs : dom c ⊆ dom (ds_write_batch c kvs).
Proof.
  revert c. induction kvs as [|kv kvs IH]; intros c; [done|].
  unfold ds_write_batch in *. simpl. etrans; [|apply IH]. unfold ds_write. set_solver.
Qed.

Lemma read_batch_grows fuel h p keys r h' :
  read_batch fuel h (Some p) keys = Ok (r, h') → grows_into p h h'.
Proof.
  unfold read_batch. intros H. inv_bind H as [[kvs nf] h1] H1.
  apply read_batch_keys_grows in H1. inv_bind H as n Hn. apply get_Ok in Hn.
  destruct (backing_data_store n) as [b|]; [|injection H as _ <-; done].
  inv_bind H as ds Hds. destruct (ds_read_batch ds (set_keys nf)) as [found missing].
  inv_bind H as h2 H2. injection H as _ <-.
  eapply grows_into_trans; [done|].
  destruct (bool_decide (found ≠ [])); [|injection H2 as <-; by left].
  apply modify_Ok in H2 as (n' & Hn' & ->). right.
  exists n', (ds_write_batch (cache n') found), (iterator_cache n').
  split_and!; [done|apply dom_write_batch|]. by destruct n'.
Qed.

Section layer_invariant.
Variable inv : session_impl → Prop.
Hypothesis inv_ic : ∀ ic n, inv n → inv (set_iterator_cache ic n).
Hypothesis inv_links : ∀ a b c n, inv n → inv (set_parent a (set_child b (set_backing c n))).
Hypothesis inv_written : ∀ kv n, inv n → inv (written kv n).
Hypothesis inv_erased : ∀ k n, inv n → inv (erased k n).
Hypothesis inv_cached : ∀ k v n,
  k ∉ deleted_keys n → inv n → inv (set_cache (<[k := v]> (cache n)) n).
Hypothesis inv_primed : ∀ n,
  inv n → inv (set_cache (filter (λ kv, kv.1 ∈ updated_keys n) (cache n)) n).
Hypothesis inv_fresh : ∀ n, updated_keys n = ∅ → deleted_keys n = ∅ → inv n.

Lemma every_layer_put h p n : every_layer inv h → inv n → every_layer inv (put p n h).
Proof.
  intros D Hn q m Hm. destruct (decide (p = q)) as [->|Hne].
  - rewrite lookup_put_eq in Hm. by injection Hm as <-.
  - rewrite lookup_put_ne in Hm by done. by eapply D.
Qed.

Lemma every_layer_modify h p f h' :
  modify p f h = Ok h' → (∀ n, inv n → inv (f n)) → every_layer inv h → every_layer inv h'.
Proof.
  intros (n & Hn & ->)%modify_Ok Hf D. apply every_layer_put; [done|]. apply Hf. by eapply D.
Qed.

Lemma inv_set_parent a n : inv n → inv (set_parent a n).
Proof. intros H. apply (inv_links a (child n) (backing_data_store n)) in H. by destruct n. Qed.

Lemma inv_set_child b n : inv n → inv (set_child b n).
Proof. intros H. apply (inv_links (parent n) b (backing_data_store n)) in H. by destruct n. Qed.

Lemma inv_set_backing c n : inv n → inv (set_backing c n).
Proof. intros H. apply (inv_links (parent n) (child n) c) in H. by destruct n. Qed.

Lemma write_every_layer fuel h s kv h' :
  every_layer inv h → write fuel h s kv = Ok h' → every_layer inv h'.
Proof.
  intros D H. destruct s as [p|]; [|by injection H as <-].
  apply write_frame in H as (n & ic & Hn & ->). apply every_layer_put; [done|].
  apply inv_ic, inv_written. by eapply D.
Qed.

Lemma erase_every_layer fuel h s key h' :
  every_layer inv h → erase fuel h s key = Ok h' → every_layer inv h'.
Proof.
  intros D H. destruct s as [p|]; [|by injection H as <-].
  apply erase_frame in H as (n & ic & Hn & ->). apply every_layer_put; [done|].
  apply inv_ic, inv_erased. by eapply D.
Qed.

Lemma write_batch_every_layer fuel h s kvs h' :
  every_layer inv h → write_batch fuel h s kvs = Ok h' → every_layer inv h'.
Proof.
  intros D H. destruct s as [p|]; [|simpl in H; by injection H as <-]. cbn [write_batch] in H.
  revert h D H. induction kvs as [|kv kvs IH]; intros h D H; cbn [write_each] in H.
  - by injection H as <-.
  - inv_bind H as h1 H1. eapply IH; [|done]. by eapply write_every_layer.
Qed.

Lemma erase_batch_every_layer fuel h s ks h' :
  every_layer inv h → erase_batch fuel h s ks = Ok h' → every_layer inv h'.
Proof.
  intros D H. destruct s as [p|]; [|simpl in H; by injection H as <-]. cbn [erase_batch] in H.
  revert h D H. induction ks as [|k ks IH]; intros h D H; cbn [erase_each] in H.
  - by injection H as <-.
  - inv_bind H as h1 H1. eapply IH; [|done]. by eapply erase_every_layer.
Qed.

Lemma read_every_layer fuel h s k r h' :
  every_layer inv h → read fuel h s k = Ok (r, h') → every_layer inv h'.
Proof.
  intros D H. destruct s as [p|]; [|by injection H as _ <-].
  apply read_caches in H as [->|(n & v & ic & Hn & Hk & ->)]; [done|].
  apply every_layer_put; [done|]. apply inv_ic, inv_cached; [done|]. by eapply D.
Qed.

Lemma ic_update_every_layer p h h' : ic_update p h h' → every_layer inv h → every_layer inv h'.
Proof.
  intros (n & ic & Hn & _ & ->) D. apply every_layer_put; [done|]. apply inv_ic. by eapply D.
Qed.

Lemma contains_every_layer fuel h s k b h' :
  every_layer inv h → contains fuel h s k = Ok (b, h') → every_layer inv h'.
Proof.
  intros D H. destruct s as [p|]; [|by injection H as _ <-].
  apply contains_loop_changes in H as [->|U]; [done|]. by eapply ic_update_every_layer.
Qed.

Lemma make_iterator_every_layer fuel h s pred cmp mv prime it h' :
  every_layer inv h → make_iterator_ fuel h s pred cmp mv prime = Ok (it, h') →
  every_layer inv h'.
Proof.
  intros D H. destruct s as [p|]; [|by injection H as _ <-].
  eapply ic_update_every_layer; [|done]. by eapply make_iterator_frame.
Qed.

Lemma clear_every_layer h s h' : every_layer inv h → clear h s = Ok h' → every_layer inv h'.
Proof.
  intros D H. destruct s as [p|]; [|by injection H as <-].
  eapply every_layer_modify; [done| |done]. intros n _. by apply inv_fresh.
Qed.

Lemma undo_every_layer h s h' : every_layer inv h → undo h s = Ok h' → every_layer inv h'.
Proof.
  intros D H. destruct s as [p|]; [|by injection H as <-].
  unfold undo, impl_undo in H. inv_bind H as n Hn. inv_bind H as h1 H1.
  inv_bind H as n1 Hn1. inv_bind H as h2 H2.
  assert (every_layer inv h1) as D1.
  { destruct (parent n); [|by injection H1 as <-].
    eapply every_layer_modify; [done| |done]. intros. by apply inv_set_child. }
  assert (every_layer inv h2) as D2.
  { destruct (lock h1 (child n1)); [|by injection H2 as <-].
    eapply every_layer_modify; [done| |done]. intros. by apply inv_set_parent. }
  eapply every_layer_modify; [done| |done]. intros m _. by apply inv_fresh.
Qed.

Lemma commit_every_layer fuel h s h' :
  every_layer inv h → commit fuel h s = Ok h' → every_layer inv h'.
Proof.
  intros D H. destruct s as [p|]; [|by injection H as <-].
  unfold commit, impl_commit in H. inv_bind H as n Hn.
  destruct (bool_decide (parent n = None) && bool_decide (backing_data_store n = None));
    [by injection H as <-|].
  destruct (bool_decide (updated_keys n = ∅) && bool_decide (deleted_keys n = ∅));
    [by injection H as <-|].
  destruct (parent n) as [q|].
  - inv_bind H as h1 H1. inv_bind H as n1 Hn1. inv_bind H as h2 H2.
    apply erase_batch_every_layer in H1; [|done].
    apply write_batch_every_layer in H2; [|done].
    eapply every_layer_modify; [done| |done]. intros m _. by apply inv_fresh.
  - inv_bind H as b Hb. inv_bind H as ds Hds.
    eapply every_layer_modify; [done| |].
    + intros m _. by apply inv_fresh.
    + intros q m Hm. by eapply D.
Qed.

Lemma new_session_every_layer h ds cds :
  every_layer inv h → every_layer inv (new_session h ds cds).2.
Proof.
  intros D p n Hn. simpl in Hn. apply lookup_insert_Some in Hn as [[_ <-]|[_ Hn]].
  - by apply inv_fresh.
  - by eapply D.
Qed.

Lemma make_session_every_layer h s r h' :
  every_layer inv h → make_session h s = Ok (r, h') → every_layer inv h'.
Proof.
  intros D H. unfold make_session in H. inv_bind H as p Hp. inv_bind H as pn Hpn.
  inv_bind H as h1 H1. inv_bind H as h3 H3. injection H as _ <-.
  assert (every_layer inv h1) as D1.
  { destruct (lock h (child pn)); [|by injection H1 as <-].
    eapply every_layer_modify; [done| |done]. intros.
    by apply inv_set_parent, inv_set_backing. }
  eapply every_layer_modify; [done| |].
  - intros. by apply inv_set_child.
  - apply every_layer_put; [done|]. by apply inv_fresh.
Qed.

Lemma detach_every_layer h s r h' :
  every_layer inv h → detach h s = Ok (r, h') → every_layer inv h'.
Proof.
  intros D H. destruct s as [p|]; [|by injection H as _ <-].
  unfold detach in H. inv_bind H as n Hn. inv_bind H as h1 H1. inv_bind H as h2 H2.
  injection H as _ <-.
  assert (every_layer inv h1) as D1.
  { destruct (lock h (child n)); [|by injection H1 as <-].
    eapply every_layer_modify; [done| |done]. intros.
    by apply inv_set_backing, inv_set_parent. }
  eapply every_layer_modify; [done| |done]. intros. by apply inv_set_child.
Qed.

Lemma prime_cache_every_layer fuel h p h' :
  every_layer inv h → prime_cache fuel h p = Ok h' → every_layer inv h'.
Proof.
  revert h p. induction fuel as [|f IH]; intros h p D H; [done|].
  simpl in H. inv_bind H as h1 H1. inv_bind H as h2 H2. inv_bind H as n Hn.
  assert (every_layer inv h2) as D2.
  { eapply every_layer_modify; [exact H2|apply inv_primed|].
    eapply every_layer_modify; [exact H1|apply inv_ic|done]. }
  destruct (lock h2 (child n)); [by eapply IH|by injection H as <-].
Qed.

Lemma attach_every_layer fuel h s c r h' :
  every_layer inv h → attach fuel h s c = Ok (r, h') → every_layer inv h'.
Proof.
  intros D H. destruct s as [p|]; [|by injection H as _ <-].
  unfold attach in H. inv_bind H as [cc h1] H1. apply detach_every_layer in H1; [|done].
  inv_bind H as c' Hc. inv_bind H as h2 H2. inv_bind H as n Hn. inv_bind H as h3 H3.
  inv_bind H as h4 H4. inv_bind H as h5 H5. injection H as _ <-.
  eapply prime_cache_every_layer; [|done].
  eapply every_layer_modify; [exact H4|intros; by apply inv_set_child|].
  eapply every_layer_modify; [exact H3|intros; by apply inv_set_backing|].
  eapply every_layer_modify; [exact H2|intros; by apply inv_set_parent|done].
Qed.

Lemma run_every_layer fuel h o h' :
  is_read_batch o = false → every_layer inv h → run fuel h o = Ok h' → every_layer inv h'.
Proof.
  intros Ho D H. destruct o; simpl in H; try discriminate Ho.
  - by eapply write_every_layer.
  - by eapply erase_every_layer.
  - by eapply write_batch_every_layer.
  - by eapply erase_batch_every_layer.
  - apply fmap_Ok in H as ([r h1] & H & ->). by eapply read_every_layer.
  - apply fmap_Ok in H as ([r h1] & H & ->). by eapply contains_every_layer.
  - apply fmap_Ok in H as ([r h1] & H & ->). by eapply make_iterator_every_layer.
  - apply fmap_Ok in H as ([r h1] & H & ->). by eapply make_iterator_every_layer.
  - apply fmap_Ok in H as ([r h1] & H & ->). by eapply make_iterator_every_layer.
  - apply fmap_Ok in H as ([r h1] & H & ->). by eapply make_iterator_every_layer.
  - apply fmap_Ok in H as ([r h1] & H & ->). by eapply make_iterator_every_layer.
  - by eapply commit_every_layer.
  - by eapply clear_every_layer.
  - by eapply undo_every_layer.
  - injection H as <-. by apply new_session_every_layer.
  - apply fmap_Ok in H as ([r h1] & H & ->). by eapply make_session_every_layer.
  - apply fmap_Ok in H as ([r h1] & H & ->). by eapply attach_every_layer.
  - apply fmap_Ok in H as ([r h1] & H & ->). by eapply detach_every_layer.
Qed.
End layer_invariant.

Lemma dom_filter_updated (n : session_impl) :
  dom (filter (λ kv : string * string, kv.1 ∈ updated_keys n) (cache n)) =
  filter (λ k, k ∈ updated_keys n) (dom (cache n)).
Proof.
  apply set_eq. intros k. rewrite elem_of_filter, !elem_of_dom. split.
  - intros [v Hv]. apply map_lookup_filter_Some in Hv as [Hv Hk]. eauto.
  - intros [Hk [v Hv]]. exists v. by apply map_lookup_filter_Some.
Qed.

Lemma run_covered fuel h o h' :
  every_layer covered h → run fuel h o = Ok h' → every_layer covered h'.
Proof.
  intros D H. destruct (is_read_batch o) eqn:Ho.
  - destruct o; try discriminate Ho. simpl in H.
    apply fmap_Ok in H as ([r h1] & H & ->). destruct s as [p|]; [|by injection H as _ <-].
    apply read_batch_grows in H as [->|(n & c & ic & Hn & Hd & ->)]; [done|].
    intros q m Hm. unfold put in Hm. simpl in Hm.
    apply lookup_insert_Some in Hm as [[-> <-]|[Hne Hm]].
    + specialize (D q n Hn). unfold covered in *. simpl. set_solver.
    + by eapply D.
  - revert Ho D H. apply run_every_layer; unfold covered.
    + by intros.
    + by intros.
    + intros kv n Hn. simpl. unfold ds_write. set_solver.
    + intros k n Hn. simpl. unfold ds_erase. set_solver.
    + intros k v n _ Hn. simpl. set_solver.
    + intros n Hn. simpl. rewrite dom_filter_updated. set_solver.
    + intros n -> _. set_solver.
Qed.

Lemma run_hidden fuel h o h' :
  is_read_batch o = false →
  every_layer hidden h → run fuel h o = Ok h' → every_layer hidden h'.
Proof.
  apply run_every_layer; unfold hidden.
  - by intros.
  - by intros.
  - intros kv n Hn. simpl. unfold ds_write. set_solver.
  - intros k n Hn. simpl. unfold ds_erase. set_solver.
  - intros k v n Hk Hn. simpl. set_solver.
  - intros n Hn. simpl. rewrite dom_filter_updated. set_solver.
  - intros n _ ->. set_solver.
Qed.

(** X12 (updated keys have overlay entries).  From a heap in which every
    updated key of every layer has an entry in the layer's overlay, as in
    the initial heap, no sequence of operations ([operation]: the reads,
    writes and erases with their batch forms, [contains], the iterator
    constructions, [commit], [clear], [undo], the session constructors,
    [attach] and [detach]) reaches a heap in which a layer has an updated key
    without an overlay entry: what a layer sends to its destination on
    [commit] is a value for each of its updated keys. *)
Theorem updated_keys_stay_covered fuel h os h' :
  every_layer covered h → run_all fuel h os = Ok h' →
  ∀ p n k, impls h' !! p = Some n → k ∈ updated_keys n → is_Some (cache n !! k).
Proof.
  intros D H. assert (every_layer covered h') as D'.
  { revert h D H. induction os as [|o os IH]; intros h D H; simpl in H.
    - by injection H as <-.
    - inv_bind H as h1 H1. eapply IH; [|done]. by eapply run_covered. }
  intros p n k Hn Hk. apply elem_of_dom. by apply (D' p n Hn).
Qed.

(** X13 (tombstoned keys have no overlay entry).  From a heap in which no
    tombstoned key of a layer has an entry in the layer's overlay, no
    sequence of operations ([operation]) without a batch [read] reaches a
    heap in which a layer holds an overlay entry for one of its tombstoned
    keys. *)
Theorem tombstones_stay_hidden fuel h os h' :
  every_layer hidden h → forallb (λ o, negb (is_read_batch o)) os = true →
  run_all fuel h os = Ok h' →
  ∀ p n k, impls h' !! p = Some n → k ∈ deleted_keys n → cache n !! k = None.
Proof.
  intros D Hos H. assert (every_layer hidden h') as D'.
  { revert h D H. induction os as [|o os IH]; intros h D H; simpl in H.
    - by injection H as <-.
    - simpl in Hos. apply andb_true_iff in Hos as [Ho Hos]. apply negb_true_iff in Ho.
      inv_bind H as h1 H1. eapply IH; [done| |done]. by eapply run_hidden. }
  intros p n k Hn Hk. apply not_elem_of_dom. specialize (D' p n Hn). unfold hidden in D'.
  set_solver.
Qed.

Lemma ex_heap_covered : every_layer covered ex_heap.
Proof.
  intros p n Hn. unfold ex_heap in Hn. simpl in Hn.
  apply lookup_insert_Some in Hn as [[_ <-]|[_ Hn]].
  - unfold covered. simpl. set_solver.
  - apply lookup_singleton_Some in Hn as [_ <-]. unfold covered. simpl. set_solver.
Qed.

Lemma ex_heap_hidden : every_layer hidden ex_heap.
Proof.
  intros p n Hn. unfold ex_heap in Hn. simpl in Hn.
  apply lookup_insert_Some in Hn as [[_ <-]|[_ Hn]].
  - unfold hidden. simpl. set_solver.
  - apply lookup_singleton_Some in Hn as [_ <-]. unfold hidden. simpl. set_solver.
Qed.

Lemma updated_keys_stay_covered_witness :
  ∃ h', run_all 5 ex_heap
          [op_write (Some 2) (make_kv "c" "4"); op_read_batch (Some 2) ["a"; "b"];
           op_erase (Some 1) "a"; op_commit (Some 2)] = Ok h' ∧
        ∀ p n k, impls h' !! p = Some n → k ∈ updated_keys n → is_Some (cache n !! k).
Proof.
  destruct (run_all 5 ex_heap
          [op_write (Some 2) (make_kv "c" "4"); op_read_batch (Some 2) ["a"; "b"];
           op_erase (Some 1) "a"; op_commit (Some 2)]) as [h'| |] eqn:E.
  - exists h'. split; [reflexivity|].
    exact (updated_keys_stay_covered 5 ex_heap _ h' ex_heap_covered E).
  - exfalso. vm_compute in E. discriminate E.
  - exfalso. vm_compute in E. discriminate E.
Defined.

Lemma tombstones_stay_hidden_witness :
  ∃ h', run_all 5 ex_heap
          [op_write (Some 2) (make_kv "c" "4"); op_erase (Some 2) "a"; op_read (Some 2) "b";
           op_commit (Some 2)] = Ok h' ∧
        ∀ p n k, impls h' !! p = Some n → k ∈ deleted_keys n → cache n !! k = None.
Proof.
  destruct (run_all 5 ex_heap
          [op_write (Some 2) (make_kv "c" "4"); op_erase (Some 2) "a"; op_read (Some 2) "b";
           op_commit (Some 2)]) as [h'| |] eqn:E.
  - exists h'. split; [reflexivity|].
    eapply (tombstones_stay_hidden 5 ex_heap); [apply ex_heap_hidden| |exact E]. reflexivity.
  - exfalso. vm_compute in E. discriminate E.
  - exfalso. vm_compute in E. discriminate E.
Defined.

(** ** Batch writes and erases, import and export *)

(** The layer and the view of a session after a batch [write] of key/values
    that [f] describes. *)
Lemma write_each_view fuel h p n above kvs (f : string → option string) :
  iterable fuel h p → ancestry h p ((p, n) :: above) →
  (∀ kv, kv ∈ kvs → f (kv_key kv) = Some (kv_value kv)) →
  ∃ n1, write_each fuel h (Some p) kvs = Ok (put p n1 h) ∧
        iterable fuel (put p n1 h) p ∧
        ancestry (put p n1 h) p ((p, n1) :: above) ∧
        backing_data_store n1 = backing_data_store n ∧
        (∀ k, k ∈ kv_key <$> kvs → cache n1 !! k = f k ∧ k ∉ deleted_keys n1) ∧
        (∀ k, k ∈ updated_keys n1 ↔ k ∈ kv_key <$> kvs ∨ k ∈ updated_keys n) ∧
        (∀ base k, k ∉ kv_key <$> kvs →
           merged_view ((p, n1) :: above) base k = merged_view ((p, n) :: above) base k).
Proof.
  intros I A Hf. destruct (ancestry_cons _ _ _ A) as (? & ? & [= <- <-] & Hn).
  destruct (write_each_spec fuel h p n kvs I Hn) as (ic & E & _).
  destruct (foldl_written_fields n kvs) as (HL & HC & HU & HD).
  set (n1 := set_iterator_cache ic (foldl (flip written) n kvs)) in *.
  exists n1. split_and!.
  - done.
  - by apply (iterable_put fuel h p p n (λ _, n1)).
  - apply ancestry_put_front with n; [done|]. unfold links in HL. simpl. congruence.
  - unfold links in HL. simpl. congruence.
  - intros k Hk. simpl. rewrite HC, HD. rewrite (lookup_write_batch _ f) by done.
    destruct (decide (k ∈ kv_key <$> kvs)); [|done]. split; [done|].
    rewrite elem_of_difference, elem_of_list_to_set. tauto.
  - intros k. simpl. rewrite HU, elem_of_union, elem_of_list_to_set. done.
  - intros base k Hk. cbn [merged_view]. simpl. rewrite HC, HD.
    rewrite (lookup_write_batch _ f) by done.
    destruct (decide (k ∈ kv_key <$> kvs)); [done|].
    destruct (decide (k ∈ deleted_keys n)).
    + rewrite decide_True; [done|]. rewrite elem_of_difference, elem_of_list_to_set. tauto.
    + rewrite decide_False; [done|]. rewrite elem_of_difference. tauto.
Qed.

Lemma erase_each_view fuel h p n above ks :
  iterable fuel h p → ancestry h p ((p, n) :: above) →
  ∃ n1, erase_each fuel h (Some p) ks = Ok (put p n1 h) ∧
        iterable fuel (put p n1 h) p ∧
        ancestry (put p n1 h) p ((p, n1) :: above) ∧
        backing_data_store n1 = backing_data_store n ∧
        (∀ k, k ∈ ks → k ∈ deleted_keys n1) ∧
        (∀ base k, k ∉ ks →
           merged_view ((p, n1) :: above) base k = merged_view ((p, n) :: above) base k).
Proof.
  intros I A. destruct (ancestry_cons _ _ _ A) as (? & ? & [= <- <-] & Hn).
  destruct (erase_each_spec fuel h p n ks I Hn) as (ic & E & _).
  destruct (foldl_erased_fields n ks) as (HL & HC & HU & HD).
  set (n1 := set_iterator_cache ic (foldl (flip erased) n ks)) in *.
  exists n1. split_and!.
  - done.
  - by apply (iterable_put fuel h p p n (λ _, n1)).
  - apply ancestry_put_front with n; [done|]. unfold links in HL. simpl. congruence.
  - unfold links in HL. simpl. congruence.
  - intros k Hk. simpl. rewrite HD, elem_of_union, elem_of_list_to_set. by left.
  - intros base k Hk. cbn [merged_view]. simpl. rewrite HC, HD.
    rewrite lookup_erase_batch. destruct (decide (k ∈ ks)); [done|].
    destruct (decide (k ∈ deleted_keys n)).
    + rewrite decide_True; [done|]. rewrite elem_of_union. by right.
    + rewrite decide_False; [done|]. rewrite elem_of_union, elem_of_list_to_set. tauto.
Qed.

(** A read of a key that the session holds in its own overlay, without a
    tombstone. *)
Lemma read_own fuel h p n k v :
  impls h !! p = Some n → k ∉ deleted_keys n → cache n !! k = Some v →
  read (S fuel) h (Some p) k = Ok (Some (make_kv k v), h).
Proof.
  intros Hn Hd Hc. cbn [read read_loop]. unfold get. rewrite Hn. cbn [mbind result_bind deref].
  rewrite decide_False by done. unfold ds_read. rewrite Hc. simpl.
  by rewrite decide_False by (intros ?; done).
Qed.

Lemma read_tombstoned fuel h p n k :
  impls h !! p = Some n → k ∈ deleted_keys n →
  read (S fuel) h (Some p) k = Ok (None, h).
Proof.
  intros Hn Hd. cbn [read read_loop]. unfold get. rewrite Hn. cbn [mbind result_bind deref].
  by rewrite decide_True by done.
Qed.

(** The value of a key in a list of key/values in which a key has one
    value. *)
Lemma functional_values (kvs : list key_value) :
  (∀ kv kv', kv ∈ kvs → kv' ∈ kvs → kv_key kv = kv_key kv' → kv = kv') →
  ∃ f : string → option string, ∀ kv, kv ∈ kvs → f (kv_key kv) = Some (kv_value kv).
Proof.
  intros Hfun.
  exists (λ k, (λ x, kv_value x.2) <$> list_find (λ kv, kv_key kv = k) kvs).
  intros kv Hkv. destruct (list_find_elem_of (λ x, kv_key x = kv_key kv) kvs kv Hkv eq_refl)
    as [[i kv'] Hfind].
  rewrite Hfind. simpl. apply list_find_Some in Hfind as (Hi & Hk & _).
  f_equal. f_equal. apply Hfun; [|done|done]. by eapply list_elem_of_lookup_2.
Qed.

(** X14 (batch write, then read).  After the batch [write] of key/values in
    which no key has two values, every one of them reads back through the
    session, without a change of the heap; the keys written are updated keys
    of the session; and a key outside the batch reads as before. *)
Theorem read_after_write_batch fuel h p kvs :
  iterable fuel h p →
  (∀ kv kv', kv ∈ kvs → kv' ∈ kvs → kv_key kv = kv_key kv' → kv = kv') →
  ∃ h1 n1,
    write_batch fuel h (Some p) kvs = Ok h1 ∧ impls h1 !! p = Some n1 ∧
    (∀ kv, kv ∈ kvs →
       read fuel h1 (Some p) (kv_key kv) = Ok (Some kv, h1) ∧ kv_key kv ∈ updated_keys n1) ∧
    (∀ k, k ∉ kv_key <$> kvs →
       ∃ r h0 h2, read fuel h (Some p) k = Ok (r, h0) ∧ read fuel h1 (Some p) k = Ok (r, h2)).
Proof.
  intros I Hfun. destruct (functional_values kvs Hfun) as [f Hf].
  destruct (iterable_ancestry _ _ _ I) as (n & l & Hn & A & L).
  destruct (ancestry_cons _ _ _ A) as (? & above & -> & Hn').
  assert (x = n) as -> by congruence.
  destruct (write_each_view fuel h p n above kvs f I A Hf)
    as (n1 & E & I1 & A1 & Hb & Hown & Hupd & Hother).
  exists (put p n1 h), n1. split_and!; [done|apply lookup_put_eq| |].
  - intros kv Hkv. assert (kv_key kv ∈ kv_key <$> kvs) as Hk by (apply list_elem_of_fmap; eauto).
    destruct (Hown _ Hk) as [Hc Hd]. rewrite (Hf kv Hkv) in Hc.
    destruct (iterable_fuel _ _ _ I) as [f' ->]. split.
    + rewrite (read_own f' _ p n1 (kv_key kv) (kv_value kv)); [by destruct kv| |done|done].
      apply lookup_put_eq.
    + apply Hupd. by left.
  - intros k Hk.
    destruct (read_view fuel h p n above k I A) as (h0 & E0).
    destruct (read_view fuel _ p n1 above k I1 A1) as (h2 & E2).
    eexists _, h0, h2. split; [exact E0|]. rewrite E2. do 3 f_equal.
    rewrite Hother by done. f_equal. unfold base_store. by rewrite Hb.
Qed.

Lemma read_after_write_batch_witness :
  ∃ h1 n1,
    write_batch 5 ex_heap (Some 2) [make_kv "c" "7"; make_kv "d" "8"] = Ok h1 ∧
    impls h1 !! 2 = Some n1 ∧
    (∀ kv, kv ∈ [make_kv "c" "7"; make_kv "d" "8"] →
       read 5 h1 (Some 2) (kv_key kv) = Ok (Some kv, h1) ∧ kv_key kv ∈ updated_keys n1) ∧
    (∀ k, k ∉ kv_key <$> [make_kv "c" "7"; make_kv "d" "8"] →
       ∃ r h0 h2, read 5 ex_heap (Some 2) k = Ok (r, h0) ∧ read 5 h1 (Some 2) k = Ok (r, h2)).
Proof.
  apply (read_after_write_batch 5 ex_heap 2 [make_kv "c" "7"; make_kv "d" "8"]).
  - apply ex_heap_iterable.
  - intros kv kv' Hkv Hkv' Hk. set_unfold. naive_solver.
Defined.

(** X15 (batch erase, then read).  After the batch [erase] of keys, every
    one of them reads as the invalid key/value through the session, and a
    key outside the batch reads as before. *)
Theorem read_after_erase_batch fuel h p ks :
  iterable fuel h p →
  ∃ h1,
    erase_batch fuel h (Some p) ks = Ok h1 ∧
    (∀ k, k ∈ ks → read fuel h1 (Some p) k = Ok (None, h1)) ∧
    (∀ k, k ∉ ks →
       ∃ r h0 h2, read fuel h (Some p) k = Ok (r, h0) ∧ read fuel h1 (Some p) k = Ok (r, h2)).
Proof.
  intros I.
  destruct (iterable_ancestry _ _ _ I) as (n & l & Hn & A & L).
  destruct (ancestry_cons _ _ _ A) as (? & above & -> & Hn').
  assert (x = n) as -> by congruence.
  destruct (erase_each_view fuel h p n above ks I A) as (n1 & E & I1 & A1 & Hb & Hown & Hother).
  exists (put p n1 h). split_and!; [done| |].
  - intros k Hk. destruct (iterable_fuel _ _ _ I) as [f' ->].
    apply (read_tombstoned f' _ p n1 k); [apply lookup_put_eq|by apply Hown].
  - intros k Hk.
    destruct (read_view fuel h p n above k I A) as (h0 & E0).
    destruct (read_view fuel _ p n1 above k I1 A1) as (h2 & E2).
    eexists _, h0, h2. split; [exact E0|]. rewrite E2. do 3 f_equal.
    rewrite Hother by done. f_equal. unfold base_store. by rewrite Hb.
Qed.

Lemma read_after_erase_batch_witness :
  ∃ h1,
    erase_batch 5 ex_heap (Some 2) ["a"; "b"] = Ok h1 ∧
    (∀ k, k ∈ ["a"; "b"] → read 5 h1 (Some 2) k = Ok (None, h1)) ∧
    (∀ k, k ∉ ["a"; "b"] →
       ∃ r h0 h2, read 5 ex_heap (Some 2) k = Ok (r, h0) ∧ read 5 h1 (Some 2) k = Ok (r, h2)).
Proof. apply (read_after_erase_batch 5 ex_heap 2 ["a"; "b"]). apply ex_heap_iterable. Defined.

(** X16 ([read_from] a store).  [read_from(ds, keys)] writes into the
    session the entries that the store [ds] holds for the keys: each of them
    then reads back through the session and is an updated key of it, which a
    later [commit] sends on.  A key that is not among [keys], or that [ds]
    does not hold, reads as before; in particular [read_from] erases
    nothing. *)
Theorem read_from_imports fuel h p ds keys :
  iterable fuel h p →
  ∃ h1 n1,
    read_from fuel h (Some p) ds keys = Ok h1 ∧ impls h1 !! p = Some n1 ∧
    (∀ k v, k ∈ keys → ds !! k = Some v →
       read fuel h1 (Some p) k = Ok (Some (make_kv k v), h1) ∧ k ∈ updated_keys n1) ∧
    (∀ k, k ∉ keys ∨ ds !! k = None →
       ∃ r h0 h2, read fuel h (Some p) k = Ok (r, h0) ∧ read fuel h1 (Some p) k = Ok (r, h2)).
Proof.
  intros I.
  destruct (iterable_ancestry _ _ _ I) as (n & l & Hn & A & L).
  destruct (ancestry_cons _ _ _ A) as (? & above & -> & Hn').
  assert (x = n) as -> by congruence.
  destruct (write_each_view fuel h p n above (ds_entries ds keys) (ds !!.) I A)
    as (n1 & E & I1 & A1 & Hb & Hown & Hupd & Hother).
  { intros kv Hkv. by apply elem_of_ds_entries in Hkv as [_ ?]. }
  assert (∀ k, k ∈ kv_key <$> ds_entries ds keys ↔ k ∈ keys ∧ is_Some (ds !! k)) as Hkeys.
  { intros k. rewrite list_elem_of_fmap. split.
    - intros (kv & -> & Hkv). apply elem_of_ds_entries in Hkv as [? ?]. eauto.
    - intros [Hk [v Hv]]. exists (make_kv k v). split; [done|].
      by apply elem_of_ds_entries. }
  exists (put p n1 h), n1. split_and!; [done|apply lookup_put_eq| |].
  - intros k v Hk Hv. assert (k ∈ kv_key <$> ds_entries ds keys) as Hin.
    { apply Hkeys. eauto. }
    destruct (Hown _ Hin) as [Hc Hd]. rewrite Hv in Hc.
    destruct (iterable_fuel _ _ _ I) as [f' ->]. split.
    + apply (read_own f' _ p n1 k v); [apply lookup_put_eq|done|done].
    + apply Hupd. by left.
  - intros k Hk. assert (k ∉ kv_key <$> ds_entries ds keys) as Hout.
    { rewrite Hkeys. intros [? [v Hv]]. destruct Hk as [?|Hk]; [done|]. congruence. }
    destruct (read_view fuel h p n above k I A) as (h0 & E0).
    destruct (read_view fuel _ p n1 above k I1 A1) as (h2 & E2).
    eexists _, h0, h2. split; [exact E0|]. rewrite E2. do 3 f_equal.
    rewrite Hother by done. f_equal. unfold base_store. by rewrite Hb.
Qed.

Lemma read_from_imports_witness :
  ∃ h1 n1,
    read_from 5 ex_heap (Some 2) {[ "c" := "5" ]} ["c"; "d"] = Ok h1 ∧
    impls h1 !! 2 = Some n1 ∧
    (∀ k v, k ∈ ["c"; "d"] → ({[ "c" := "5" ]} : gmap string string) !! k = Some v →
       read 5 h1 (Some 2) k = Ok (Some (make_kv k v), h1) ∧ k ∈ updated_keys n1) ∧
    (∀ k, k ∉ ["c"; "d"] ∨ ({[ "c" := "5" ]} : gmap string string) !! k = None →
       ∃ r h0 h2, read 5 ex_heap (Some 2) k = Ok (r, h0) ∧ read 5 h1 (Some 2) k = Ok (r, h2)).
Proof. apply (read_from_imports 5 ex_heap 2 {[ "c" := "5" ]} ["c"; "d"]). apply ex_heap_iterable. Defined.

(** X17 (copying from a session).  [d.read_from(s, keys)], which is
    [s.write_to(d, keys)], writes into the session [d] the values that the
    layers of the session [s] hold for the keys (its view without the
    backing store): each of them then reads back through [d] and is an
    updated key of [d].  A key that is not among [keys], or that no layer of
    [s] holds, or that a layer of [s] hides, reads through [d] as before. *)
Theorem read_from_session_copies fuel h d s l keys :
  iterable fuel h d → ancestry h s l → length l ≤ fuel →
  ∃ h1 n1,
    read_from_session fuel h (Some d) (Some s) keys = Ok h1 ∧
    write_to_session fuel h (Some s) (Some d) keys = Ok h1 ∧
    impls h1 !! d = Some n1 ∧
    (∀ k v, k ∈ keys → merged_view l None k = Some v →
       read fuel h1 (Some d) k = Ok (Some (make_kv k v), h1) ∧ k ∈ updated_keys n1) ∧
    (∀ k, k ∉ keys ∨ merged_view l None k = None →
       ∃ r h0 h2, read fuel h (Some d) k = Ok (r, h0) ∧ read fuel h1 (Some d) k = Ok (r, h2)).
Proof.
  intros I As Ls.
  destruct (iterable_ancestry _ _ _ I) as (n & ld & Hn & A & L).
  destruct (ancestry_cons _ _ _ A) as (? & above & -> & Hn').
  assert (x = n) as -> by congruence.
  set (results := omap (λ key, make_kv key <$> merged_view l None key) keys).
  assert (∀ kv, kv ∈ results ↔
                kv_key kv ∈ keys ∧ merged_view l None (kv_key kv) = Some (kv_value kv))
    as Hres.
  { intros kv. unfold results. rewrite list_elem_of_omap. split.
    - intros (k & Hk & Hv). destruct (merged_view l None k) as [v|] eqn:Hm; [|done].
      injection Hv as <-. done.
    - intros [Hk Hv]. exists (kv_key kv). split; [done|]. rewrite Hv. by destruct kv. }
  destruct (write_each_view fuel h d n above results (merged_view l None) I A)
    as (n1 & E & I1 & A1 & Hb & Hown & Hupd & Hother).
  { intros kv Hkv. by apply Hres in Hkv as [_ ?]. }
  assert (∀ k, k ∈ kv_key <$> results ↔ k ∈ keys ∧ is_Some (merged_view l None k)) as Hkeys.
  { intros k. rewrite list_elem_of_fmap. split.
    - intros (kv & -> & Hkv). apply Hres in Hkv as [? ?]. eauto.
    - intros [Hk [v Hv]]. exists (make_kv k v). split; [done|]. by apply Hres. }
  assert (write_to_session fuel h (Some s) (Some d) keys = Ok (put d n1 h)) as Ew.
  { cbn [write_to_session]. rewrite (write_to_results_spec fuel h s l keys As Ls).
    cbn [mbind result_bind write_batch]. exact E. }
  exists (put d n1 h), n1. split_and!; [exact Ew|exact Ew|apply lookup_put_eq| |].
  - intros k v Hk Hv. assert (k ∈ kv_key <$> results) as Hin.
    { apply Hkeys. eauto. }
    destruct (Hown _ Hin) as [Hc Hd]. rewrite Hv in Hc.
    destruct (iterable_fuel _ _ _ I) as [f' ->]. split.
    + apply (read_own f' _ d n1 k v); [apply lookup_put_eq|done|done].
    + apply Hupd. by left.
  - intros k Hk. assert (k ∉ kv_key <$> results) as Hout.
    { rewrite Hkeys. intros [? [v Hv]]. destruct Hk as [?|Hk]; [done|]. congruence. }
    destruct (read_view fuel h d n above k I A) as (h0 & E0).
    destruct (read_view fuel _ d n1 above k I1 A1) as (h2 & E2).
    eexists _, h0, h2. split; [exact E0|]. rewrite E2. do 3 f_equal.
    rewrite Hother by done. f_equal. unfold base_store. by rewrite Hb.
Qed.

(** The tip of [ex_heap] copies ["a"] from the layers of the root. *)
Lemma read_from_session_copies_witness :
  ∃ h1 n1,
    read_from_session 5 ex_heap (Some 2) (Some 1) ["a"; "b"] = Ok h1 ∧
    write_to_session 5 ex_heap (Some 1) (Some 2) ["a"; "b"] = Ok h1 ∧
    impls h1 !! 2 = Some n1 ∧
    (∀ k v, k ∈ ["a"; "b"] → merged_view [(1, ex_root)] None k = Some v →
       read 5 h1 (Some 2) k = Ok (Some (make_kv k v), h1) ∧ k ∈ updated_keys n1) ∧
    (∀ k, k ∉ ["a"; "b"] ∨ merged_view [(1, ex_root)] None k = None →
       ∃ r h0 h2, read 5 ex_heap (Some 2) k = Ok (r, h0) ∧ read 5 h1 (Some 2) k = Ok (r, h2)).
Proof.
  apply (read_from_session_copies 5 ex_heap 2 1 [(1, ex_root)] ["a"; "b"]).
  - apply ex_heap_iterable.
  - by apply ancestry_head.
  - simpl. lia.
Defined.

(** ** Detach and attach *)

(** A session without parent and without backing store reads its own
    overlay only. *)
Lemma read_free_standing fuel h c n k :
  impls h !! c = Some n → parent n = None → backing_data_store n = None →
  read (S fuel) h (Some c) k =
    Ok (make_kv k <$> (if decide (k ∈ deleted_keys n) then None else cache n !! k), h).
Proof.
  intros Hn Hp Hb. cbn [read read_loop]. unfold get. rewrite Hn. cbn [mbind result_bind deref].
  destruct (decide (k ∈ deleted_keys n)); [done|].
  unfold ds_read. destruct (cache n !! k) as [v|]; simpl.
  - by rewrite decide_False by (intros ?; done).
  - rewrite Hp.
    assert (∀ f, read_loop (S fuel) f h c k None = read_backing (S fuel) h c k) as ->
      by (by intros []).
    unfold read_backing, get. rewrite Hn. simpl. by rewrite Hb.
Qed.

Lemma commit_free_standing fuel h c n :
  impls h !! c = Some n → parent n = None → backing_data_store n = None →
  commit fuel h (Some c) = Ok h.
Proof.
  intros Hn Hp Hb. cbn [commit]. unfold impl_commit, get. rewrite Hn. simpl.
  by rewrite Hp, Hb.
Qed.

(** X18 ([detach]).  [detach] on a session with a live child returns the
    child and takes its parent and its backing store away: the child then
    reads its own overlay only and its [commit] does nothing.  The session
    has no child afterwards, so a second [detach] returns an empty handle and
    changes nothing. *)
Theorem detach_frees_child fuel h p pn c cn k :
  impls h !! p = Some pn → lock h (child pn) = Some c → c ≠ p → impls h !! c = Some cn →
  ∃ h',
    detach h (Some p) = Ok (Some c, h') ∧
    impls h' !! p = Some (set_child None pn) ∧
    free_standing h' c ∧
    commit fuel h' (Some c) = Ok h' ∧
    read (S fuel) h' (Some c) k =
      Ok (make_kv k <$> (if decide (k ∈ deleted_keys cn) then None else cache cn !! k), h') ∧
    detach h' (Some p) = Ok (None, h').
Proof.
  intros Hp Hc Hne Hcn.
  set (cn' := set_backing None (set_parent None cn)).
  set (h' := put p (set_child None pn) (put c cn' h)).
  assert (impls h' !! p = Some (set_child None pn)) as Hp' by apply lookup_put_eq.
  assert (impls h' !! c = Some cn') as Hc'.
  { unfold h'. rewrite lookup_put_ne by done. apply lookup_put_eq. }
  exists h'. split_and!.
  - unfold detach, get. rewrite Hp. cbn [mbind result_bind deref]. rewrite Hc.
    rewrite (modify_lookup _ _ _ cn Hcn). cbn [mbind result_bind].
    rewrite (modify_lookup _ _ _ pn); [done|]. by rewrite lookup_put_ne.
  - done.
  - by exists cn'.
  - by apply (commit_free_standing fuel h' c cn').
  - by rewrite (read_free_standing fuel h' c cn' k).
  - unfold detach, get. rewrite Hp'. cbn [mbind result_bind deref lock set_child child].
    rewrite (modify_lookup _ _ _ _ Hp'). cbn [mbind result_bind].
    by rewrite (put_id h' p) by done.
Qed.

Lemma detach_frees_child_witness :
  ∃ h',
    detach ex_heap (Some 1) = Ok (Some 2, h') ∧
    impls h' !! 1 = Some (set_child None ex_root) ∧
    free_standing h' 2 ∧
    commit 5 h' (Some 2) = Ok h' ∧
    read 6 h' (Some 2) "a" = Ok (None, h') ∧
    detach h' (Some 1) = Ok (None, h').
Proof.
  apply (detach_frees_child 5 ex_heap 1 ex_root 2 ex_tip "a");
    [reflexivity|reflexivity|lia|reflexivity].
Defined.

(** *** Child chains in a changed heap *)

Lemma lock_live h h' w :
  (∀ q, is_Some (impls h' !! q) ↔ is_Some (impls h !! q)) → lock h' w = lock h w.
Proof.
  intros Hlive. destruct w as [c|]; [|done]. simpl. specialize (Hlive c).
  destruct (impls h' !! c), (impls h !! c); try done.
  - destruct Hlive as [Hl _]. destruct Hl as [? ?]; [eauto|done].
  - destruct Hlive as [_ Hl]. destruct Hl as [? ?]; [eauto|done].
Qed.

Lemma child_chain_keep h h' w l :
  (∀ q, is_Some (impls h' !! q) ↔ is_Some (impls h !! q)) →
  (∀ q, q ∈ l → child <$> impls h' !! q = child <$> impls h !! q) →
  child_chain h w l → child_chain h' w l.
Proof.
  intros Hlive Hkeep C. induction C as [|q n l Hn C IH]; [constructor|].
  pose proof (Hkeep q ltac:(left)) as E. rewrite Hn in E.
  destruct (impls h' !! q) as [n'|] eqn:Hn'; [|done]. injection E as E.
  econstructor; [done|]. rewrite E, (lock_live h h') by done.
  apply IH. intros x Hx. apply Hkeep. by right.
Qed.

Lemma child_chain_None h l : child_chain h None l → l = [].
Proof. by inversion 1. Qed.

Lemma child_chain_live h c l : child_chain h (Some c) l → is_Some (impls h !! c).
Proof. inversion 1; eauto. Qed.

(** The chain of children after [p], which had no live child, got the child
    [c]. *)
Lemma child_chain_graft h h' p c cl w l :
  (∀ q, is_Some (impls h' !! q) ↔ is_Some (impls h !! q)) →
  (∀ q, q ≠ p → child <$> impls h' !! q = child <$> impls h !! q) →
  (∃ pn, impls h !! p = Some pn ∧ lock h (child pn) = None) →
  (∃ pn', impls h' !! p = Some pn' ∧ child pn' = Some c) →
  child_chain h' (Some c) cl →
  child_chain h w l →
  ∃ l', child_chain h' w l' ∧ length l' ≤ length l + length cl.
Proof.
  intros Hlive Hkeep (pn & Hp & Hnone) (pn' & Hp' & Hc) Cc C.
  induction C as [|q n l Hn C IH]; [exists []; split; [constructor|simpl; lia]|].
  destruct (decide (q = p)) as [->|Hne].
  - assert (n = pn) as -> by congruence. rewrite Hnone in C.
    apply child_chain_None in C as ->.
    exists (p :: cl). split; [|simpl; lia].
    econstructor; [done|]. rewrite Hc.
    destruct (child_chain_live _ _ _ Cc) as [x Hx]. by rewrite (lock_lookup _ _ _ Hx).
  - destruct IH as (l' & C' & L').
    pose proof (Hkeep q Hne) as E. rewrite Hn in E.
    destruct (impls h' !! q) as [n'|] eqn:Hn'; [|done]. injection E as E.
    exists (q :: l'). split; [|simpl; lia].
    econstructor; [done|]. by rewrite E, (lock_live h h').
Qed.

(** *** [prime_cache] *)

Lemma primed_primed n : primed (primed n) = primed n.
Proof.
  unfold primed, set_cache, set_iterator_cache. destruct n as [pa ch ba c ic u d]. simpl.
  f_equal. apply map_eq. intros k. rewrite !map_lookup_filter.
  destruct (c !! k) as [v|]; simpl; [|done].
  destruct (decide (k ∈ u)).
  - rewrite option_guard_True by done. simpl. by rewrite option_guard_True by done.
  - by rewrite option_guard_False by done.
Qed.

Lemma lookup_primed n k :
  cache (primed n) !! k = if decide (k ∈ updated_keys n) then cache n !! k else None.
Proof.
  unfold primed. simpl. rewrite map_lookup_filter.
  destruct (cache n !! k) as [v|]; simpl; [|by destruct (decide _)].
  destruct (decide (k ∈ updated_keys n)).
  - by rewrite option_guard_True by done.
  - by rewrite option_guard_False by done.
Qed.

(** [prime_cache] primes the session and every session below it, and
    changes nothing else. *)
Lemma prime_cache_spec fuel h c cl :
  child_chain h (Some c) cl → length cl ≤ fuel →
  ∃ h', prime_cache fuel h c = Ok h' ∧ stores h' = stores h ∧
        ∀ q, impls h' !! q = if decide (q ∈ cl) then primed <$> impls h !! q
                             else impls h !! q.
Proof.
  revert h c cl. induction fuel as [|f IH]; intros h c cl C L.
  { inversion C; subst. simpl in L. lia. }
  inversion C as [|? n l Hn C']; subst. simpl in L.
  cbn [prime_cache]. rewrite (modify_lookup _ _ _ _ Hn). cbn [mbind result_bind].
  rewrite (modify_lookup _ _ _ (set_iterator_cache ∅ n)) by apply lookup_put_eq.
  cbn [mbind result_bind]. rewrite put_put. rewrite get_put_eq. cbn [mbind result_bind].
  change (set_cache (filter (λ kv : string * string, kv.1 ∈ updated_keys (set_iterator_cache ∅ n))
                       (cache (set_iterator_cache ∅ n))) (set_iterator_cache ∅ n))
    with (primed n).
  set (h2 := put c (primed n) h).
  assert (lock h2 (child (primed n)) = lock h (child n)) as -> by (by apply (lock_put h c n)).
  assert (child_chain h2 (lock h (child n)) l) as C2.
  { eapply child_chain_shape; [|done]. by apply (same_shape_put h c n (λ _, primed n)). }
  destruct (lock h (child n)) as [c2|] eqn:Hl.
  - destruct (IH h2 c2 l C2) as (h' & E & Hs & Hq); [lia|].
    exists h'. split_and!; [done|done|]. intros q. rewrite Hq.
    destruct (decide (q = c)) as [->|Hne].
    + rewrite (decide_True (P := c ∈ c :: l)) by (by left).
      unfold h2. rewrite lookup_put_eq, Hn. simpl.
      destruct (decide (c ∈ l)); [by rewrite primed_primed|done].
    + unfold h2. rewrite lookup_put_ne by done.
      destruct (decide (q ∈ l)).
      * by rewrite (decide_True (P := q ∈ c :: l)) by (by right).
      * rewrite (decide_False (P := q ∈ c :: l)); [done|]. by intros [?|?]%elem_of_cons.
  - apply child_chain_None in C2 as ->. exists h2. split_and!; [done|done|].
    intros q. unfold h2. destruct (decide (q = c)) as [->|Hne].
    + rewrite decide_True by (by left). by rewrite lookup_put_eq, Hn.
    + rewrite lookup_put_ne by done. rewrite decide_False; [done|].
      by intros [?|?%not_elem_of_nil]%elem_of_cons.
Qed.

(** *** [attach] *)

Lemma attach_steps g h p pn c cn :
  impls h !! p = Some pn → lock h (child pn) = None → impls h !! c = Some cn → c ≠ p →
  attach g h (Some p) (Some c) =
    (h' ← prime_cache g
            (put p (set_child (Some c) pn)
               (put c (set_backing (backing_data_store pn) (set_parent (Some p) cn)) h)) c;
     Ok (None, h')).
Proof.
  intros Hp Hnone Hc Hne. unfold attach, detach, get. rewrite Hp.
  cbn [mbind result_bind deref]. rewrite Hnone. cbn [mbind result_bind].
  rewrite (modify_lookup _ _ _ pn Hp). cbn [mbind result_bind deref].
  rewrite (modify_lookup _ _ _ cn) by (by rewrite lookup_put_ne).
  cbn [mbind result_bind]. rewrite lookup_put_ne, lookup_put_eq by done.
  cbn [mbind result_bind deref]. rewrite (modify_lookup _ _ _ (set_parent (Some p) cn))
    by apply lookup_put_eq.
  cbn [mbind result_bind]. rewrite put_put.
  rewrite (modify_lookup _ _ _ (set_child None pn))
    by (rewrite lookup_put_ne by done; apply lookup_put_eq).
  cbn [mbind result_bind].
  match goal with |- (prime_cache g ?a c ≫= _) = (prime_cache g ?b c ≫= _) =>
    assert (a = b) as ->; [|done] end.
  unfold put. simpl. f_equal. apply map_eq. intros q.
  destruct (decide (q = p)) as [->|Hqp]; [by rewrite !lookup_insert_eq|].
  rewrite !(lookup_insert_ne _ p q) by done.
  destruct (decide (q = c)) as [->|Hqc]; [by rewrite !lookup_insert_eq|].
  rewrite !(lookup_insert_ne _ c q) by done. by rewrite lookup_insert_ne.
Qed.

(** X19 ([attach]).  Let [p] be an iterable session without a live child,
    and [c] a session whose chain of children [cl] is finite and apart from
    the ancestors of [p].  [attach] links [c] below [p], over the backing
    store of [p], and primes it.  Afterwards [c] reads: nothing for a key it
    erased; its own value for a key it wrote; and for every other key what
    [p] reads, whatever read-through entry [c] held for the key before. *)
Theorem attach_reads_over_new_parent f g h p pn above c cn cl k :
  iterable f h p → ancestry h p ((p, pn) :: above) → lock h (child pn) = None →
  impls h !! c = Some cn → child_chain h (Some c) cl → length cl ≤ g →
  (∀ q, q ∈ cl → q ∉ ((p, pn) :: above).*1) →
  ∃ h' h2,
    attach g h (Some p) (Some c) = Ok (None, h') ∧
    read (f + g) h' (Some c) k =
      Ok (make_kv k <$>
            (if decide (k ∈ deleted_keys cn) then None
             else match (if decide (k ∈ updated_keys cn) then cache cn !! k else None) with
                  | Some v => Some v
                  | None => merged_view ((p, pn) :: above) (base_store h pn) k
                  end), h2).
Proof.
  intros I A Hnone Hc C Lc Hapart.
  destruct (ancestry_cons _ _ _ A) as (? & ? & [= <- <-] & Hp).
  assert (c ∈ cl) as Hccl by (inversion C; subst; by left).
  assert (p ∉ cl) as Hpcl.
  { intros Hin. apply (Hapart p Hin). rewrite fmap_cons. by left. }
  assert (c ≠ p) as Hne by (by intros ->).
  set (cn4 := set_backing (backing_data_store pn) (set_parent (Some p) cn)).
  set (pn4 := set_child (Some c) pn).
  set (h4 := put p pn4 (put c cn4 h)).
  assert (impls h4 !! p = Some pn4) as Hp4 by apply lookup_put_eq.
  assert (impls h4 !! c = Some cn4) as Hc4.
  { unfold h4. rewrite lookup_put_ne by done. apply lookup_put_eq. }
  assert (∀ q, q ≠ p → q ≠ c → impls h4 !! q = impls h !! q) as Hq4.
  { intros q ? ?. unfold h4. by rewrite !lookup_put_ne. }
  assert (∀ q, is_Some (impls h4 !! q) ↔ is_Some (impls h !! q)) as Hlive4.
  { intros q. destruct (decide (q = p)) as [->|?]; [rewrite Hp4, Hp; split; eauto|].
    destruct (decide (q = c)) as [->|?]; [rewrite Hc4, Hc; split; eauto|].
    by rewrite Hq4. }
  assert (child_chain h4 (Some c) cl) as C4.
  { apply (child_chain_keep h h4); [done| |done]. intros q Hq.
    destruct (decide (q = c)) as [->|?]; [by rewrite Hc4, Hc|].
    rewrite Hq4; [done| |done]. by intros ->. }
  destruct (prime_cache_spec g h4 c cl C4 Lc) as (h' & E & Hs & Hq').
  assert (impls h' !! p = Some pn4) as Hp'.
  { rewrite Hq'. by rewrite decide_False. }
  assert (impls h' !! c = Some (primed cn4)) as Hc'.
  { rewrite Hq'. rewrite decide_True by done. by rewrite Hc4. }
  assert (∀ q, is_Some (impls h' !! q) ↔ is_Some (impls h !! q)) as Hlive.
  { intros q. rewrite <-Hlive4, Hq'. destruct (decide (q ∈ cl)); [|done].
    by rewrite fmap_is_Some. }
  assert (∀ q, q ≠ p → child <$> impls h' !! q = child <$> impls h !! q) as Hchild.
  { intros q Hqp. rewrite Hq'.
    assert (child <$> impls h4 !! q = child <$> impls h !! q) as <-.
    { destruct (decide (q = c)) as [->|?]; [by rewrite Hc4, Hc|]. by rewrite Hq4. }
    destruct (decide (q ∈ cl)); [|done]. rewrite <-option_fmap_compose.
    by destruct (impls h4 !! q). }
  exists h'. rewrite (attach_steps g h p pn c cn Hp Hnone Hc Hne).
  fold cn4 pn4 h4. rewrite E. cbn [mbind result_bind].
  (* the chain above [c] *)
  destruct (merged_view_agree h h' p _ A) as (l' & A' & El & Hview).
  { intros q Hq. assert (q ∉ cl) as Hqcl by (intros ?; by eapply Hapart).
    rewrite Hq', decide_False by done.
    destruct (decide (q = p)) as [->|?]; [by rewrite Hp4, Hp|].
    rewrite Hq4; [done|done|]. by intros ->. }
  assert (ancestry h' c ((c, primed cn4) :: l')) as Ac.
  { eapply ancestry_step; [exact Hc'|done|exact A']. }
  assert (iterable (f + g) h' c) as I'.
  { destruct I as (l0 & r & clr & n0 & b & ds & A0 & Hr & Cr & L0 & Lr & Hn0 & Hb & Hds).
    pose proof (ancestry_unique _ _ _ _ A0 A) as ->.
    assert (n0 = pn) as -> by congruence.
    destruct (child_chain_graft h h' p c cl (Some r) clr Hlive Hchild) as (clr' & Cr' & Lr').
    - by exists pn.
    - by exists pn4.
    - apply (child_chain_keep h4 h'); [|intros q Hq|done].
      + intros q. by rewrite Hlive, Hlive4.
      + rewrite Hq'. destruct (decide (q ∈ cl)); [|done].
        rewrite <-option_fmap_compose. by destruct (impls h4 !! q).
    - done.
    - exists ((c, primed cn4) :: l'), r, clr', (primed cn4), b, ds. split_and!.
      + done.
      + unfold chain_head in *. rewrite fmap_cons, El.
        destruct (ancestry_cons _ _ _ A') as (? & ? & El' & _).
        rewrite El' in El. rewrite <-El. rewrite <-El in Hr. by rewrite fmap_cons in *.
      + done.
      + simpl. rewrite <-(length_fmap fst l'), El, length_fmap.
        destruct cl; [by apply not_elem_of_nil in Hccl|]. simpl in *. lia.
      + lia.
      + done.
      + done.
      + by rewrite Hs. }
  destruct (read_view (f + g) h' c (primed cn4) l' k I' Ac) as (h2 & E2).
  exists h2. split; [done|]. rewrite E2. do 3 f_equal.
  cbn [merged_view]. change (deleted_keys (primed cn4)) with (deleted_keys cn).
  destruct (decide (k ∈ deleted_keys cn)); [done|].
  rewrite lookup_primed. change (updated_keys cn4) with (updated_keys cn).
  change (cache cn4) with (cache cn).
  assert (merged_view l' (base_store h' (primed cn4)) k =
          merged_view ((p, pn) :: above) (base_store h pn) k) as ->; [|done].
  rewrite Hview. f_equal. unfold base_store. simpl. by rewrite Hs.
Qed.

Lemma attach_reads_over_new_parent_witness :
  ∃ h' h2,
    attach 5 ex_detached (Some 1) (Some 2) = Ok (None, h') ∧
    read (5 + 5) h' (Some 2) "a" = Ok (Some (make_kv "a" "1"), h2).
Proof.
  destruct (attach_reads_over_new_parent 5 5 ex_detached 1
           (SessionImpl None None (Some 1) {[ "a" := "1"; "c" := "3" ]} ∅ {[ "a"; "c" ]} ∅)
           []
           2 (SessionImpl None None None {[ "a" := "0"; "d" := "4" ]} ∅ {[ "d" ]} {[ "c" ]})
           [2] "a") as (h' & h2 & E1 & E2).
  - exists [(1, SessionImpl None None (Some 1) {[ "a" := "1"; "c" := "3" ]} ∅ {[ "a"; "c" ]} ∅)],
      1, [1], (SessionImpl None None (Some 1) {[ "a" := "1"; "c" := "3" ]} ∅ {[ "a"; "c" ]} ∅),
      1, {[ "b" := "2" ]}.
    split_and!; try done.
    + by apply ancestry_head.
    + by repeat econstructor.
    + simpl. lia.
    + simpl. lia.
  - by apply ancestry_head.
  - reflexivity.
  - reflexivity.
  - by repeat econstructor.
  - simpl. lia.
  - intros q Hq. set_unfold. naive_solver.
  - exists h', h2. split; [exact E1|]. etrans; [exact E2|]. vm_compute. reflexivity.
Defined.

(** ** [undo] of a session that has a child *)







(** ** The marks of the iterator cache are carried on *)

Lemma state_kept_refl st : state_kept st st.
Proof. by split_and!. Qed.

Lemma state_kept_trans a b c : state_kept a b → state_kept b c → state_kept a c.
Proof. intros (A1 & A2 & A3) (B1 & B2 & B3). split_and!; [auto|auto|congruence]. Qed.

Lemma ic_kept_refl p h n : impls h !! p = Some n → ic_kept p h h.
Proof.
  intros Hn. exists n, (iterator_cache n). split_and!; [done| |].
  - symmetry. apply put_id. by destruct n.
  - intros k st Hst. exists st. split; [done|apply state_kept_refl].
Qed.

Lemma ic_kept_trans p h1 h2 h3 : ic_kept p h1 h2 → ic_kept p h2 h3 → ic_kept p h1 h3.
Proof.
  intros (n & ic & Hn & -> & K) (n' & ic' & Hn' & -> & K').
  rewrite lookup_put_eq in Hn'. injection Hn' as <-.
  exists n, ic'. split_and!; [done|by rewrite put_put|].
  intros k st Hst. destruct (K k st Hst) as (st1 & H1 & S1).
  destruct (K' k st1 H1) as (st2 & H2 & S2). exists st2. split; [done|].
  by eapply state_kept_trans.
Qed.

Lemma ic_kept_self p h h' : ic_kept p h h' → ic_kept p h' h'.
Proof. intros (n & ic & Hn & -> & _). eapply ic_kept_refl. apply lookup_put_eq. Qed.

Lemma ic_kept_emplace p k h h' :
  modify p (λ n, set_iterator_cache (try_emplace k (iterator_cache n)) n) h = Ok h' →
  ic_kept p h h'.
Proof.
  intros (n & Hn & ->)%modify_Ok. exists n, (try_emplace k (iterator_cache n)).
  split_and!; [done|done|]. intros k' st Hst. exists st. split; [|apply state_kept_refl].
  unfold try_emplace. destruct (iterator_cache n !! k) eqn:E; [done|].
  rewrite lookup_insert_ne; [done|]. intros ->. congruence.
Qed.

Lemma ic_kept_modify_entry p k f h h' :
  (∀ st, state_kept st (f st)) → modify_entry p k f h = Ok h' → ic_kept p h h'.
Proof.
  intros Hf H. unfold modify_entry in H. inv_bind H as n Hn. inv_bind H as st Hst.
  injection H as <-. apply get_Ok in Hn. apply deref_Ok in Hst.
  exists n, (<[k := f st]> (iterator_cache n)). split_and!; [done|done|].
  intros k' st' Hst'. destruct (decide (k' = k)) as [->|Hne].
  - rewrite lookup_insert_eq. exists (f st). split; [done|].
    assert (st' = st) as -> by congruence. apply Hf.
  - rewrite lookup_insert_ne by done. exists st'. split; [done|apply state_kept_refl].
Qed.

Lemma make_iterator_prime_kept fuel h p pred cmp mv it h' :
  make_iterator_prime fuel h p pred cmp mv = Ok (it, h') → ic_kept p h h'.
Proof.
  unfold make_iterator_prime. intros H. inv_bind H as [k|] Hk.
  - inv_bind H as h1 Hm. inv_bind H as it' Hit. injection H as _ <-.
    by eapply ic_kept_emplace.
  - injection H as _ <-. apply find_start_lookup in Hk as [n Hn]. by eapply ic_kept_refl.
Qed.

Lemma bounds_kept fuel h p key r h' : bounds fuel h p key = Ok (r, h') → ic_kept p h h'.
Proof.
  unfold bounds. intros H.
  inv_bind H as [lb h1] H1. apply make_iterator_prime_kept in H1.
  inv_bind H as [ub h2] H2. apply make_iterator_prime_kept in H2.
  inv_bind H as [e h3] H3. apply make_iterator_prime_kept in H3.
  inv_bind H as x1 X1. inv_bind H as x2 X2. inv_bind H as x3 X3. inv_bind H as x4 X4.
  injection H as _ <-. exact (ic_kept_trans _ _ _ _ (ic_kept_trans _ _ _ _ H1 H2) H3).
Qed.

Lemma set_next_kept st : state_kept st (set_next_in_cache true st).
Proof. by split_and!. Qed.

Lemma set_previous_kept st : state_kept st (set_previous_in_cache true st).
Proof. by split_and!. Qed.

Lemma mark_next_kept p key (bound : option string) h h' :
  match bound with
  | Some b =>
      h1 ← modify p (λ n, set_iterator_cache (try_emplace b (iterator_cache n)) n) h;
      h2 ← modify_entry p b (set_next_in_cache true) h1;
      modify_entry p key (set_previous_in_cache true) h2
  | None => Ok h
  end = Ok h' →
  ic_kept p h h → ic_kept p h h'.
Proof.
  destruct bound as [b|]; intros H U0.
  - inv_bind H as h1 H1. inv_bind H as h2 H2.
    apply ic_kept_emplace in H1.
    apply (ic_kept_modify_entry _ _ _ _ _ set_next_kept) in H2.
    apply (ic_kept_modify_entry _ _ _ _ _ set_previous_kept) in H.
    exact (ic_kept_trans _ _ _ _ (ic_kept_trans _ _ _ _ H1 H2) H).
  - by injection H as <-.
Qed.

Lemma mark_previous_kept p key (bound : option string) h h' :
  match bound with
  | Some b =>
      h1 ← modify p (λ n, set_iterator_cache (try_emplace b (iterator_cache n)) n) h;
      h2 ← modify_entry p b (set_previous_in_cache true) h1;
      modify_entry p key (set_next_in_cache true) h2
  | None => Ok h
  end = Ok h' →
  ic_kept p h h → ic_kept p h h'.
Proof.
  destruct bound as [b|]; intros H U0.
  - inv_bind H as h1 H1. inv_bind H as h2 H2.
    apply ic_kept_emplace in H1.
    apply (ic_kept_modify_entry _ _ _ _ _ set_previous_kept) in H2.
    apply (ic_kept_modify_entry _ _ _ _ _ set_next_kept) in H.
    exact (ic_kept_trans _ _ _ _ (ic_kept_trans _ _ _ _ H1 H2) H).
  - by injection H as <-.
Qed.

(** [update_iterator_cache] after its first two steps, the [try_emplace] of
    the key and the overwrite of its deleted mark: the rest carries every
    entry on. *)
Lemma update_iterator_cache_rest fuel h p key params h' :
  update_iterator_cache fuel h p key params = Ok h' →
  ∃ h0 h1,
    modify p (λ n, set_iterator_cache (try_emplace key (iterator_cache n)) n) h = Ok h0 ∧
    (if prime_only params then Ok h0
     else if overwrite params
          then modify_entry p key (set_deleted_flag (mark_deleted params)) h0
          else Ok h0) = Ok h1 ∧
    ic_kept p h1 h'.
Proof.
  unfold update_iterator_cache. intros H.
  inv_bind H as h0 H0. exists h0.
  assert (ic_kept p h0 h0) as U0.
  { apply ic_kept_emplace in H0. by eapply ic_kept_self. }
  destruct (prime_only params); [injection H as <-; by exists h0|].
  inv_bind H as h1 H1. exists h1. split_and!; [done|done|].
  assert (ic_kept p h1 h1) as U1.
  { destruct (overwrite params); [|by injection H1 as <-].
    unfold modify_entry in H1. inv_bind H1 as n1 Hn1. inv_bind H1 as st1 Hst1.
    injection H1 as <-. eapply ic_kept_refl. apply lookup_put_eq. }
  inv_bind H as n1 Hn1. inv_bind H as st Hst.
  destruct (negb (recalculate params) && next_in_cache st && previous_in_cache st).
  { by injection H as <-. }
  inv_bind H as [[lb ub] h2] Hb. apply bounds_kept in Hb.
  inv_bind H as h3 H3.
  apply mark_next_kept in H3; [|by eapply ic_kept_self].
  apply mark_previous_kept in H; [|by eapply (ic_kept_self p h2 h3)].
  exact (ic_kept_trans _ _ _ _ (ic_kept_trans _ _ _ _ Hb H3) H).
Qed.

(** Without [overwrite], [update_iterator_cache] carries every entry on. *)
Lemma update_iterator_cache_kept fuel h p key params h' :
  overwrite params = false →
  update_iterator_cache fuel h p key params = Ok h' → ic_kept p h h'.
Proof.
  intros Ho (h0 & h1 & H0 & H1 & K)%update_iterator_cache_rest.
  rewrite Ho in H1. apply ic_kept_emplace in H0.
  assert (h1 = h0) as -> by (destruct (prime_only params); by injection H1 as <-).
  by eapply ic_kept_trans.
Qed.

Lemma marked_kept p k b h h' : ic_kept p h h' → marked p k b h → marked p k b h'.
Proof.
  intros (n & ic & Hn & -> & K) (n' & st & Hn' & Hst & Hb).
  assert (n' = n) as -> by congruence.
  destruct (K k st Hst) as (st' & Hst' & _ & _ & Hd).
  exists (set_iterator_cache ic n), st'. split_and!; [apply lookup_put_eq|done|congruence].
Qed.

(** With [overwrite], [update_iterator_cache] sets the deleted mark of its
    key, and carries the marks of the other keys on. *)
Lemma update_iterator_cache_marks fuel h p key params h' :
  prime_only params = false → overwrite params = true →
  update_iterator_cache fuel h p key params = Ok h' →
  marked p key (mark_deleted params) h' ∧
  ∀ k b, k ≠ key → marked p k b h → marked p k b h'.
Proof.
  intros Hp Ho (h0 & h1 & H0 & H1 & K)%update_iterator_cache_rest.
  rewrite Hp, Ho in H1. apply ic_kept_emplace in H0.
  unfold modify_entry in H1. inv_bind H1 as n0 Hn0. inv_bind H1 as st0 Hst0.
  injection H1 as <-. apply get_Ok in Hn0. apply deref_Ok in Hst0. split.
  - eapply marked_kept; [done|].
    exists (set_iterator_cache (<[key := set_deleted_flag (mark_deleted params) st0]>
                                  (iterator_cache n0)) n0),
      (set_deleted_flag (mark_deleted params) st0).
    split_and!; [apply lookup_put_eq| |done]. simpl. apply lookup_insert_eq.
  - intros k b Hne M. eapply marked_kept; [done|].
    apply (marked_kept p k b h h0 H0) in M as (n' & st & Hn' & Hst & Hb).
    assert (n' = n0) as -> by congruence.
    exists (set_iterator_cache (<[key := set_deleted_flag (mark_deleted params) st0]>
                                  (iterator_cache n0)) n0), st.
    split_and!; [apply lookup_put_eq| |done]. simpl. by rewrite lookup_insert_ne.
Qed.

(** What [erase] and [write] leave in the iterator cache. *)
Lemma erase_marks fuel h p key h' :
  erase fuel h (Some p) key = Ok h' → marked p key true h'.
Proof.
  intros H. cbn [erase] in H. inv_bind H as h1 H1. inv_bind H as h2 H2. inv_bind H as h3 H3.
  by apply update_iterator_cache_marks in H as [? _].
Qed.

Lemma write_marks fuel h p kv h' :
  write fuel h (Some p) kv = Ok h' → marked p (kv_key kv) false h'.
Proof.
  intros H. cbn [write] in H. inv_bind H as h1 H1. inv_bind H as h2 H2. inv_bind H as h3 H3.
  by apply update_iterator_cache_marks in H as [? _].
Qed.

(** A change of a field other than the iterator cache keeps the marks. *)
Lemma marked_modify p k b f h h' :
  (∀ n, iterator_cache (f n) = iterator_cache n) →
  modify p f h = Ok h' → marked p k b h → marked p k b h'.
Proof.
  intros Hf (n & Hn & ->)%modify_Ok (n' & st & Hn' & Hst & Hb).
  assert (n' = n) as -> by congruence.
  exists (f n), st. split_and!; [apply lookup_put_eq|by rewrite Hf|done].
Qed.

Lemma cache_in_marked fuel h p kv h' k b :
  cache_in fuel h p kv = Ok h' → marked p k b h → marked p k b h'.
Proof.
  unfold cache_in. intros H M. inv_bind H as h1 H1.
  apply (marked_modify p k b _ h h1) in H1; [|done|done].
  apply update_iterator_cache_kept in H; [|done]. by eapply marked_kept.
Qed.

Lemma read_backing_marked fuel h p key r h' k b :
  read_backing fuel h p key = Ok (r, h') → marked p k b h → marked p k b h'.
Proof.
  unfold read_backing. intros H M. inv_bind H as n Hn.
  destruct (backing_data_store n) as [bs|]; [|by injection H as _ <-].
  inv_bind H as ds Hds. destruct (ds_read ds key) as [kv|]; [|by injection H as _ <-].
  inv_bind H as h1 H1. injection H as _ <-. by eapply cache_in_marked.
Qed.

Lemma read_loop_marked fuel0 fuel h p key cur r h' k b :
  read_loop fuel0 fuel h p key cur = Ok (r, h') → marked p k b h → marked p k b h'.
Proof.
  revert cur. induction fuel as [|f IH]; intros cur H M.
  - destruct cur as [q|]; simpl in H; [done|]. by eapply read_backing_marked.
  - destruct cur as [q|]; simpl in H; [|by eapply read_backing_marked].
    inv_bind H as m Hm. destruct (decide (key ∈ deleted_keys m)).
    { by injection H as _ <-. }
    destruct (ds_read (cache m) key) as [kv|].
    + destruct (decide (q ≠ p)).
      * inv_bind H as h1 H1. injection H as _ <-. by eapply cache_in_marked.
      * by injection H as _ <-.
    + by eapply IH.
Qed.

Lemma read_batch_walk_marked fuel0 fuel h p key cur r d h' k b :
  read_batch_walk fuel0 fuel h p key cur = Ok (r, d, h') → marked p k b h → marked p k b h'.
Proof.
  revert cur. induction fuel as [|f IH]; intros cur H M.
  - destruct cur as [q|]; simpl in H; [done|]. by injection H as _ _ <-.
  - destruct cur as [q|]; simpl in H; [|by injection H as _ _ <-].
    inv_bind H as m Hm. destruct (decide (key ∈ deleted_keys m)).
    { by injection H as _ _ <-. }
    destruct (ds_read (cache m) key) as [kv|].
    + destruct (decide (q ≠ p)).
      * inv_bind H as h1 H1. injection H as _ _ <-. by eapply cache_in_marked.
      * by injection H as _ _ <-.
    + by eapply IH.
Qed.

Lemma read_batch_keys_marked fuel h p keys kvs nf r h' k b :
  read_batch_keys fuel h p keys kvs nf = Ok (r, h') → marked p k b h → marked p k b h'.
Proof.
  revert h kvs nf. induction keys as [|key keys IH]; intros h kvs nf H M; simpl in H.
  - by injection H as _ <-.
  - inv_bind H as [[x d] h1] H1. apply (read_batch_walk_marked _ _ _ _ _ _ _ _ _ k b) in H1; [|done].
    destruct x; by eapply IH.
Qed.

Lemma read_batch_marked fuel h p keys r h' k b :
  read_batch fuel h (Some p) keys = Ok (r, h') → marked p k b h → marked p k b h'.
Proof.
  unfold read_batch. intros H M. inv_bind H as [[kvs nf] h1] H1.
  apply (read_batch_keys_marked _ _ _ _ _ _ _ _ k b) in H1; [|done].
  inv_bind H as n Hn.
  destruct (backing_data_store n) as [bs|]; [|by injection H as _ <-].
  inv_bind H as ds Hds. destruct (ds_read_batch ds (set_keys nf)) as [found missing].
  inv_bind H as h2 H2. injection H as _ <-.
  destruct (bool_decide (found ≠ [])); [|by injection H2 as <-].
  eapply (marked_modify p k b _ h1 h2); [|exact H2|exact H1]. done.
Qed.

Lemma contains_loop_marked fuel0 fuel h p key cur r h' k b :
  contains_loop fuel0 fuel h p key cur = Ok (r, h') → marked p k b h → marked p k b h'.
Proof.
  revert cur. induction fuel as [|f IH]; intros cur H M.
  - destruct cur as [q|]; simpl in H; [done|].
    inv_bind H as n Hn. inv_bind H as ds Hds. by injection H as _ <-.
  - destruct cur as [q|]; simpl in H.
    + inv_bind H as m Hm. destruct (decide (key ∈ deleted_keys m)).
      { by injection H as _ <-. }
      destruct (ds_contains (cache m) key).
      * inv_bind H as h1 H1. injection H as _ <-.
        apply update_iterator_cache_kept in H1; [|done]. by eapply marked_kept.
      * by eapply IH.
    + inv_bind H as n Hn. inv_bind H as ds Hds. by injection H as _ <-.
Qed.

(** An iterator construction carries the marks on, and does not stop at a
    key whose entry is marked deleted. *)
Lemma make_iterator_marked fuel h p pred cmp mv prime it h' :
  make_iterator_ fuel h (Some p) pred cmp mv prime = Ok (it, h') →
  (∀ k b, marked p k b h → marked p k b h') ∧
  (∀ k, marked p k true h → m_active_iterator it ≠ Some k) ∧
  (∀ k, m_active_iterator it = Some k → marked p k false h').
Proof.
  cbn [make_iterator_]. intros H. inv_bind H as [ck|] Hck.
  - inv_bind H as h1 H1. inv_bind H as it' Hit. injection H as <- <-.
    apply update_iterator_cache_kept in H1; [|done].
    unfold position_at in Hit. inv_bind Hit as n Hn. inv_bind Hit as st Hst.
    injection Hit as <-. apply get_Ok in Hn. apply deref_Ok in Hst. split_and!.
    + intros k b M. by eapply marked_kept.
    + intros k M. apply (marked_kept p k true h h1 H1) in M as (n' & st' & Hn' & Hst' & Hd).
      assert (n' = n) as -> by congruence. simpl.
      destruct (deleted st) eqn:Ed; [done|]. intros [= ->]. congruence.
    + intros k. simpl. destruct (deleted st) eqn:Ed; [done|]. intros [= ->].
      by exists n, st.
  - injection H as <- <-. split_and!; [done|done|done].
Qed.

Lemma query_marked fuel h p o h' k b :
  is_query p o = true → run fuel h o = Ok h' → marked p k b h → marked p k b h'.
Proof.
  intros Hq H M. destruct o; simpl in Hq; try discriminate Hq;
    apply bool_decide_eq_true in Hq as ->; simpl in H;
    apply fmap_Ok in H as ([r h1] & H & ->); simpl.
  - cbn [read] in H. by eapply read_loop_marked.
  - by eapply read_batch_marked.
  - cbn [contains] in H. by eapply contains_loop_marked.
  - by eapply make_iterator_marked.
  - by eapply make_iterator_marked.
  - by eapply make_iterator_marked.
  - by eapply make_iterator_marked.
  - by eapply make_iterator_marked.
Qed.

Lemma queries_marked fuel h p os h' k b :
  forallb (is_query p) os = true → run_all fuel h os = Ok h' →
  marked p k b h → marked p k b h'.
Proof.
  revert h. induction os as [|o os IH]; intros h Hos H M; simpl in H.
  - by injection H as <-.
  - simpl in Hos. apply andb_true_iff in Hos as [Ho Hos]. inv_bind H as h1 H1.
    eapply IH; [done|done|]. by eapply query_marked.
Qed.

(** X21 (an erased key stays hidden from the iterators).  After [erase(k)]
    through a session, and after any further reads, [contains] and iterator
    constructions through it, no iterator construction of the session
    ([begin], [find], [lower_bound], [upper_bound], [end]) returns the
    position of [k]. *)
Theorem erased_key_hidden_from_iterators fuel h p k h1 os h2 pred cmp mv prime it h3 :
  erase fuel h (Some p) k = Ok h1 →
  forallb (is_query p) os = true → run_all fuel h1 os = Ok h2 →
  make_iterator_ fuel h2 (Some p) pred cmp mv prime = Ok (it, h3) →
  m_active_iterator it ≠ Some k.
Proof.
  intros He Hos Hrun Hit. apply erase_marks in He.
  apply (queries_marked fuel h1 p os h2 k true Hos Hrun) in He.
  by apply (make_iterator_marked _ _ _ _ _ _ _ _ _ Hit).
Qed.

(** ** The order of the keys *)

Lemma ascii_compare_refl a : Ascii.compare a a = Eq.
Proof. unfold Ascii.compare. apply N.compare_refl. Qed.

Lemma ascii_compare_lt_trans a b c :
  Ascii.compare a b = Lt → Ascii.compare b c = Lt → Ascii.compare a c = Lt.
Proof.
  unfold Ascii.compare. rewrite !N.compare_lt_iff. apply N.lt_trans.
Qed.

Lemma string_compare_refl a : String.compare a a = Eq.
Proof. induction a as [|x a IH]; [done|]. simpl. by rewrite ascii_compare_refl. Qed.

Lemma string_compare_lt_trans a b c :
  String.compare a b = Lt → String.compare b c = Lt → String.compare a c = Lt.
Proof.
  revert b c. induction a as [|x a IH]; intros [|y b] [|z c]; simpl; try done.
  destruct (Ascii.compare x y) eqn:Exy; [| |done].
  - apply Ascii.compare_eq_iff in Exy as ->.
    destruct (Ascii.compare y z); [apply IH|done|done].
  - destruct (Ascii.compare y z) eqn:Eyz; [| |done].
    + apply Ascii.compare_eq_iff in Eyz as <-. by rewrite Exy.
    + by rewrite (ascii_compare_lt_trans x y z).
Qed.

Lemma ltb_irrefl a : String.ltb a a = false.
Proof. unfold String.ltb. by rewrite string_compare_refl. Qed.

Lemma ltb_trans a b c :
  String.ltb a b = true → String.ltb b c = true → String.ltb a c = true.
Proof.
  unfold String.ltb. intros Hab Hbc.
  destruct (String.compare a b) eqn:Eab; try done.
  destruct (String.compare b c) eqn:Ebc; try done.
  by rewrite (string_compare_lt_trans a b c).
Qed.

Lemma ltb_total a b : String.ltb a b = false → a ≠ b → String.ltb b a = true.
Proof.
  unfold String.ltb. intros Hab Hne. rewrite String.compare_antisym.
  destruct (String.compare a b) eqn:Eab; [|done|done].
  by apply String.compare_eq_iff in Eab.
Qed.

Lemma insert_key_increasing k l : k ∉ l → increasing l → increasing (insert_key k l).
Proof.
  intros Hk. induction l as [|x l IH]; intros S; simpl.
  - split; [constructor|done].
  - destruct S as [Hx S]. destruct (String.ltb k x) eqn:E.
    + split; [|by split]. constructor; [done|].
      eapply Forall_impl; [exact Hx|]. intros y Hy. by eapply ltb_trans.
    + split.
      * apply Forall_forall. intros y Hy. apply elem_of_insert_key in Hy as [->|Hy].
        -- apply ltb_total; [done|]. set_solver.
        -- by eapply (proj1 (Forall_forall _ _) Hx).
      * apply IH; [set_solver|done].
Qed.

Lemma sort_keys_increasing l : NoDup l → increasing (sort_keys l).
Proof.
  induction 1 as [|x l Hx ND IH]; simpl; [done|].
  apply insert_key_increasing; [|done]. by rewrite elem_of_sort_keys.
Qed.

Lemma sorted_keys_increasing {V} (m : gmap string V) : increasing (sorted_keys m).
Proof. apply sort_keys_increasing, NoDup_fst_map_to_list. Qed.

Lemma elem_of_sorted_keys {V} (m : gmap string V) k : k ∈ sorted_keys m ↔ is_Some (m !! k).
Proof.
  unfold sorted_keys. rewrite elem_of_sort_keys. rewrite <-elem_of_dom.
  rewrite dom_alt. by rewrite elem_of_list_to_set.
Qed.

(** The position of a key of a sorted list: [lower_bound] stops at it. *)
Lemma drop_while_lower k l :
  increasing l → k ∈ l → ∃ rest, drop_while (λ x, String.ltb x k) l = k :: rest.
Proof.
  induction l as [|x l IH]; intros S Hk; [by apply not_elem_of_nil in Hk|].
  destruct S as [Hx S]. simpl. destruct (String.ltb x k) eqn:E.
  - apply IH; [done|]. apply elem_of_cons in Hk as [->|Hk]; [|done].
    by rewrite ltb_irrefl in E.
  - apply elem_of_cons in Hk as [->|Hk]; [eauto|].
    rewrite (proj1 (Forall_forall _ _) Hx k Hk) in E. done.
Qed.

(** [ds.find(k)] is the position of [k], or [end()]. *)
Lemma ds_find_head {V} (m : gmap string V) k :
  match m !! k with
  | Some _ => ∃ rest, ds_find m k = k :: rest
  | None => ds_find m k = []
  end.
Proof.
  unfold ds_find. destruct (m !! k) eqn:E; [|done].
  apply drop_while_lower; [apply sorted_keys_increasing|]. apply elem_of_sorted_keys. eauto.
Qed.

(** ** [find] *)

Lemma make_iterator_total fuel h p pred cmp mv prime :
  iterable fuel h p → ∃ it h', make_iterator_ fuel h (Some p) pred cmp mv prime = Ok (it, h').
Proof.
  intros I. cbn [make_iterator_].
  destruct (find_start_total fuel h p pred cmp mv I) as [[k|] ->]; simpl; [|eauto].
  destruct (update_iterator_cache_total fuel h p k
              (IteratorCacheParams prime true false false) I) as [h' E].
  rewrite E. simpl.
  destruct (iterable_lookup _ _ _ (iterable_ic_update _ _ _ _ _
              (update_iterator_cache_frame _ _ _ _ _ _ E) I)) as [n Hn].
  destruct (update_iterator_cache_entry _ _ _ _ _ _ n E Hn) as [st Hst].
  unfold position_at, get. rewrite Hn. simpl. rewrite Hst. simpl. eauto.
Qed.

(** Where an iterator construction stops: at the key its search found, or
    at [end()]. *)
Lemma make_iterator_position fuel h p pred cmp mv prime it h' :
  make_iterator_ fuel h (Some p) pred cmp mv prime = Ok (it, h') →
  m_active_session it = Some p ∧
  ∃ ck, find_start fuel h p pred cmp mv = Ok ck ∧
        (m_active_iterator it = None ∨ m_active_iterator it = ck).
Proof.
  cbn [make_iterator_]. intros H. inv_bind H as [ck|] Hck.
  - inv_bind H as h1 H1. inv_bind H as it' Hit. injection H as <- <-. split.
    + by eapply position_at_session.
    + exists (Some ck). split; [done|].
      unfold position_at in Hit. inv_bind Hit as n Hn. inv_bind Hit as st Hst.
      injection Hit as <-. simpl. destruct (deleted st); eauto.
  - injection H as <- <-. split; [done|]. exists None. eauto.
Qed.

Lemma find_first_not_find fuel h m r (c : gmap string string) k res :
  find_first_not fuel h m r move_to_end (ds_find c k) = Ok res →
  res.1 = None ∨ res.1 = Some k.
Proof.
  pose proof (ds_find_head c k) as Hh. destruct (c !! k).
  - destruct Hh as [rest ->]. simpl. intros H. inv_bind H as d Hd.
    destruct d; injection H as <-; eauto.
  - rewrite Hh. simpl. intros [= <-]. eauto.
Qed.

Lemma scan_levels_find fuel0 fuel h m r cmp k c ck res :
  ck = None ∨ ck = Some k →
  scan_levels fuel0 fuel h m r (λ ds, ds_find ds k) cmp move_to_end c ck = Ok res →
  res = None ∨ res = Some k.
Proof.
  revert c ck. induction fuel as [|f IH]; intros c ck Hck H.
  - destruct c; simpl in H; [done|]. by injection H as <-.
  - destruct c as [q|]; simpl in H; [|by injection H as <-].
    inv_bind H as n Hn. inv_bind H as [pk pos] Hf.
    apply find_first_not_find in Hf as [Hpk|Hpk]; simpl in Hpk; subst pk.
    + by eapply IH.
    + assert (match ck with
              | Some ck0 => if cmp k ck0 then Some k else Some ck0
              | None => Some k
              end = Some k) as Hnew.
      { destruct Hck as [->| ->]; [done|]. by destruct (cmp k k). }
      rewrite Hnew in H. destruct (decide (q = m)).
      * injection H as <-. eauto.
      * eapply IH; [|done]. eauto.
Qed.

Lemma find_start_find fuel h p cmp k ck :
  find_start fuel h p (λ ds, ds_find ds k) cmp move_to_end = Ok ck →
  ck = None ∨ ck = Some k.
Proof.
  unfold find_start. intros H. inv_bind H as n Hn. inv_bind H as r Hr. inv_bind H as ds Hds.
  inv_bind H as [ck0 pos] Hf. apply find_first_not_find in Hf. simpl in Hf.
  by eapply scan_levels_find.
Qed.

(** X22 ([find] of an erased key).  After [erase(k)] on an iterable
    session, [find(k)] on the session returns [end()]. *)
Theorem find_after_erase fuel h p k :
  iterable fuel h p →
  ∃ h1 h2, erase fuel h (Some p) k = Ok h1 ∧
           session_find fuel h1 (Some p) k = Ok (SessionIterator None (Some p), h2).
Proof.
  intros I. destruct (iterable_lookup _ _ _ I) as [n Hn].
  destruct (erase_spec fuel h p n k I Hn) as (ic & He & _ & _).
  set (h1 := put p _ h) in *.
  assert (iterable fuel h1 p) as I1.
  { by apply (iterable_put fuel h p p n (λ n, set_iterator_cache ic (erased k n))). }
  unfold session_find.
  destruct (make_iterator_total fuel h1 p (λ ds, ds_find ds k) (λ _ _, true) move_to_end
              false I1) as (it & h2 & E).
  exists h1, h2. split; [done|]. rewrite E. do 2 f_equal.
  destruct (make_iterator_position _ _ _ _ _ _ _ _ _ E) as (Hs & ck & Hck & Hpos).
  pose proof (proj1 (proj2 (make_iterator_marked _ _ _ _ _ _ _ _ _ E)) k
                (erase_marks _ _ _ _ _ He)) as Hnot.
  apply find_start_find in Hck.
  destruct it as [pos s]. simpl in *. subst s. f_equal.
  destruct Hpos as [?|Hpos]; [done|]. destruct Hck as [->| ->]; [done|]. done.
Qed.

Lemma find_after_erase_witness :
  ∃ h1 h2, erase 5 ex_heap (Some 2) "a" = Ok h1 ∧
           session_find 5 h1 (Some 2) "a" = Ok (SessionIterator None (Some 2), h2).
Proof. apply (find_after_erase 5 ex_heap 2 "a"). apply ex_heap_iterable. Defined.

(** *** [find] of a written key *)

Lemma tip_iterable fuel h p : tip fuel h p → iterable fuel h p.
Proof.
  intros (l & r & cl & n & b & ds & A & Hr & C & Hin & L1 & L2 & Hn & Hc & Hb & Hs).
  by exists l, r, cl, n, b, ds.
Qed.

Lemma tip_put fuel h p n (f : session_impl → session_impl) :
  impls h !! p = Some n → links (f n) = links n → tip fuel h p → tip fuel (put p (f n) h) p.
Proof.
  intros Hn Hl (l & r & cl & n' & b & ds & A & Hr & C & Hin & L1 & L2 & Hn' & Hc & Hb & Hs).
  assert (n' = n) as -> by congruence.
  pose proof (same_shape_put h p n f Hn Hl) as S.
  destruct (ancestry_shape _ _ _ _ S A) as (l' & A' & El).
  exists l', r, cl, (f n), b, ds. split_and!.
  - done.
  - unfold chain_head in *. by rewrite El.
  - by eapply child_chain_shape.
  - done.
  - rewrite <-(length_fmap fst), El, length_fmap. lia.
  - done.
  - apply lookup_put_eq.
  - rewrite (same_shape_lock h) by done. unfold links in Hl. by replace (child (f n)) with (child n) by congruence.
  - unfold links in Hl. congruence.
  - done.
Qed.

(** The walk of the [deleted] lambda ends at [m_impl], with the answer of
    [m_impl] when the key is updated or deleted there. *)
Lemma deleted_walk_reaches fuel h p n k w l res :
  child_chain h w l → p ∈ l → length l ≤ fuel →
  impls h !! p = Some n → k ∉ deleted_keys n → k ∈ updated_keys n →
  deleted_walk fuel h p w k res = Ok false.
Proof.
  intros C. revert fuel res. induction C as [|q m l Hm C IH]; intros fuel res Hin L Hn Hd Hu.
  - by apply not_elem_of_nil in Hin.
  - destruct fuel as [|f]; [simpl in L; lia|]. simpl. unfold get. rewrite Hm. simpl.
    destruct (decide (q = p)) as [->|Hne].
    + assert (m = n) as -> by congruence.
      rewrite decide_False by done. by rewrite decide_True by done.
    + apply IH; [|simpl in L; lia|done|done|done].
      apply elem_of_cons in Hin as [?|?]; [congruence|done].
Qed.

Lemma deleted_below_tip fuel h p n r cl k :
  child_chain h (Some r) cl → p ∈ cl → length cl ≤ fuel →
  impls h !! p = Some n → lock h (child n) = None →
  k ∉ deleted_keys n → k ∈ updated_keys n →
  deleted_below fuel h p r k = Ok false.
Proof.
  intros C Hin L Hn Hc Hd Hu. inversion C as [|? rn cl' Hrn C']; subst.
  unfold deleted_below, get. rewrite Hrn. simpl.
  destruct (decide (p = r)) as [->|Hne].
  - assert (rn = n) as -> by congruence. rewrite Hc. by destruct fuel.
  - eapply deleted_walk_reaches; [done| |simpl in L; lia|done|done|done].
    apply elem_of_cons in Hin as [?|?]; [congruence|done].
Qed.

(** The scan of [find(k)] over the levels, down to a session that holds
    [k], finds [k]. *)
Lemma scan_levels_reaches fuel0 fuel h p n r cmp k v c l ck :
  child_chain h c l → p ∈ l → length l ≤ fuel →
  impls h !! p = Some n → cache n !! k = Some v →
  deleted_below fuel0 h p r k = Ok false →
  ck = None ∨ ck = Some k →
  scan_levels fuel0 fuel h p r (λ ds, ds_find ds k) cmp move_to_end c ck = Ok (Some k).
Proof.
  intros C. revert fuel ck.
  induction C as [|q m l Hm C IH]; intros fuel ck Hin L Hn Hv Hd Hck.
  - by apply not_elem_of_nil in Hin.
  - destruct fuel as [|f]; [simpl in L; lia|]. simpl. unfold get. rewrite Hm. simpl.
    pose proof (ds_find_head (cache m) k) as Hh.
    destruct (cache m !! k) as [v'|] eqn:Hk.
    + destruct Hh as [rest ->]. simpl. rewrite Hd. simpl.
      assert (match ck with
              | Some ck0 => if cmp k ck0 then Some k else Some ck0
              | None => Some k
              end = Some k) as ->.
      { destruct Hck as [->| ->]; [done|]. by destruct (cmp k k). }
      destruct (decide (q = p)); [done|].
      apply IH; [|simpl in L; lia|done|done|done|eauto].
      apply elem_of_cons in Hin as [?|?]; [congruence|done].
    + rewrite Hh. simpl. destruct (decide (q = p)) as [->|Hne]; [congruence|].
      apply IH; [|simpl in L; lia|done|done|done|done].
      apply elem_of_cons in Hin as [?|?]; [congruence|done].
Qed.

Lemma find_start_tip fuel h p n cmp k v :
  tip fuel h p → impls h !! p = Some n →
  cache n !! k = Some v → k ∉ deleted_keys n → k ∈ updated_keys n →
  find_start fuel h p (λ ds, ds_find ds k) cmp move_to_end = Ok (Some k).
Proof.
  intros (l & r & cl & n' & b & ds & A & Hr & C & Hin & L1 & L2 & Hn' & Hc & Hb & Hs)
    Hn Hv Hd Hu.
  assert (n' = n) as -> by congruence.
  unfold find_start, get, backing. rewrite Hn. simpl.
  destruct (root_of_total fuel h p l A L1) as (r' & Hr' & ->). simpl.
  rewrite Hr in Hr'. injection Hr' as <-.
  rewrite Hb. simpl. rewrite Hs. simpl.
  destruct (find_first_not_total fuel h p r cl move_to_end (ds_find ds k) C L2)
    as [[ck pos] Hf].
  rewrite Hf. simpl. apply find_first_not_find in Hf. simpl in Hf.
  eapply scan_levels_reaches; try done.
  by eapply deleted_below_tip.
Qed.

(** X23 ([find] of a written key).  After [write(kv)] through the session
    at the tip of its chain, [find] of the key returns an iterator of the
    session at the key, and dereferencing it returns [kv]. *)
Theorem find_after_write fuel h p kv :
  tip fuel h p →
  ∃ h1 h2,
    write fuel h (Some p) kv = Ok h1 ∧
    session_find fuel h1 (Some p) (kv_key kv) =
      Ok (SessionIterator (Some (kv_key kv)) (Some p), h2) ∧
    iterator_deref fuel h2 (SessionIterator (Some (kv_key kv)) (Some p)) = Ok (Some kv, h2).
Proof.
  intros T. pose proof (tip_iterable _ _ _ T) as I.
  destruct (iterable_lookup _ _ _ I) as [n Hn].
  destruct (write_spec fuel h p n kv I Hn) as (ic & Hw & _ & _).
  set (n1 := set_iterator_cache ic (written kv n)) in *.
  set (h1 := put p n1 h) in *.
  assert (tip fuel h1 p) as T1.
  { by apply (tip_put fuel h p n (λ n, set_iterator_cache ic (written kv n))). }
  pose proof (tip_iterable _ _ _ T1) as I1.
  assert (impls h1 !! p = Some n1) as Hn1 by apply lookup_put_eq.
  assert (cache n1 !! kv_key kv = Some (kv_value kv)) as Hc.
  { simpl. unfold ds_write. apply lookup_insert_eq. }
  assert (kv_key kv ∉ deleted_keys n1) as Hd by (simpl; set_solver).
  assert (kv_key kv ∈ updated_keys n1) as Hu by (simpl; set_solver).
  pose proof (find_start_tip fuel h1 p n1 (λ _ _, true) _ _ T1 Hn1 Hc Hd Hu) as Hfs.
  destruct (update_iterator_cache_total fuel h1 p (kv_key kv)
              (IteratorCacheParams false true false false) I1) as [h2 E].
  pose proof (update_iterator_cache_kept fuel h1 p (kv_key kv)
                (IteratorCacheParams false true false false) h2 eq_refl E) as K.
  pose proof (marked_kept _ _ _ _ _ K (write_marks _ _ _ _ _ Hw)) as (n2 & st & Hn2 & Hst & Hm).
  exists h1, h2. split_and!.
  - done.
  - unfold session_find. cbn [make_iterator_]. rewrite Hfs. cbn [mbind result_bind].
    rewrite E. cbn [mbind result_bind]. unfold position_at, get. rewrite Hn2. simpl.
    rewrite Hst. simpl. by rewrite Hm.
  - unfold iterator_deref, get. cbn [m_active_session m_active_iterator deref mbind result_bind].
    rewrite Hn2. cbn [mbind result_bind deref].
    destruct (iterable_fuel _ _ _ I) as [f ->].
    destruct K as (n1' & ic2 & Hn1' & -> & _).
    assert (n1' = n1) as -> by congruence.
    rewrite lookup_put_eq in Hn2. injection Hn2 as <-.
    rewrite (read_own f _ p (set_iterator_cache ic2 n1) (kv_key kv) (kv_value kv));
      [by destruct kv|apply lookup_put_eq|done|done].
Qed.

Lemma ex_heap_tip : tip 5 ex_heap 2.
Proof.
  exists [(2, ex_tip); (1, ex_root)], 1, [1; 2], ex_tip, 1, {[ "b" := "2" ]}.
  split_and!; try done.
  - apply ex_heap_ancestry.
  - apply ex_heap_children.
  - set_solver.
  - simpl. lia.
  - simpl. lia.
Qed.

Lemma find_after_write_witness :
  ∃ h1 h2,
    write 5 ex_heap (Some 2) (make_kv "c" "7") = Ok h1 ∧
    session_find 5 h1 (Some 2) "c" = Ok (SessionIterator (Some "c") (Some 2), h2) ∧
    iterator_deref 5 h2 (SessionIterator (Some "c") (Some 2)) = Ok (Some (make_kv "c" "7"), h2).
Proof. apply (find_after_write 5 ex_heap 2 (make_kv "c" "7")). apply ex_heap_tip. Defined.

Lemma erased_key_hidden_from_iterators_witness :
  ∃ h1 h2 it h3,
    erase 5 ex_heap (Some 2) "b" = Ok h1 ∧
    run_all 5 h1 [op_read (Some 2) "a"; op_begin (Some 2); op_contains (Some 2) "b"] = Ok h2 ∧
    session_lower_bound 5 h2 (Some 2) "b" = Ok (it, h3) ∧
    m_active_iterator it ≠ Some "b".
Proof.
  destruct (h1 ← erase 5 ex_heap (Some 2) "b";
            h2 ← run_all 5 h1 [op_read (Some 2) "a"; op_begin (Some 2);
                               op_contains (Some 2) "b"];
            '(it, h3) ← session_lower_bound 5 h2 (Some 2) "b";
            Ok (h1, h2, it, h3)) as [[[[h1 h2] it] h3]| |] eqn:E.
  - inv_bind E as h1' E1. inv_bind E as h2' E2. inv_bind E as [it' h3'] E3.
    injection E as -> -> -> ->. exists h1, h2, it, h3. split_and!; [done|done|done|].
    by apply (erased_key_hidden_from_iterators 5 ex_heap 2 "b" h1
                [op_read (Some 2) "a"; op_begin (Some 2); op_contains (Some 2) "b"] h2
                (λ ds, ds_lower_bound ds "b") bytes_less move_next false it h3).
  - exfalso. vm_compute in E. discriminate E.
  - exfalso. vm_compute in E. discriminate E.
Defined.

(** ** [end] and the [find] of a key that is nowhere *)

Lemma find_first_not_nil fuel h m r mv : find_first_not fuel h m r mv [] = Ok (None, []).
Proof. done. Qed.

(** The scan over levels whose containers give [end()] finds nothing. *)
Lemma scan_levels_nothing fuel0 fuel h m r pred cmp mv c l ck res :
  child_chain h c l →
  (∀ q n, q ∈ l → impls h !! q = Some n → pred (cache n) = []) →
  scan_levels fuel0 fuel h m r pred cmp mv c ck = Ok res → res = ck.
Proof.
  intros C. revert fuel. induction C as [|q n l Hn C IH]; intros fuel Hp H.
  - destruct fuel; simpl in H; by injection H as <-.
  - destruct fuel as [|f]; [done|]. simpl in H. unfold get in H. rewrite Hn in H.
    simpl in H. rewrite (Hp q n) in H by (done || by left). simpl in H.
    eapply IH; [|done]. intros q' n' Hq'. apply Hp. by right.
Qed.

(** X24 ([end], and [find] of a key that is nowhere).  On an iterable
    session [end()] returns the end position and changes nothing.  [find] of
    a key that neither the backing store nor the overlay of any session of
    the chain holds returns the same, and changes nothing either. *)
Theorem find_of_missing_key_is_end fuel h p n b ds r cl l k :
  iterable fuel h p → impls h !! p = Some n →
  backing_data_store n = Some b → stores h !! b = Some ds →
  ancestry h p l → chain_head l = Some r → child_chain h (Some r) cl →
  ds !! k = None →
  (∀ q m, q ∈ cl → impls h !! q = Some m → cache m !! k = None) →
  session_end fuel h (Some p) = Ok (SessionIterator None (Some p), h) ∧
  session_find fuel h (Some p) k = Ok (SessionIterator None (Some p), h).
Proof.
  intros I Hn Hb Hs A Hr C Hds Hcl. split.
  - unfold session_end. cbn [make_iterator_].
    destruct (find_start_total fuel h p ds_end bytes_greater move_to_end I) as [ck E].
    rewrite E. by apply find_start_end in E as ->.
  - unfold session_find. cbn [make_iterator_].
    destruct (find_start_total fuel h p (λ ds, ds_find ds k) (λ _ _, true) move_to_end I)
      as [ck E].
    rewrite E. assert (ck = None) as ->; [|done].
    unfold find_start in E. inv_bind E as n' Hn'. apply get_Ok in Hn'.
    assert (n' = n) as -> by congruence.
    inv_bind E as r' Hr'. inv_bind E as ds' Hds'.
    unfold backing in Hds'. rewrite Hb in Hds'. simpl in Hds'. rewrite Hs in Hds'.
    injection Hds' as <-.
    assert (ds_find ds k = []) as Hnil.
    { pose proof (ds_find_head ds k) as Hh. by rewrite Hds in Hh. }
    rewrite Hnil in E. simpl in E.
    destruct (iterable_ancestry _ _ _ I) as (n0 & l0 & _ & A0 & L0).
    pose proof (ancestry_unique _ _ _ _ A A0) as <-.
    destruct (root_of_total fuel h p l A L0) as (r0 & Hr0 & Hroot).
    assert (r' = r) as -> by congruence.
    eapply (scan_levels_nothing fuel fuel h p r _ _ _ (Some r) cl None ck C); [|exact E].
    intros q m Hq Hm. pose proof (ds_find_head (cache m) k) as Hh.
    by rewrite (Hcl q m Hq Hm) in Hh.
Qed.

Lemma find_of_missing_key_is_end_witness :
  session_end 5 ex_heap (Some 2) = Ok (SessionIterator None (Some 2), ex_heap) ∧
  session_find 5 ex_heap (Some 2) "d" = Ok (SessionIterator None (Some 2), ex_heap).
Proof.
  apply (find_of_missing_key_is_end 5 ex_heap 2 ex_tip 1 {[ "b" := "2" ]} 1 [1; 2]
           [(2, ex_tip); (1, ex_root)] "d").
  - apply ex_heap_iterable.
  - reflexivity.
  - reflexivity.
  - reflexivity.
  - apply ex_heap_ancestry.
  - reflexivity.
  - apply ex_heap_children.
  - reflexivity.
  - intros q m Hq Hm. set_unfold. destruct Hq as [->|[->|[]]].
    + injection Hm as <-. reflexivity.
    + injection Hm as <-. reflexivity.
Defined.

(** ** Incrementing an iterator *)

Lemma head_sorted_keys {V} (m : gmap string V) k :
  is_Some (m !! k) → is_Some (head (sorted_keys m)).
Proof.
  intros Hk. apply elem_of_sorted_keys in Hk.
  destruct (sorted_keys m); [by apply not_elem_of_nil in Hk|]. simpl. eauto.
Qed.

Lemma move_next_frame fuel0 fuel h it it' h' :
  move_ fuel0 fuel h it (λ h s pos, next_in_cache <$> entry_at h s pos) ic_incr
    = Ok (it', h') →
  ∃ p k, m_active_session it = Some p ∧ m_active_session it' = Some p ∧
         has_entry p k h ∧ ic_update p h h'.
Proof.
  revert h it. induction fuel as [|f IH]; intros h it H; [done|].
  cbn [move_] in H. inv_bind H as p Hp. apply deref_Ok in Hp.
  inv_bind H as t Ht. apply fmap_Ok in Ht as (st0 & Hst0 & ->).
  assert (∃ k, has_entry p k h) as [k Hk].
  { unfold entry_at in Hst0. inv_bind Hst0 as n Hn. inv_bind Hst0 as k Hk.
    apply get_Ok in Hn. apply deref_Ok in Hst0. exists k, n. eauto. }
  assert (ic_update p h h) as U0.
  { destruct Hk as (n & Hn & _). by eapply ic_update_refl. }
  inv_bind H as [t1 h1] Hr.
  assert (ic_update p h h1) as U1.
  { destruct (next_in_cache st0).
    - by injection Hr as _ <-.
    - inv_bind Hr as k' Hk'. inv_bind Hr as h2 H2. inv_bind Hr as t2 Ht2.
      injection Hr as _ <-. by eapply update_iterator_cache_frame. }
  destruct t1.
  - inv_bind H as n1 Hn1. inv_bind H as pos Hpos. inv_bind H as st Hst.
    destruct (negb (deleted st) || bool_decide (pos = None)).
    + injection H as <- <-. exists p, k. by split_and!.
    + apply IH in H as (p' & k' & Hp' & Hs' & _ & U). simpl in Hp'.
      rewrite Hp in Hp'. injection Hp' as <-.
      exists p, k. split_and!; [done|done|done|]. by eapply ic_update_trans.
  - injection H as <- <-. exists p, k. by split_and!.
Qed.

(** X25 (incrementing never reaches [end()]).  Whenever the increment of a
    session iterator returns, the iterator is at a key: where the walk along
    the iterator cache comes to its end, the iterator goes round to the
    first entry of the iterator cache.  The iterator stays with its
    session. *)
Theorem increment_never_reaches_end fuel h it it' h' :
  move_next_ fuel h it = Ok (it', h') →
  is_Some (m_active_iterator it') ∧ m_active_session it' = m_active_session it.
Proof.
  unfold move_next_. intros H. inv_bind H as [it1 h1] Hm.
  apply move_next_frame in Hm as (p & k & Hp & Hp1 & Hk & U).
  inv_bind H as s Hs. apply deref_Ok in Hs. inv_bind H as n Hn. apply get_Ok in Hn.
  assert (s = p) as -> by congruence.
  destruct (bool_decide (m_active_iterator it1 = None)) eqn:Hend.
  - injection H as <- <-. simpl. split; [|congruence].
    destruct (has_entry_ic_update _ _ _ _ U Hk) as (n' & Hn' & Hin).
    assert (n' = n) as -> by congruence. by eapply head_sorted_keys.
  - injection H as <- <-. split; [|congruence].
    apply bool_decide_eq_false in Hend. by destruct (m_active_iterator it1).
Qed.

(** A root over an empty store that wrote ["a"]: [begin()] incremented is
    at ["a"] again. *)
Lemma increment_never_reaches_end_witness :
  ∃ h first h1 it h2,
    write 5 (root_over ∅).2 (root_over ∅).1 (make_kv "a" "1") = Ok h ∧
    session_begin 5 h (root_over ∅).1 = Ok (first, h1) ∧
    move_next_ 5 h1 first = Ok (it, h2) ∧
    is_Some (m_active_iterator it) ∧ m_active_session it = m_active_session first.
Proof.
  destruct (h ← write 5 (root_over ∅).2 (root_over ∅).1 (make_kv "a" "1");
            '(first, h1) ← session_begin 5 h (root_over ∅).1;
            '(it, h2) ← move_next_ 5 h1 first;
            Ok (h, first, h1, it, h2)) as [[[[[h first] h1] it] h2]| |] eqn:E.
  - inv_bind E as h0 E1. inv_bind E as [first' h1'] E2. inv_bind E as [it' h2'] E3.
    injection E as -> -> -> -> ->. exists h, first, h1, it, h2.
    split_and!; [done|done|done| |];
      by apply (increment_never_reaches_end 5 h1 first it h2).
  - exfalso. vm_compute in E. discriminate E.
  - exfalso. vm_compute in E. discriminate E.
Defined.

(** ** The chain stays linear *)

Lemma linear_shape h h' : same_shape h h' → linear h → linear h'.
Proof.
  intros S L x n' q Hx Hq.
  destruct (same_shape_lookup _ _ _ _ (same_shape_sym _ _ S) Hx) as (n & Hn & Hl).
  destruct (L x n q Hn) as (m & Hm & Hc).
  { unfold links in Hl. congruence. }
  destruct (same_shape_lookup _ _ _ _ S Hm) as (m' & Hm' & Hl').
  exists m'. split; [done|]. unfold links in Hl'. congruence.
Qed.

(** *** The operations that keep the links *)

Lemma reads_into_shape p h h' : reads_into p h h' → same_shape h h'.
Proof.
  intros [->|(n & c & ic & Hn & ->)]; [apply same_shape_refl|].
  by apply (same_shape_put h p n (λ n, set_iterator_cache ic (set_cache c n))).
Qed.

Lemma write_shape fuel h s kv h' : write fuel h s kv = Ok h' → same_shape h h'.
Proof.
  intros H. destruct s as [p|]; [|injection H as <-; apply same_shape_refl].
  apply write_frame in H as (n & ic & Hn & ->).
  by apply (same_shape_put h p n (λ n, set_iterator_cache ic (written kv n))).
Qed.

Lemma erase_shape fuel h s k h' : erase fuel h s k = Ok h' → same_shape h h'.
Proof.
  intros H. destruct s as [p|]; [|injection H as <-; apply same_shape_refl].
  apply erase_frame in H as (n & ic & Hn & ->).
  by apply (same_shape_put h p n (λ n, set_iterator_cache ic (erased k n))).
Qed.

Lemma write_batch_shape fuel h s kvs h' : write_batch fuel h s kvs = Ok h' → same_shape h h'.
Proof.
  intros H. destruct s as [p|]; [|simpl in H; injection H as <-; apply same_shape_refl].
  cbn [write_batch] in H.
  revert h H. induction kvs as [|kv kvs IH]; intros h H; cbn [write_each] in H.
  - injection H as <-. apply same_shape_refl.
  - inv_bind H as h1 H1. eapply same_shape_trans; [by eapply write_shape|by apply IH].
Qed.

Lemma erase_batch_shape fuel h s ks h' : erase_batch fuel h s ks = Ok h' → same_shape h h'.
Proof.
  intros H. destruct s as [p|]; [|simpl in H; injection H as <-; apply same_shape_refl].
  cbn [erase_batch] in H.
  revert h H. induction ks as [|k ks IH]; intros h H; cbn [erase_each] in H.
  - injection H as <-. apply same_shape_refl.
  - inv_bind H as h1 H1. eapply same_shape_trans; [by eapply erase_shape|by apply IH].
Qed.

Lemma modify_shape p f h h' :
  (∀ n, links (f n) = links n) → modify p f h = Ok h' → same_shape h h'.
Proof. intros Hf (n & Hn & ->)%modify_Ok. by apply same_shape_put. Qed.

Lemma commit_shape fuel h s h' : commit fuel h s = Ok h' → same_shape h h'.
Proof.
  intros H. destruct s as [p|]; [|injection H as <-; apply same_shape_refl].
  unfold commit, impl_commit in H. inv_bind H as n Hn.
  destruct (bool_decide (parent n = None) && bool_decide (backing_data_store n = None));
    [injection H as <-; apply same_shape_refl|].
  destruct (bool_decide (updated_keys n = ∅) && bool_decide (deleted_keys n = ∅));
    [injection H as <-; apply same_shape_refl|].
  destruct (parent n) as [q|].
  - inv_bind H as h1 H1. inv_bind H as n1 Hn1. inv_bind H as h2 H2.
    apply erase_batch_shape in H1. apply write_batch_shape in H2.
    apply modify_shape in H; [|done].
    eapply same_shape_trans; [|done]. by eapply same_shape_trans.
  - inv_bind H as b Hb. inv_bind H as ds Hds. apply deref_Ok in Hds.
    apply modify_shape in H; [|done].
    eapply same_shape_trans; [|done]. split; [done|]. intros b'. simpl.
    destruct (decide (b' = b)) as [->|?].
    + rewrite lookup_insert_eq, Hds. split; eauto.
    + by rewrite lookup_insert_ne.
Qed.

Lemma prime_cache_shape fuel h p h' : prime_cache fuel h p = Ok h' → same_shape h h'.
Proof.
  revert h p. induction fuel as [|f IH]; intros h p H; [done|].
  simpl in H. inv_bind H as h1 H1. inv_bind H as h2 H2. inv_bind H as n Hn.
  apply modify_shape in H1; [|done]. apply modify_shape in H2; [|done].
  assert (same_shape h h2) as S by (by eapply same_shape_trans).
  destruct (lock h2 (child n)).
  - eapply same_shape_trans; [done|]. by eapply IH.
  - by injection H as <-.
Qed.

Lemma run_shape fuel h o h' : relinks o = false → run fuel h o = Ok h' → same_shape h h'.
Proof.
  intros Ho H. destruct o; simpl in H; try discriminate Ho.
  - by eapply write_shape.
  - by eapply erase_shape.
  - by eapply write_batch_shape.
  - by eapply erase_batch_shape.
  - apply fmap_Ok in H as ([r h1] & H & ->). destruct s as [p|].
    + eapply reads_into_shape. by eapply read_reads_into.
    + injection H as _ <-. apply same_shape_refl.
  - apply fmap_Ok in H as ([r h1] & H & ->). destruct s as [p|].
    + eapply reads_into_shape. by eapply read_batch_reads_into.
    + injection H as _ <-. apply same_shape_refl.
  - apply fmap_Ok in H as ([r h1] & H & ->). destruct s as [p|].
    + apply contains_loop_changes in H as [->|U]; [apply same_shape_refl|].
      by eapply ic_update_shape.
    + injection H as _ <-. apply same_shape_refl.
  - apply fmap_Ok in H as ([r h1] & H & ->). destruct s as [p|].
    + eapply ic_update_shape. by eapply make_iterator_frame.
    + injection H as _ <-. apply same_shape_refl.
  - apply fmap_Ok in H as ([r h1] & H & ->). destruct s as [p|].
    + eapply ic_update_shape. by eapply make_iterator_frame.
    + injection H as _ <-. apply same_shape_refl.
  - apply fmap_Ok in H as ([r h1] & H & ->). destruct s as [p|].
    + eapply ic_update_shape. by eapply make_iterator_frame.
    + injection H as _ <-. apply same_shape_refl.
  - apply fmap_Ok in H as ([r h1] & H & ->). destruct s as [p|].
    + eapply ic_update_shape. by eapply make_iterator_frame.
    + injection H as _ <-. apply same_shape_refl.
  - apply fmap_Ok in H as ([r h1] & H & ->). destruct s as [p|].
    + eapply ic_update_shape. by eapply make_iterator_frame.
    + injection H as _ <-. apply same_shape_refl.
  - by eapply commit_shape.
  - destruct s as [p|]; [|injection H as <-; apply same_shape_refl].
    cbn [clear] in H. by apply (modify_shape p clear_impl).
Qed.

(** *** The operations that change links *)

Lemma lookup_put h a v x :
  impls (put a v h) !! x = if decide (a = x) then Some v else impls h !! x.
Proof.
  destruct (decide (a = x)) as [->|?]; [apply lookup_put_eq|by apply lookup_put_ne].
Qed.

(** A session loses its parent. *)
Lemma linear_drop_parent h c cn cn' :
  linear h → impls h !! c = Some cn → parent cn' = None → child cn' = child cn →
  linear (put c cn' h).
Proof.
  intros L Hc Hp Hch x n q Hx Hq. rewrite lookup_put in Hx.
  destruct (decide (c = x)) as [->|Hne]; [congruence|].
  destruct (L x n q Hx Hq) as (m & Hm & Hmc). rewrite lookup_put.
  destruct (decide (c = q)) as [->|?]; [|eauto].
  exists cn'. split; [done|]. congruence.
Qed.

(** A session that is no one's parent gets another child link. *)
Lemma linear_set_child h p pn pn' :
  linear h → impls h !! p = Some pn → parent pn' = parent pn →
  (∀ x n, impls h !! x = Some n → parent n ≠ Some p) →
  linear (put p pn' h).
Proof.
  intros L Hp Hpar Hno x n q Hx Hq. rewrite lookup_put in Hx.
  assert (q ≠ p) as Hqp.
  { intros ->. destruct (decide (p = x)) as [->|?].
    - injection Hx as <-. apply (Hno x pn Hp). congruence.
    - by apply (Hno x n Hx). }
  rewrite lookup_put, decide_False by done.
  destruct (decide (p = x)) as [->|?]; [|by eapply L].
  injection Hx as <-. apply (L x pn q Hp). congruence.
Qed.

(** After the live child of [p] lost its parent, no session has the parent
    [p]. *)
Lemma no_child_left h p pn f :
  linear h → impls h !! p = Some pn →
  (∀ n, parent (f n) = None) →
  ∀ h1, match lock h (child pn) with
        | Some c => modify c f h
        | None => Ok h
        end = Ok h1 →
        ∀ x n, impls h1 !! x = Some n → parent n ≠ Some p.
Proof.
  intros L Hp Hf h1 H1 x n Hx Hq.
  destruct (lock h (child pn)) as [c|] eqn:Hl.
  - apply modify_Ok in H1 as (cn & Hc & ->). rewrite lookup_put in Hx.
    destruct (decide (c = x)) as [->|Hne]; [injection Hx as <-; by rewrite Hf in Hq|].
    destruct (L x n p Hx Hq) as (m & Hm & Hmc). assert (m = pn) as -> by congruence.
    rewrite Hmc, (lock_lookup _ _ _ Hx) in Hl. congruence.
  - injection H1 as <-. destruct (L x n p Hx Hq) as (m & Hm & Hmc).
    assert (m = pn) as -> by congruence.
    rewrite Hmc, (lock_lookup _ _ _ Hx) in Hl. congruence.
Qed.

Lemma unlink_child_linear h pn f h1 :
  linear h → (∀ n, parent (f n) = None) → (∀ n, child (f n) = child n) →
  match lock h (child pn) with
  | Some c => modify c f h
  | None => Ok h
  end = Ok h1 →
  linear h1.
Proof.
  intros L Hf Hc H1. destruct (lock h (child pn)) as [c|].
  - apply modify_Ok in H1 as (cn & Hcn & ->). by apply (linear_drop_parent h c cn).
  - by injection H1 as <-.
Qed.

Lemma detach_linear h p r h' :
  detach h (Some p) = Ok (r, h') → linear h →
  linear h' ∧ ∀ x n, impls h' !! x = Some n → parent n ≠ Some p.
Proof.
  intros H L. unfold detach in H. inv_bind H as pn Hp. apply get_Ok in Hp.
  inv_bind H as h1 H1. inv_bind H as h2 H2. injection H as _ <-.
  pose proof (no_child_left h p pn (λ n, set_backing None (set_parent None n)) L Hp
                (λ _, eq_refl) h1 H1) as Hno.
  apply (unlink_child_linear h pn _ h1 L) in H1; [|done|done].
  apply modify_Ok in H2 as (pn1 & Hp1 & ->). split.
  - by apply (linear_set_child h1 p pn1).
  - intros x n Hx. rewrite lookup_put in Hx. destruct (decide (p = x)) as [->|?].
    + injection Hx as <-. by apply (Hno x pn1).
    + by apply (Hno x n).
Qed.

Lemma make_session_linear h s r h' : make_session h s = Ok (r, h') → linear h → linear h'.
Proof.
  intros H L. unfold make_session in H. inv_bind H as p Hs. inv_bind H as pn Hp.
  apply get_Ok in Hp. inv_bind H as h1 H1. inv_bind H as h3 H3. injection H as _ <-.
  pose proof (no_child_left h p pn (λ n, set_parent None (set_backing None n)) L Hp
                (λ _, eq_refl) h1 H1) as Hno.
  assert (impls h1 !! fresh (dom (impls h)) = None) as Hfresh.
  { destruct (lock h (child pn)) as [c|].
    - apply modify_Ok in H1 as (cn & Hcn & ->). rewrite lookup_put.
      destruct (decide _) as [->|?]; [|apply fresh_impl].
      pose proof (fresh_impl h). congruence.
    - injection H1 as <-. apply fresh_impl. }
  apply (unlink_child_linear h pn _ h1 L) in H1; [|done|done].
  set (q := fresh (dom (impls h))) in *.
  apply modify_Ok in H3 as (pn2 & Hp2 & ->).
  rewrite lookup_put in Hp2.
  assert (q ≠ p) as Hqp.
  { intros Heq. pose proof (fresh_impl h) as Hf. fold q in Hf. congruence. }
  rewrite decide_False in Hp2 by done.
  intros x n y Hx Hy. rewrite !lookup_put in Hx. rewrite !lookup_put.
  destruct (decide (p = x)) as [->|Hpx].
  - injection Hx as <-. simpl in Hy.
    assert (y ≠ x) as Hyx by (intros ->; by apply (Hno x pn2)).
    rewrite decide_False by done.
    destruct (H1 x pn2 y Hp2 Hy) as (m & Hm & Hmc).
    rewrite decide_False by (intros <-; congruence). eauto.
  - destruct (decide (q = x)) as [->|Hqx].
    + injection Hx as <-. simpl in Hy. injection Hy as <-.
      rewrite decide_True by done. eauto.
    + assert (y ≠ p) as Hyp by (intros ->; by apply (Hno x n)).
      rewrite decide_False by done.
      destruct (H1 x n y Hx Hy) as (m & Hm & Hmc).
      rewrite decide_False by (intros <-; congruence). eauto.
Qed.

Lemma new_session_linear h ds cds : linear h → linear (new_session h ds cds).2.
Proof.
  intros L x n q Hx Hq. simpl in *. apply lookup_insert_Some in Hx as [[_ <-]|[Hne Hx]].
  - done.
  - destruct (L x n q Hx Hq) as (m & Hm & Hmc). exists m. split; [|done].
    rewrite lookup_insert_ne; [done|]. intros <-. pose proof (fresh_impl h). congruence.
Qed.

Lemma attach_linear fuel h s c r h' : attach fuel h s c = Ok (r, h') → linear h → linear h'.
Proof.
  intros H L. destruct s as [p|]; [|by injection H as _ <-].
  unfold attach in H. inv_bind H as [cc h2] Hd.
  apply detach_linear in Hd as [L2 Hno]; [|done].
  inv_bind H as c' Hc. inv_bind H as h3 H3. inv_bind H as pn3 Hp3. apply get_Ok in Hp3.
  inv_bind H as h4 H4. inv_bind H as h5 H5. inv_bind H as h6 H6. injection H as _ <-.
  apply prime_cache_shape in H6. eapply linear_shape; [exact H6|].
  apply modify_Ok in H3 as (cn & Hcn & ->).
  apply modify_Ok in H4 as (cn3 & Hcn3 & ->).
  apply modify_Ok in H5 as (pn4 & Hpn4 & ->).
  rewrite lookup_put_eq in Hcn3. injection Hcn3 as <-.
  rewrite put_put in Hpn4 |- *.
  set (cn4 := set_backing (backing_data_store pn3) (set_parent (Some p) cn)) in *.
  rewrite lookup_put in Hpn4. rewrite lookup_put in Hp3.
  intros x n y Hx Hy. rewrite !lookup_put in Hx. rewrite !lookup_put.
  destruct (decide (p = x)) as [->|Hpx].
  - injection Hx as <-. simpl in Hy.
    destruct (decide (c' = x)) as [->|Hcx].
    + injection Hpn4 as <-. simpl in Hy. injection Hy as <-.
      rewrite decide_True by done. eauto.
    + assert (y ≠ x) as Hyx by (intros ->; by apply (Hno x pn4)).
      rewrite decide_False by done.
      destruct (L2 x pn4 y Hpn4 Hy) as (m & Hm & Hmc).
      destruct (decide (c' = y)) as [->|?]; [|eauto].
      exists cn4. split; [done|]. simpl. congruence.
  - destruct (decide (c' = x)) as [->|Hcx].
    + injection Hx as <-. simpl in Hy. injection Hy as <-.
      rewrite decide_True by done. eauto.
    + assert (y ≠ p) as Hyp by (intros ->; by apply (Hno x n)).
      rewrite decide_False by done.
      destruct (L2 x n y Hx Hy) as (m & Hm & Hmc).
      destruct (decide (c' = y)) as [->|?]; [|eauto].
      exists cn4. split; [done|]. simpl. congruence.
Qed.

Lemma undo_linear h s h' : undo h s = Ok h' → linear h → linear h'.
Proof.
  intros H L. destruct s as [t|]; [|by injection H as <-].
  unfold undo, impl_undo in H. inv_bind H as tn Ht. apply get_Ok in Ht.
  inv_bind H as h1 H1. inv_bind H as tn1 Ht1. apply get_Ok in Ht1.
  inv_bind H as h2 H2. apply modify_Ok in H as (tn2 & Ht2 & ->).
  (* the first step: the parent gets the child of [t] *)
  assert (parent tn1 = parent tn ∧ child tn1 = child tn ∧
          (∀ x, is_Some (impls h1 !! x) ↔ is_Some (impls h !! x)) ∧
          (∀ x n1, x ≠ t → impls h1 !! x = Some n1 →
             ∃ n, impls h !! x = Some n ∧ parent n1 = parent n ∧
                  child n1 = if decide (parent tn = Some x) then child tn else child n))
    as (Hp1 & Hc1 & Hlive1 & Hh1).
  { destruct (parent tn) as [q|] eqn:Hq.
    - apply modify_Ok in H1 as (qn & Hqn & ->). rewrite lookup_put in Ht1.
      split_and!.
      + destruct (decide (q = t)) as [->|?]; [|congruence].
        injection Ht1 as <-. simpl. congruence.
      + destruct (decide (q = t)) as [->|?]; [|congruence]. by injection Ht1 as <-.
      + intros x. rewrite lookup_put. destruct (decide (q = x)) as [->|?]; [|done].
        rewrite Hqn. split; eauto.
      + intros x n1 Hxt Hx. rewrite lookup_put in Hx.
        destruct (decide (q = x)) as [->|Hqx].
        * injection Hx as <-. exists qn. rewrite decide_True by done. by split_and!.
        * exists n1. rewrite decide_False by congruence. by split_and!.
    - injection H1 as <-. assert (tn1 = tn) as -> by congruence.
      split_and!; [done|done|done|]. intros x n1 _ Hx. exists n1. by split_and!. }
  (* the second step: the child of [t] gets the parent of [t] *)
  assert (∀ x, is_Some (impls h2 !! x) ↔ is_Some (impls h1 !! x)) as Hlive2.
  { destruct (lock h1 (child tn1)) as [c|].
    - apply modify_Ok in H2 as (cn & Hcn & ->). intros x. rewrite lookup_put.
      destruct (decide (c = x)) as [->|?]; [|done]. rewrite Hcn. split; eauto.
    - by injection H2 as <-. }
  assert (∀ x n2, x ≠ t → impls h2 !! x = Some n2 →
            ∃ n1, impls h1 !! x = Some n1 ∧ child n2 = child n1 ∧
                  parent n2 = if decide (lock h (child tn) = Some x) then parent tn
                              else parent n1) as Hh2.
  { rewrite <-Hc1, <-(lock_live h h1) by (intros; by rewrite Hlive1).
    destruct (lock h1 (child tn1)) as [c|] eqn:Hl.
    - apply modify_Ok in H2 as (cn & Hcn & ->). intros x n2 Hxt Hx.
      rewrite lookup_put in Hx. destruct (decide (c = x)) as [->|Hcx].
      + injection Hx as <-. exists cn. rewrite decide_True by done. by split_and!.
      + exists n2. rewrite decide_False by congruence. by split_and!.
    - injection H2 as <-. intros x n2 _ Hx. exists n2.
      rewrite decide_False by congruence. by split_and!. }
  (* the heap at the end *)
  intros x n y Hx Hy. rewrite lookup_put in Hx.
  destruct (decide (t = x)) as [->|Htx]; [by injection Hx as <-|].
  destruct (Hh2 x n ltac:(done) Hx) as (n1 & Hx1 & Hcn & Hpn).
  destruct (Hh1 x n1 ltac:(done) Hx1) as (n0 & Hx0 & Hpn1 & Hcn1).
  destruct (decide (lock h (child tn) = Some x)) as [Hlock|Hlock].
  - (* [x] is the child of [t], and [y] the parent of [t] *)
    rewrite Hy in Hpn. symmetry in Hpn.
    destruct (L t tn y Ht Hpn) as (m & Hm & Hmc).
    assert (y ≠ t) as Hyt.
    { intros ->. assert (m = tn) as -> by congruence.
      rewrite Hmc, (lock_lookup _ _ _ Ht) in Hlock. congruence. }
    rewrite lookup_put, decide_False by done.
    destruct (proj2 (Hlive2 y)) as [m2 Hm2]; [apply Hlive1; eauto|].
    destruct (Hh2 y m2 Hyt Hm2) as (m1 & Hm1 & Hc2 & _).
    destruct (Hh1 y m1 Hyt Hm1) as (m0 & Hm0 & _ & Hc0).
    rewrite decide_True in Hc0 by done.
    exists m2. split; [done|]. rewrite Hc2, Hc0.
    by apply lock_Some in Hlock as [? _].
  - (* [x] keeps its parent *)
    rewrite Hy in Hpn. assert (parent n0 = Some y) as Hy0 by congruence.
    destruct (L x n0 y Hx0 Hy0) as (m & Hm & Hmc).
    assert (y ≠ t) as Hyt.
    { intros ->. assert (m = tn) as -> by congruence.
      rewrite Hmc, (lock_lookup _ _ _ Hx0) in Hlock. congruence. }
    rewrite lookup_put, decide_False by done.
    destruct (proj2 (Hlive2 y)) as [m2 Hm2]; [apply Hlive1; eauto|].
    destruct (Hh2 y m2 Hyt Hm2) as (m1 & Hm1 & Hc2 & _).
    destruct (Hh1 y m1 Hyt Hm1) as (m0 & Hm0 & _ & Hc0).
    assert (m0 = m) as -> by congruence.
    assert (parent tn ≠ Some y) as Hnot.
    { intros Hty. destruct (L t tn y Ht Hty) as (m' & Hm' & Hmc').
      assert (m' = m) as -> by congruence. congruence. }
    rewrite decide_False in Hc0 by done.
    exists m2. split; [done|]. congruence.
Qed.

Lemma run_linear fuel h o h' : run fuel h o = Ok h' → linear h → linear h'.
Proof.
  intros H L. destruct (relinks o) eqn:Ho.
  - destruct o; try discriminate Ho; simpl in H.
    + by eapply undo_linear.
    + injection H as <-. by apply new_session_linear.
    + apply fmap_Ok in H as ([r h1] & H & ->). by eapply make_session_linear.
    + apply fmap_Ok in H as ([r h1] & H & ->). by eapply attach_linear.
    + apply fmap_Ok in H as ([r h1] & H & ->). destruct s as [p|].
      * by apply detach_linear in H as [? _].
      * by injection H as _ <-.
  - eapply linear_shape; [|done]. by eapply run_shape.
Qed.

(** X26 (the chain stays linear).  From a heap in which every parent link
    is answered by the child link of the parent, as in the initial heap, no
    sequence of operations ([operation]) reaches a heap in which it is not:
    a session that has a parent is the child of that parent, so no two live
    sessions have the same parent. *)
Theorem chain_stays_linear fuel h os h' :
  linear h → run_all fuel h os = Ok h' →
  (∀ x n q, impls h' !! x = Some n → parent n = Some q →
            ∃ m, impls h' !! q = Some m ∧ child m = Some x) ∧
  (∀ x y nx ny q, impls h' !! x = Some nx → impls h' !! y = Some ny →
                  parent nx = Some q → parent ny = Some q → x = y).
Proof.
  intros L H. assert (linear h') as L'.
  { revert h L H. induction os as [|o os IH]; intros h L H; simpl in H.
    - by injection H as <-.
    - inv_bind H as h1 H1. eapply IH; [|done]. by eapply run_linear. }
  split; [exact L'|]. intros x y nx ny q Hx Hy Hxq Hyq.
  destruct (L' x nx q Hx Hxq) as (m & Hm & Hmx).
  destruct (L' y ny q Hy Hyq) as (m' & Hm' & Hmy). congruence.
Qed.

Lemma ex_heap_linear : linear ex_heap.
Proof.
  intros x n q Hx Hq. unfold ex_heap in Hx. simpl in Hx.
  apply lookup_insert_Some in Hx as [[<- <-]|[_ Hx]]; [done|].
  apply lookup_singleton_Some in Hx as [<- <-]. injection Hq as <-.
  by exists ex_root.
Qed.

Lemma chain_stays_linear_witness :
  ∃ h', run_all 5 ex_heap
          [op_make_session (Some 2); op_write (Some 3) (make_kv "c" "4");
           op_undo (Some 3); op_detach (Some 1); op_attach (Some 1) (Some 2);
           op_commit (Some 2)] = Ok h' ∧
        (∀ x n q, impls h' !! x = Some n → parent n = Some q →
                  ∃ m, impls h' !! q = Some m ∧ child m = Some x) ∧
        (∀ x y nx ny q, impls h' !! x = Some nx → impls h' !! y = Some ny →
                        parent nx = Some q → parent ny = Some q → x = y).
Proof.
  destruct (run_all 5 ex_heap
          [op_make_session (Some 2); op_write (Some 3) (make_kv "c" "4");
           op_undo (Some 3); op_detach (Some 1); op_attach (Some 1) (Some 2);
           op_commit (Some 2)])
    as [h'| |] eqn:E.
  - exists h'. split; [reflexivity|].
    exact (chain_stays_linear 5 ex_heap _ h' ex_heap_linear E).
  - exfalso. vm_compute in E. discriminate E.
  - exfalso. vm_compute in E. discriminate E.
Defined.

(** ** A session without backing store *)

Lemma find_start_no_store fuel h p n pred cmp mv :
  impls h !! p = Some n → parent n = None → backing_data_store n = None →
  find_start (S fuel) h p pred cmp mv = Fault.
Proof.
  intros Hn Hp Hb. unfold find_start, get. rewrite Hn. cbn [mbind result_bind deref root_of].
  unfold get. rewrite Hn. cbn [mbind result_bind deref]. rewrite Hp.
  cbn [mbind result_bind]. unfold backing. by rewrite Hb.
Qed.

Lemma update_iterator_cache_no_store fuel h p n key params :
  impls h !! p = Some n → parent n = None → backing_data_store n = None →
  prime_only params = false → recalculate params = true →
  update_iterator_cache (S fuel) h p key params = Fault.
Proof.
  intros Hn Hp Hb Hprime Hrec. unfold update_iterator_cache.
  rewrite (modify_lookup _ _ _ _ Hn). cbn [mbind result_bind]. rewrite Hprime.
  set (n0 := set_iterator_cache (try_emplace key (iterator_cache n)) n).
  destruct (try_emplace_is_Some key (iterator_cache n)) as [st Hst].
  assert (∃ h1 n1 st1,
            (if overwrite params
             then modify_entry p key (set_deleted_flag (mark_deleted params)) (put p n0 h)
             else Ok (put p n0 h)) = Ok h1 ∧
            impls h1 !! p = Some n1 ∧ parent n1 = None ∧ backing_data_store n1 = None ∧
            iterator_cache n1 !! key = Some st1) as (h1 & n1 & st1 & -> & Hn1 & Hp1 & Hb1 & Hst1).
  { destruct (overwrite params).
    - unfold modify_entry, get. rewrite lookup_put_eq. simpl. rewrite Hst. simpl.
      eexists _, _, _. split; [done|]. rewrite lookup_put_eq. split; [done|].
      simpl. split_and!; [done|done|]. apply lookup_insert_eq.
    - eexists _, n0, st. split; [done|]. rewrite lookup_put_eq. by split_and!. }
  cbn [mbind result_bind]. unfold get at 1. rewrite Hn1. cbn [mbind result_bind deref].
  rewrite Hst1. cbn [mbind result_bind deref]. rewrite Hrec. cbn [negb andb].
  unfold bounds, make_iterator_prime.
  by rewrite (find_start_no_store fuel h1 p n1).
Qed.

(** X27 (no writes without a backing store).  A session without parent and
    without backing store, as [detach], [undo] or a second nesting on its
    parent leave it, cannot be written, erased from or iterated: [write],
    [erase] and every iterator construction dereference the backing store,
    which is null. *)
Theorem write_without_store_is_undefined fuel h p :
  free_standing h p →
  (∀ kv, write (S fuel) h (Some p) kv = Fault) ∧
  (∀ k, erase (S fuel) h (Some p) k = Fault) ∧
  (∀ pred cmp mv prime, make_iterator_ (S fuel) h (Some p) pred cmp mv prime = Fault).
Proof.
  intros (n & Hn & Hp & Hb). split_and!.
  - intros kv. cbn [write]. rewrite (modify_lookup _ _ _ _ Hn). cbn [mbind result_bind].
    rewrite (modify_lookup _ _ _ _ (lookup_put_eq _ _ _)). cbn [mbind result_bind].
    rewrite (modify_lookup _ _ _ _ (lookup_put_eq _ _ _)). cbn [mbind result_bind].
    by eapply update_iterator_cache_no_store; [apply lookup_put_eq|..].
  - intros k. cbn [erase]. rewrite (modify_lookup _ _ _ _ Hn). cbn [mbind result_bind].
    rewrite (modify_lookup _ _ _ _ (lookup_put_eq _ _ _)). cbn [mbind result_bind].
    rewrite (modify_lookup _ _ _ _ (lookup_put_eq _ _ _)). cbn [mbind result_bind].
    by eapply update_iterator_cache_no_store; [apply lookup_put_eq|..].
  - intros pred cmp mv prime. cbn [make_iterator_].
    by rewrite (find_start_no_store fuel h p n).
Qed.

Lemma write_without_store_is_undefined_witness :
  (∀ kv, write 5 ex_detached (Some 2) kv = Fault) ∧
  (∀ k, erase 5 ex_detached (Some 2) k = Fault) ∧
  (∀ pred cmp mv prime, make_iterator_ 5 ex_detached (Some 2) pred cmp mv prime = Fault).
Proof.
  apply (write_without_store_is_undefined 4 ex_detached 2).
  eexists. split_and!; [reflexivity|reflexivity|reflexivity].
Defined.

(** ** The batch [read] accounts for its keys *)

Lemma read_batch_walk_found fuel0 fuel h p key cur kv d h' :
  read_batch_walk fuel0 fuel h p key cur = Ok (Some kv, d, h') → kv_key kv = key.
Proof.
  revert cur. induction fuel as [|f IH]; intros cur H.
  - destruct cur as [q|]; simpl in H; done.
  - destruct cur as [q|]; simpl in H; [|done].
    inv_bind H as m Hm. destruct (decide (key ∈ deleted_keys m)); [done|].
    destruct (ds_read (cache m) key) as [kv'|] eqn:Hr.
    + apply ds_read_Some in Hr as (v & _ & ->). destruct (decide (q ≠ p)).
      * inv_bind H as h1 H1. by injection H as <- _ _.
      * by injection H as <- _ _.
    + by eapply IH.
Qed.

Lemma read_batch_keys_account fuel h p keys kvs nf kvs' nf' h' :
  read_batch_keys fuel h p keys kvs nf = Ok (kvs', nf', h') →
  ∀ k, k ∈ kv_key <$> kvs' ∨ k ∈ nf' ↔ k ∈ keys ∨ k ∈ kv_key <$> kvs ∨ k ∈ nf.
Proof.
  revert h kvs nf. induction keys as [|key keys IH]; intros h kvs nf H k; simpl in H.
  - injection H as <- <- _. set_solver.
  - inv_bind H as [[x d] h1] H1. destruct x as [kv|].
    + apply read_batch_walk_found in H1. apply IH with (k := k) in H. rewrite H.
      rewrite fmap_app. simpl. rewrite H1. set_solver.
    + apply IH with (k := k) in H. rewrite H. set_solver.
Qed.

Lemma read_batch_walk_total fuel0 fuel h p k q l :
  iterable fuel0 h p → ancestry h q l → length l ≤ fuel →
  ∃ r, read_batch_walk fuel0 fuel h p k (Some q) = Ok r.
Proof.
  intros I A. revert fuel. induction A as [q n Hn Hp|q n q' l Hn Hp A IH]; intros fuel L;
    (destruct fuel as [|f]; [simpl in L; lia|]); simpl; unfold get; rewrite Hn; simpl;
    (destruct (decide (k ∈ deleted_keys n)); [eauto|]);
    (destruct (ds_read (cache n) k) as [kv|] eqn:Hr;
      [apply ds_read_Some in Hr as (v & _ & ->);
       destruct (decide (q ≠ p)); [|eauto];
       destruct (iterable_lookup _ _ _ I) as [pn Hpn];
       destruct (cache_in_spec fuel0 h p pn k v I Hpn) as (h1 & -> & _); simpl; eauto|]).
  - rewrite Hp. destruct f; simpl; eauto.
  - rewrite Hp. apply IH. simpl in L. lia.
Qed.

Lemma read_batch_keys_total fuel h p keys kvs nf :
  iterable fuel h p →
  ∃ r h', read_batch_keys fuel h p keys kvs nf = Ok (r, h') ∧ iterable fuel h' p.
Proof.
  revert h kvs nf. induction keys as [|key keys IH]; intros h kvs nf I; simpl.
  - eexists _, _. by split.
  - destruct (iterable_ancestry _ _ _ I) as (n & l & Hn & A & L).
    destruct (read_batch_walk_total fuel fuel h p key p l I A L) as ([[x d] h1] & E).
    rewrite E. simpl.
    assert (iterable fuel h1 p) as I1.
    { eapply iterable_shape; [|done]. apply (reads_into_shape p).
      by eapply read_batch_walk_reads_into. }
    destruct x; by apply IH.
Qed.

(** X28 (the batch [read] accounts for its keys).  On an iterable session
    the batch [read] returns, and every key it was asked for is either the
    key of a key/value it returns or among the keys it reports as not found;
    it returns and reports no other keys. *)
Theorem read_batch_accounts_for_keys fuel h p keys :
  iterable fuel h p →
  ∃ kvs missing h',
    read_batch fuel h (Some p) keys = Ok (kvs, missing, h') ∧
    ∀ k, k ∈ keys ↔ k ∈ kv_key <$> kvs ∨ k ∈ missing.
Proof.
  intros I. cbn [read_batch].
  destruct (read_batch_keys_total fuel h p keys [] ∅ I) as ([kvs nf] & h1 & E & I1).
  rewrite E. cbn [mbind result_bind].
  pose proof (read_batch_keys_account _ _ _ _ _ _ _ _ _ E) as Hacc.
  destruct I1 as (_ & _ & _ & n & b & ds & _ & _ & _ & _ & _ & Hn & Hb & Hs).
  unfold get. rewrite Hn. cbn [mbind result_bind deref]. rewrite Hb, Hs.
  cbn [mbind result_bind deref]. unfold ds_read_batch.
  set (found := omap (ds_read ds) (set_keys nf)).
  set (missing := list_to_set (filter (λ k, ds !! k = None) (set_keys nf)) : gset string).
  assert (∃ h', (if bool_decide (found ≠ [])
                 then modify p (λ n, set_cache (ds_write_batch (cache n) found) n) h1
                 else Ok h1) = Ok h') as [h' ->].
  { destruct (bool_decide (found ≠ [])); [|eauto]. rewrite (modify_lookup _ _ _ _ Hn). eauto. }
  cbn [mbind result_bind]. eexists _, _, _. split; [done|].
  intros k. rewrite fmap_app, elem_of_app.
  assert (k ∈ kv_key <$> found ↔ k ∈ nf ∧ is_Some (ds !! k)) as ->.
  { unfold found. rewrite list_elem_of_fmap. split.
    - intros (kv & -> & Hkv). apply list_elem_of_omap in Hkv as (k' & Hk' & Hr).
      apply ds_read_Some in Hr as (v & Hv & ->). simpl.
      apply elem_of_set_keys in Hk'. eauto.
    - intros [Hk [v Hv]]. exists (make_kv k v). split; [done|].
      apply list_elem_of_omap. exists k. split; [by apply elem_of_set_keys|].
      apply ds_read_Some. eauto. }
  assert (k ∈ missing ↔ k ∈ nf ∧ ds !! k = None) as ->.
  { unfold missing. rewrite elem_of_list_to_set, list_elem_of_filter, elem_of_set_keys. tauto. }
  specialize (Hacc k). destruct (ds !! k) as [v|] eqn:Hv.
  - split.
    + intros Hk. destruct (proj2 Hacc (or_introl Hk)) as [?|?]; [by left; left|].
      left. right. eauto.
    + intros [[Hk|[Hk _]]|[_ ?]]; [| |done].
      * destruct (proj1 Hacc (or_introl Hk)) as [?|[?|?]]; set_solver.
      * destruct (proj1 Hacc (or_intror Hk)) as [?|[?|?]]; set_solver.
  - split.
    + intros Hk. destruct (proj2 Hacc (or_introl Hk)) as [?|?]; [by left; left|].
      right. eauto.
    + intros [[Hk|[_ [? ?]]]|[Hk _]]; [|done|].
      * destruct (proj1 Hacc (or_introl Hk)) as [?|[?|?]]; set_solver.
      * destruct (proj1 Hacc (or_intror Hk)) as [?|[?|?]]; set_solver.
Qed.

Lemma read_batch_accounts_for_keys_witness :
  ∃ kvs missing h',
    read_batch 5 ex_heap (Some 2) ["a"; "b"; "c"; "d"] = Ok (kvs, missing, h') ∧
    ∀ k, k ∈ ["a"; "b"; "c"; "d"] ↔ k ∈ kv_key <$> kvs ∨ k ∈ missing.
Proof.
  apply (read_batch_accounts_for_keys 5 ex_heap 2 ["a"; "b"; "c"; "d"]).
  apply ex_heap_iterable.
Defined.

(** ** [begin] on a root session *)

(** The search of [begin] on a session without parent and without live
    child: the first key of the store, unless the overlay has a smaller
    one. *)
Lemma find_start_lone_root fuel h p n b ds k rest :
  impls h !! p = Some n → parent n = None → lock h (child n) = None →
  backing_data_store n = Some b → stores h !! b = Some ds →
  sorted_keys ds = k :: rest →
  (∀ k', is_Some (cache n !! k') → String.ltb k' k = false) →
  find_start (S fuel) h p ds_begin bytes_less move_next = Ok (Some k).
Proof.
  intros Hn Hp Hc Hb Hs Hk Hleast.
  assert (∀ key, deleted_below (S fuel) h p p key = Ok false) as Hdel.
  { intros key. unfold deleted_below, get. rewrite Hn. simpl. by rewrite Hc. }
  unfold find_start, get, backing. rewrite Hn. cbn [mbind result_bind deref root_of].
  unfold get. rewrite Hn. cbn [mbind result_bind deref]. rewrite Hp.
  cbn [mbind result_bind]. rewrite Hb. cbn [mbind result_bind deref]. rewrite Hs.
  cbn [mbind result_bind deref]. unfold ds_begin. rewrite Hk.
  cbn [find_first_not]. rewrite Hdel. cbn [mbind result_bind].
  cbn [scan_levels]. unfold get. rewrite Hn. cbn [mbind result_bind deref].
  destruct (sorted_keys (cache n)) as [|k' rest'] eqn:Hc'.
  - cbn [find_first_not mbind result_bind]. rewrite Hc. by destruct fuel.
  - cbn [find_first_not]. rewrite Hdel. cbn [mbind result_bind].
    rewrite decide_True by done. unfold bytes_less. rewrite Hleast; [done|].
    apply elem_of_sorted_keys. rewrite Hc'. by left.
Qed.

(** X29 ([begin] of a new root session).  On a session newly built over a
    store, with an empty overlay, [begin()] returns an iterator at the least
    key of the store, or [end()] when the store is empty. *)
Theorem begin_of_new_session fuel h ds :
  ∃ p h1 h2,
    new_session h ds ∅ = (Some p, h1) ∧
    session_begin (S fuel) h1 (Some p) =
      Ok (SessionIterator (head (sorted_keys ds)) (Some p), h2) ∧
    ∀ k k', head (sorted_keys ds) = Some k → is_Some (ds !! k') →
            k' = k ∨ String.ltb k k' = true.
Proof.
  set (p := fresh (dom (impls h))). set (b := fresh (dom (stores h))).
  set (n := SessionImpl None None (Some b) ∅ ∅ ∅ ∅).
  set (h1 := (new_session h ds ∅).2).
  assert (impls h1 !! p = Some n) as Hn by apply lookup_insert_eq.
  assert (stores h1 !! b = Some ds) as Hs by apply lookup_insert_eq.
  assert (iterable (S fuel) h1 p) as I by (apply new_session_iterable; lia).
  assert (∃ h2, session_begin (S fuel) h1 (Some p) =
                  Ok (SessionIterator (head (sorted_keys ds)) (Some p), h2)) as [h2 E].
  { unfold session_begin. cbn [make_iterator_].
    destruct (sorted_keys ds) as [|k rest] eqn:Hk.
    - exists h1. unfold find_start, get, backing. rewrite Hn.
      cbn [mbind result_bind deref root_of]. unfold get. rewrite Hn.
      cbn [mbind result_bind deref parent backing_data_store n]. rewrite Hs.
      cbn [mbind result_bind deref]. unfold ds_begin. rewrite Hk.
      cbn [find_first_not mbind result_bind scan_levels]. unfold get. rewrite Hn.
      cbn [mbind result_bind deref]. by destruct fuel.
    - rewrite (find_start_lone_root fuel h1 p n b ds k rest Hn); try done.
      + cbn [mbind result_bind].
        destruct (update_iterator_cache_total (S fuel) h1 p k
                    (IteratorCacheParams false true false false) I) as [h2 E].
        rewrite E. cbn [mbind result_bind]. exists h2.
        destruct (update_iterator_cache_rest _ _ _ _ _ _ E) as (h0 & h0' & E0 & E1 & K).
        cbn [prime_only overwrite] in E1. injection E1 as <-.
        rewrite (modify_lookup _ _ _ _ Hn) in E0. injection E0 as <-.
        assert (marked p k false (put p (set_iterator_cache
                  (try_emplace k (iterator_cache n)) n) h1)) as M.
        { eexists _, iterator_state_default. split_and!; [apply lookup_put_eq| |done].
          simpl. unfold try_emplace. rewrite lookup_empty. apply lookup_insert_eq. }
        apply (marked_kept _ _ _ _ _ K) in M as (n2 & st & Hn2 & Hst & Hd).
        unfold position_at, get. rewrite Hn2. simpl. rewrite Hst. simpl. by rewrite Hd.
      + intros k' [v Hv]. simpl in Hv. by rewrite lookup_empty in Hv. }
  exists p, h1, h2. split_and!; [done|done|].
  intros k k' Hk Hk'. pose proof (sorted_keys_increasing ds) as Hinc.
  apply elem_of_sorted_keys in Hk'.
  destruct (sorted_keys ds) as [|x rest]; [done|]. injection Hk as ->.
  apply elem_of_cons in Hk' as [?|Hk']; [by left|]. right.
  destruct Hinc as [Hx _]. by apply (proj1 (Forall_forall _ _) Hx).
Qed.

(** X30 ([begin] after the first key was erased).  Let a session without
    parent and without live child stand over a store whose least key [k] is
    below every key of the overlay.  After [erase(k)] through the session,
    [begin()] returns [end()], whatever other keys the store holds: the
    search stops at [k], whose entry in the iterator cache is marked
    deleted. *)
Theorem begin_after_first_key_erased fuel h p n b ds k rest :
  iterable (S fuel) h p → impls h !! p = Some n →
  parent n = None → lock h (child n) = None →
  backing_data_store n = Some b → stores h !! b = Some ds →
  sorted_keys ds = k :: rest →
  (∀ k', is_Some (cache n !! k') → String.ltb k' k = false) →
  ∃ h1 h2,
    erase (S fuel) h (Some p) k = Ok h1 ∧
    session_begin (S fuel) h1 (Some p) = Ok (SessionIterator None (Some p), h2).
Proof.
  intros I Hn Hp Hc Hb Hs Hk Hleast.
  destruct (erase_spec (S fuel) h p n k I Hn) as (ic & He & _ & _).
  set (n1 := set_iterator_cache ic (erased k n)) in *.
  set (h1 := put p n1 h) in *.
  assert (iterable (S fuel) h1 p) as I1.
  { by apply (iterable_put (S fuel) h p p n (λ n, set_iterator_cache ic (erased k n))). }
  assert (impls h1 !! p = Some n1) as Hn1 by apply lookup_put_eq.
  assert (find_start (S fuel) h1 p ds_begin bytes_less move_next = Ok (Some k)) as Hfs.
  { apply (find_start_lone_root fuel h1 p n1 b ds k rest); try done.
    - unfold h1. by rewrite (lock_put h p n).
    - intros k' [v Hv]. simpl in Hv. unfold ds_erase in Hv.
      apply lookup_delete_Some in Hv as [_ Hv]. apply Hleast. eauto. }
  destruct (make_iterator_total (S fuel) h1 p ds_begin bytes_less move_next false I1)
    as (it & h2 & E).
  exists h1, h2. split; [done|]. unfold session_begin. rewrite E. do 2 f_equal.
  destruct (make_iterator_position _ _ _ _ _ _ _ _ _ E) as (Hsess & ck & Hck & Hpos).
  pose proof (proj1 (proj2 (make_iterator_marked _ _ _ _ _ _ _ _ _ E)) k
                (erase_marks _ _ _ _ _ He)) as Hnot.
  rewrite Hfs in Hck. injection Hck as <-.
  destruct it as [pos s]. simpl in *. subst s. f_equal.
  destruct Hpos as [?|?]; [done|congruence].
Qed.

(** A root over [{"a" ↦ "1"; "b" ↦ "2"}]: after the erase of ["a"],
    [begin()] is [end()]. *)
Lemma begin_after_first_key_erased_witness :
  ∃ h1 h2,
    erase 5 (root_over {[ "a" := "1"; "b" := "2" ]}).2 (Some 1) "a" = Ok h1 ∧
    session_begin 5 h1 (Some 1) = Ok (SessionIterator None (Some 1), h2).
Proof.
  apply (begin_after_first_key_erased 4 (root_over {[ "a" := "1"; "b" := "2" ]}).2 1
           (SessionImpl None None (Some 1) ∅ ∅ ∅ ∅) 1 {[ "a" := "1"; "b" := "2" ]} "a" ["b"]).
  - apply (new_session_iterable 5 initial_heap {[ "a" := "1"; "b" := "2" ]} ∅). lia.
  - reflexivity.
  - reflexivity.
  - reflexivity.
  - reflexivity.
  - reflexivity.
  - vm_compute. reflexivity.
  - intros k' [v Hv]. simpl in Hv. by rewrite lookup_empty in Hv.
Defined.
